(** * Checkers client: board codec, move-legality engine, game store and page effects

    A shallow embedding of the TypeScript front end:
    - [types/game.ts]       : [Piece], [parseBoardState], [getPiece];
    - [CheckersBoard.tsx]   : [hasAnyCaptureAvailable], [calculateValidMoves],
                              [isPieceOwnedByPlayer], [calculatePremoveValidMoves];
    - [store/game.ts]       : [fetchGames], [fetchGame], [makeMove], [resign],
                              [localMakeMove], [rollbackMove], [boardToString];
    - [app/page.tsx]        : the timeout auto-handler and the premove effects.

    JavaScript numbers that index the board are modelled as [Z]; strings as
    [string]; arrays as lists whose slots may be holes; a thrown [TypeError]
    as the [TypeError] result of the [Exc] monad. *)

From Stdlib Require Import ZArith List String Ascii Bool Lia Permutation.
From Stdlib Require Import DecimalString.
Import ListNotations.
Open Scope Z_scope.

(* ================================================================== *)
(** ** Exceptions *)

Module Js.

(** Result of an expression that may throw a [TypeError] (indexing
    [undefined]). *)
Inductive Exc (A : Type) : Type :=
| Ok (a : A)
| TypeError.
Arguments Ok {A} a.
Arguments TypeError {A}.

Definition bind {A B} (m : Exc A) (k : A -> Exc B) : Exc B :=
  match m with
  | Ok a => k a
  | TypeError => TypeError
  end.

End Js.
Import Js.

Notation "x <- m ;; k" := (Js.bind m (fun x => k))
  (at level 61, m at next level, right associativity).

(* ================================================================== *)
(** ** Pieces and boards (types/game.ts) *)

Inductive Piece : Type := Empty | Red | Black | RedKing | BlackKing.

Definition Piece_eqb (a b : Piece) : bool :=
  match a, b with
  | Empty, Empty | Red, Red | Black, Black
  | RedKing, RedKing | BlackKing, BlackKing => true
  | _, _ => false
  end.

(** Run-time value of an expression of type [Piece]: reading past the end
    of a row gives [undefined], here [None]. *)
Definition Value : Type := option Piece.

(** [v === p] for a value [v] and an enum member [p]. *)
Definition strictEq (v : Value) (p : Piece) : bool :=
  match v with
  | Some q => Piece_eqb q p
  | None => false
  end.

(** One slot of a JavaScript array of pieces. *)
Inductive Slot : Type :=
| SHole
| SUndef
| SPiece (p : Piece).

Definition slotValue (s : Slot) : Value :=
  match s with
  | SPiece p => Some p
  | _ => None
  end.

Definition valueSlot (v : Value) : Slot :=
  match v with
  | Some p => SPiece p
  | None => SUndef
  end.

Definition Row : Type := list Slot.
Definition Board : Type := list Row.

Definition zlen {A} (l : list A) : Z := Z.of_nat (List.length l).

(** [board[r][c]] : indexing [board[r]] when it is [undefined] throws. *)
Definition get (board : Board) (r c : Z) : Exc Value :=
  if (r <? 0) || (zlen board <=? r) then TypeError
  else
    let row := nth (Z.to_nat r) board [] in
    if (c <? 0) || (zlen row <=? c) then Ok None
    else Ok (slotValue (nth (Z.to_nat c) row SHole)).

Fixpoint replaceNth {A} (n : nat) (x : A) (l : list A) : list A :=
  match l, n with
  | [], _ => []
  | _ :: t, O => x :: t
  | h :: t, S m => h :: replaceNth m x t
  end.

(** [row[c] = v].  Inside the array the slot is overwritten; past its end
    the array grows, leaving holes; a negative [c] creates a named property
    and leaves the elements alone. *)
Definition rowSet (row : Row) (c : Z) (v : Value) : Row :=
  if c <? 0 then row
  else if c <? zlen row then replaceNth (Z.to_nat c) (valueSlot v) row
  else row ++ repeat SHole (Z.to_nat c - List.length row)%nat ++ [valueSlot v].

(** [board[r][c] = v]. *)
Definition set (board : Board) (r c : Z) (v : Value) : Exc Board :=
  if (r <? 0) || (zlen board <=? r) then TypeError
  else
    let row := nth (Z.to_nat r) board [] in
    Ok (replaceNth (Z.to_nat r) (rowSet row c v) board).

(** *** String helpers: [split("/")] and [join] *)

Definition slash : ascii := "/"%char.

(** [s.split("/")]: always at least one field. *)
Fixpoint split (s : string) : list string :=
  match s with
  | EmptyString => [EmptyString]
  | String ch rest =>
      if Ascii.eqb ch slash then EmptyString :: split rest
      else match split rest with
           | [] => [String ch EmptyString]
           | r :: rs => String ch r :: rs
           end
  end.

(** [xs.join(sep)]. *)
Fixpoint join (sep : string) (xs : list string) : string :=
  match xs with
  | [] => EmptyString
  | [x] => x
  | x :: rest => (x ++ sep ++ join sep rest)%string
  end.

(** *** parseBoardState *)

Definition parseChar (ch : ascii) : Piece :=
  if Ascii.eqb ch "r"%char then Red
  else if Ascii.eqb ch "b"%char then Black
  else if Ascii.eqb ch "R"%char then RedKing
  else if Ascii.eqb ch "B"%char then BlackKing
  else Empty.

Fixpoint parseRow (row : string) : Row :=
  match row with
  | EmptyString => []
  | String ch rest => SPiece (parseChar ch) :: parseRow rest
  end.

Definition parseBoardState (boardState : string) : Board :=
  map parseRow (split boardState).

(** *** getPiece *)

Definition getPiece (boardState : string) (row col : Z) : Exc Value :=
  let board := parseBoardState boardState in
  if (0 <=? row) && (row <? 8) && (0 <=? col) && (col <? 8)
  then get board row col
  else Ok (Some Empty).

(** *** boardToString (store/game.ts) *)

Definition pieceChar (v : Value) : string :=
  match v with
  | Some Red => "r"
  | Some Black => "b"
  | Some RedKing => "R"
  | Some BlackKing => "B"
  | _ => "."
  end%string.

(** [row.map(f)] keeps holes as holes; [join] prints a hole as the empty
    string. *)
Definition slotString (s : Slot) : string :=
  match s with
  | SHole => EmptyString
  | SUndef => pieceChar None
  | SPiece p => pieceChar (Some p)
  end.

Definition rowToString (row : Row) : string :=
  join EmptyString (map slotString row).

Definition boardToString (board : Board) : string :=
  join "/"%string (map rowToString board).

(** *** Well-formed wire strings *)

Definition isPieceChar (ch : ascii) : bool :=
  Ascii.eqb ch "r"%char || Ascii.eqb ch "b"%char
  || Ascii.eqb ch "R"%char || Ascii.eqb ch "B"%char.

Definition isEmptyChar (ch : ascii) : bool :=
  Ascii.eqb ch " "%char || Ascii.eqb ch "."%char.

Fixpoint allChars (f : ascii -> bool) (s : string) : bool :=
  match s with
  | EmptyString => true
  | String ch rest => f ch && allChars f rest
  end.

Fixpoint mapChars (f : ascii -> ascii) (s : string) : string :=
  match s with
  | EmptyString => EmptyString
  | String ch rest => String (f ch) (mapChars f rest)
  end.

(** Eight rows joined by ["/"], each of eight characters, a piece letter
    or one of the characters in [empties]. *)
Definition wellFormedOver (empties : ascii -> bool) (s : string) : bool :=
  let rows := split s in
  (List.length rows =? 8)%nat
  && forallb (fun r => (String.length r =? 8)%nat
                       && allChars (fun ch => isPieceChar ch || empties ch) r)
             rows.

(** The wire alphabet: a space for an empty square. *)
Definition wellFormedWire : string -> bool :=
  wellFormedOver (fun ch => Ascii.eqb ch " "%char).

(** The alphabet [boardToString] writes: a dot for an empty square. *)
Definition wellFormedDotted : string -> bool :=
  wellFormedOver (fun ch => Ascii.eqb ch "."%char).

Definition wellFormedBoardString : string -> bool :=
  wellFormedOver isEmptyChar.

Definition spaceToDot (ch : ascii) : ascii :=
  if Ascii.eqb ch " "%char then "."%char else ch.

Definition initialWire : string :=
  "r r r r / r r r r/r r r r /        /        / b b b b/b b b b / b b b b"%string.

Definition initialDotted : string :=
  "r.r.r.r./.r.r.r.r/r.r.r.r./......../......../.b.b.b.b/b.b.b.b./.b.b.b.b"%string.

(* ================================================================== *)
(** ** Move-legality engine (CheckersBoard.tsx) *)

Inductive PlayerColor : Type := PRed | PBlack | Spectator.

Definition PlayerColor_eqb (a b : PlayerColor) : bool :=
  match a, b with
  | PRed, PRed | PBlack, PBlack | Spectator, Spectator => true
  | _, _ => false
  end.

Record Square : Type := mkSquare { sq_row : Z; sq_col : Z }.

Definition Square_eqb (a b : Square) : bool :=
  (sq_row a =? sq_row b) && (sq_col a =? sq_col b).

(** [piece === Piece.RedKing || piece === Piece.BlackKing] *)
Definition isKing (piece : Value) : bool :=
  strictEq piece RedKing || strictEq piece BlackKing.

(** [piece === Piece.Red || piece === Piece.RedKing] *)
Definition isRed (piece : Value) : bool :=
  strictEq piece Red || strictEq piece RedKing.

(** Kings move on all four diagonals, red men down the board, black men
    up. *)
Definition directions (king red : bool) : list (Z * Z) :=
  if king then [(-1, -1); (-1, 1); (1, -1); (1, 1)]
  else if red then [(1, -1); (1, 1)]
  else [(-1, -1); (-1, 1)].

Definition inBoard (r c : Z) : bool :=
  (0 <=? r) && (r <? 8) && (0 <=? c) && (c <? 8).

Definition isEnemy (red : bool) (midPiece : Value) : bool :=
  if red then strictEq midPiece Black || strictEq midPiece BlackKing
  else strictEq midPiece Red || strictEq midPiece RedKing.

(** The simple-move test of one direction: the adjacent square is on the
    board and empty.  The board is read only when the square is on it. *)
Definition simpleTest (board : Board) (row col : Z) (d : Z * Z) : Exc bool :=
  let '(dr, dc) := d in
  let newRow := row + dr in
  let newCol := col + dc in
  if inBoard newRow newCol then
    v <- get board newRow newCol ;;
    Ok (strictEq v Empty)
  else Ok false.

(** The capture test of one direction: the landing square is on the board
    and empty, and the square jumped over holds an enemy piece. *)
Definition captureTest (board : Board) (red : bool) (row col : Z)
    (d : Z * Z) : Exc bool :=
  let '(dr, dc) := d in
  let jumpRow := row + 2 * dr in
  let jumpCol := col + 2 * dc in
  let midRow := row + dr in
  let midCol := col + dc in
  if inBoard jumpRow jumpCol then
    j <- get board jumpRow jumpCol ;;
    if strictEq j Empty then
      midPiece <- get board midRow midCol ;;
      Ok (isEnemy red midPiece)
    else Ok false
  else Ok false.

Definition stepTo (row col : Z) (k : Z) (d : Z * Z) : Square :=
  mkSquare (row + k * fst d) (col + k * snd d).

(** A loop that returns [true] from the enclosing function as soon as its
    body does. *)
Fixpoint anyM {A} (f : A -> Exc bool) (l : list A) : Exc bool :=
  match l with
  | [] => Ok false
  | x :: rest =>
      b <- f x ;;
      if b then Ok true else anyM f rest
  end.

Definition range8 : list Z := [0; 1; 2; 3; 4; 5; 6; 7].

Definition isPlayerRed (playerColor : PlayerColor) : bool :=
  PlayerColor_eqb playerColor PRed.

(** Body of the two nested loops of [hasAnyCaptureAvailable] for one
    square. *)
Definition squareHasCapture (board : Board) (playerColor : PlayerColor)
    (row col : Z) : Exc bool :=
  piece <- get board row col ;;
  if strictEq piece Empty then Ok false
  else
    let isPieceRed := isRed piece in
    if negb (Bool.eqb (isPlayerRed playerColor) isPieceRed) then Ok false
    else
      let dirs := directions (isKing piece) isPieceRed in
      anyM (captureTest board isPieceRed row col) dirs.

Definition hasAnyCaptureAvailable (board : Board)
    (playerColor : PlayerColor) : Exc bool :=
  anyM (fun row => anyM (fun col => squareHasCapture board playerColor row col)
                        range8)
       range8.

(** The direction loop of [calculateValidMoves]: two lists are filled in
    parallel. *)
Fixpoint scanDirections (board : Board) (red : bool) (row col : Z)
    (dirs : list (Z * Z)) (simpleMoves captureMoves : list Square)
    : Exc (list Square * list Square) :=
  match dirs with
  | [] => Ok (simpleMoves, captureMoves)
  | d :: rest =>
      s <- simpleTest board row col d ;;
      let simpleMoves' :=
        if s then simpleMoves ++ [stepTo row col 1 d] else simpleMoves in
      c <- captureTest board red row col d ;;
      let captureMoves' :=
        if c then captureMoves ++ [stepTo row col 2 d] else captureMoves in
      scanDirections board red row col rest simpleMoves' captureMoves'
  end.

Definition calculateValidMoves (board : Board) (playerColor : PlayerColor)
    (row col : Z) (piece : Value) : Exc (list Square) :=
  let king := isKing piece in
  let red := isRed piece in
  lists <- scanDirections board red row col (directions king red) [] [] ;;
  let '(simpleMoves, captureMoves) := lists in
  if (0 <? zlen captureMoves) then Ok captureMoves
  else
    any <- hasAnyCaptureAvailable board playerColor ;;
    if any then Ok [] else Ok simpleMoves.

(** *** Premove staging *)

Definition isPieceOwnedByPlayer (playerColor : PlayerColor)
    (piece : Value) : bool :=
  if strictEq piece Empty then false
  else
    let isPieceRed := isRed piece in
    (PlayerColor_eqb playerColor PRed && isPieceRed)
    || (PlayerColor_eqb playerColor PBlack && negb isPieceRed).

Fixpoint scanPremoveDirections (board : Board) (red : bool) (row col : Z)
    (dirs : list (Z * Z)) (moves : list Square) : Exc (list Square) :=
  match dirs with
  | [] => Ok moves
  | d :: rest =>
      s <- simpleTest board row col d ;;
      let moves1 := if s then moves ++ [stepTo row col 1 d] else moves in
      c <- captureTest board red row col d ;;
      let moves2 := if c then moves1 ++ [stepTo row col 2 d] else moves1 in
      scanPremoveDirections board red row col rest moves2
  end.

Definition calculatePremoveValidMoves (board : Board) (row col : Z)
    (piece : Value) : Exc (list Square) :=
  let king := isKing piece in
  let red := isRed piece in
  scanPremoveDirections board red row col (directions king red) [].

Record MoveInfo : Type := mkMove
  { fromRow : Z; fromCol : Z; toRow : Z; toCol : Z }.

(** The board component's premove selection and the page's premove slot
    it drives through [onPremove] / [onCancelPremove]. *)
Record PremoveUi : Type := mkPremoveUi
  { premoveFrom : option Square;
    premoveValidMoves : list Square;
    premove : option MoveInfo }.

(** [handlePremove] (page.tsx): the new premove overwrites the slot. *)
Definition handlePremove (m : MoveInfo) (ui : PremoveUi) : PremoveUi :=
  mkPremoveUi (premoveFrom ui) (premoveValidMoves ui) (Some m).

(** [handleCancelPremove] (page.tsx). *)
Definition handleCancelPremove (ui : PremoveUi) : PremoveUi :=
  mkPremoveUi (premoveFrom ui) (premoveValidMoves ui) None.

(** [handlePremoveClick]: a click on the board while it is not the
    player's turn. *)
Definition handlePremoveClick (board : Board) (playerColor : PlayerColor)
    (row col : Z) (ui : PremoveUi) : Exc PremoveUi :=
  piece <- get board row col ;;
  if isPieceOwnedByPlayer playerColor piece then
    moves <- calculatePremoveValidMoves board row col piece ;;
    Ok (handleCancelPremove (mkPremoveUi (Some (mkSquare row col)) moves (premove ui)))
  else
    match premoveFrom ui with
    | Some from =>
        let isValid :=
          existsb (fun m => Square_eqb m (mkSquare row col))
                  (premoveValidMoves ui) in
        let ui1 :=
          if isValid
          then handlePremove (mkMove (sq_row from) (sq_col from) row col) ui
          else ui in
        Ok (mkPremoveUi None [] (premove ui1))
    | None => Ok (handleCancelPremove ui)
    end.

(* ================================================================== *)
(** ** Game store (store/game.ts) *)

Inductive Turn : Type := TurnRed | TurnBlack.
Inductive GameStatus : Type := Pending | Active | Finished.

Definition GameStatus_eqb (a b : GameStatus) : bool :=
  match a, b with
  | Pending, Pending | Active, Active | Finished, Finished => true
  | _, _ => false
  end.

(** The fields of [CheckersGame] the modelled operations read or write. *)
Record CheckersGame : Type := mkGame
  { id : string;
    redPlayer : option string;
    blackPlayer : option string;
    boardState : string;
    currentTurn : Turn;
    moveCount : Z;
    status : GameStatus }.

Record PreviousState : Type := mkPrevious
  { prev_games : list CheckersGame;
    prev_selectedGame : option CheckersGame }.

Record GameStore : Type := mkStore
  { games : list CheckersGame;
    selectedGame : option CheckersGame;
    selectedGameId : option string;
    isLoading : bool;
    isMoving : bool;
    error : option string;
    previousState : option PreviousState }.

Definition initialStore : GameStore :=
  mkStore [] None None false false None None.

(** Field updates, as [set({...})] performs them. *)
Definition setGames (v : list CheckersGame) (s : GameStore) : GameStore :=
  mkStore v (selectedGame s) (selectedGameId s) (isLoading s) (isMoving s)
          (error s) (previousState s).
Definition setSelectedGame (v : option CheckersGame) (s : GameStore) : GameStore :=
  mkStore (games s) v (selectedGameId s) (isLoading s) (isMoving s)
          (error s) (previousState s).
Definition setSelectedGameId (v : option string) (s : GameStore) : GameStore :=
  mkStore (games s) (selectedGame s) v (isLoading s) (isMoving s)
          (error s) (previousState s).
Definition setIsLoading (v : bool) (s : GameStore) : GameStore :=
  mkStore (games s) (selectedGame s) (selectedGameId s) v (isMoving s)
          (error s) (previousState s).
Definition setIsMoving (v : bool) (s : GameStore) : GameStore :=
  mkStore (games s) (selectedGame s) (selectedGameId s) (isLoading s) v
          (error s) (previousState s).
Definition setError (v : option string) (s : GameStore) : GameStore :=
  mkStore (games s) (selectedGame s) (selectedGameId s) (isLoading s)
          (isMoving s) v (previousState s).
Definition setPreviousState (v : option PreviousState) (s : GameStore) : GameStore :=
  mkStore (games s) (selectedGame s) (selectedGameId s) (isLoading s)
          (isMoving s) (error s) v.

(** Truthiness of an optional string: [null] and the empty string are
    falsy. *)
Definition truthy (o : option string) : option string :=
  match o with
  | Some EmptyString => None
  | _ => o
  end.

(** What a query resolves to. *)
Inductive Response (A : Type) : Type :=
| Data (a : A)
| NoData
| Failed (message : string).
Arguments Data {A} a.
Arguments NoData {A}.
Arguments Failed {A} message.

(** *** fetchGames: the steps before and after the awaited query *)

Definition fetchGames_start (s : GameStore) : GameStore :=
  setError None (setIsLoading true s).

Definition fetchGames_resolve (resp : Response (list CheckersGame))
    (s : GameStore) : GameStore :=
  match resp with
  | Failed message => setIsLoading false (setError (Some message) s)
  | _ =>
      let gs := match resp with Data l => l | _ => [] end in
      let s1 := setIsLoading false (setGames gs s) in
      match truthy (selectedGameId s1) with
      | Some sid =>
          match find (fun g => String.eqb (id g) sid) gs with
          | Some updated =>
              match selectedGame s1 with
              | None => setSelectedGame (Some updated) s1
              | Some currentSelectedGame =>
                  if moveCount currentSelectedGame <=? moveCount updated
                  then setSelectedGame (Some updated) s1
                  else s1
              end
          | None => s1
          end
      | None => s1
      end
  end.

(** *** fetchGame *)

Definition fetchGame_start (s : GameStore) : GameStore :=
  setError None (setIsLoading true s).

Definition fetchGame_resolve (gid : string) (resp : Response CheckersGame)
    (s : GameStore) : GameStore :=
  match resp with
  | Data game =>
      mkStore (map (fun g => if String.eqb (id g) gid then game else g) (games s))
              (Some game) (Some gid) false (isMoving s) (error s)
              (previousState s)
  | NoData => setIsLoading false (setError (Some "Game not found"%string) s)
  | Failed message => setIsLoading false (setError (Some message) s)
  end.

(** A whole [fetchGame(id)] call; [during] is what other callbacks do to
    the store while the query is awaited. *)
Definition fetchGame (gid : string) (resp : Response CheckersGame)
    (during : GameStore -> GameStore) (s : GameStore) : GameStore :=
  fetchGame_resolve gid resp (during (fetchGame_start s)).

(** *** selectGame *)

Definition selectGame_null (s : GameStore) : GameStore :=
  mkStore (games s) None None false false None (previousState s).

(** The synchronous part of [selectGame(id)]; when the game is not in the
    list a [fetchGame(id)] is started besides. *)
Definition selectGame (gid : string) (s : GameStore) : GameStore :=
  let game := find (fun g => String.eqb (id g) gid) (games s) in
  mkStore (games s) game (Some gid) false false None (previousState s).

(** *** Mutations sent to the service *)

Inductive Mutation : Type :=
| MakeMoveMutation (gameId : string) (fromRow fromCol toRow toCol : Z)
                   (playerId : string)
| ResignMutation (gameId playerId : string)
| ClaimTimeWinMutation (gameId : string).

(** A mutation as it leaves the store, with the value the single-flight
    guard [isMoving] has at that moment. *)
Record Sent : Type := mkSent { sent_mutation : Mutation; sent_guard : bool }.

(** *** makeMove *)

(** One pass of the confirmation loop as the environment drives it. *)
Record Attempt : Type := mkAttempt
  { att_response : Response CheckersGame;
    att_duringFetch : GameStore -> GameStore;
    att_duringBackoff : GameStore -> GameStore }.

(** Everything outside the store that a [makeMove] call meets: the outcome
    of the mutation ([None] when it resolves, [Some message] when it
    throws), what other callbacks do to the store while the call awaits,
    and the answers to the confirmation fetches. *)
Record MoveEnv : Type := mkMoveEnv
  { env_send : option string;
    env_duringSend : GameStore -> GameStore;
    env_duringSettle : GameStore -> GameStore;
    env_attempt : nat -> Attempt }.

Record MoveResult : Type := mkMoveResult
  { res_success : bool;
    res_store : GameStore;
    res_sent : list Sent;
    res_fetches : nat }.

Definition optString_eqb (a : option string) (b : string) : bool :=
  match a with
  | Some x => String.eqb x b
  | None => false
  end.

(** [for (let i = ...; i < 3; i++)]: [remaining] passes are left, [i] is
    the index of the next one. *)
Fixpoint confirmLoop (remaining : nat) (i : nat) (env : MoveEnv)
    (gid : string) (oldMoveCount : Z) (s : GameStore) (fetches : nat)
    : GameStore * nat :=
  match remaining with
  | O => (s, fetches)
  | S remaining' =>
      if negb (optString_eqb (selectedGameId s) gid) then (s, fetches)
      else
        let a := env_attempt env i in
        let s1 := fetchGame gid (att_response a) (att_duringFetch a) s in
        match selectedGame s1 with
        | None => (s1, S fetches)
        | Some updatedGame =>
            if negb (String.eqb (id updatedGame) gid) then (s1, S fetches)
            else if oldMoveCount <? moveCount updatedGame then (s1, S fetches)
            else confirmLoop remaining' (S i) env gid oldMoveCount
                             (att_duringBackoff a s1) (S fetches)
        end
  end.

Definition makeMove (playerId : option string) (env : MoveEnv)
    (from : MoveInfo) (s : GameStore) : MoveResult :=
  match selectedGame s, truthy (selectedGameId s) with
  | Some game, Some gid =>
      match truthy playerId with
      | None =>
          mkMoveResult false
            (setError (Some "Player ID not available"%string) s) [] 0
      | Some pid =>
          if isMoving s then mkMoveResult false s [] 0
          else
            let s1 := setError None (setIsMoving true s) in
            let sent :=
              [mkSent (MakeMoveMutation gid (fromRow from) (fromCol from)
                                        (toRow from) (toCol from) pid)
                      (isMoving s1)] in
            match env_send env with
            | Some message =>
                let s2 := env_duringSend env s1 in
                mkMoveResult false
                  (setIsMoving false (setError (Some message) s2)) sent 0
            | None =>
                let s2 := env_duringSettle env (env_duringSend env s1) in
                let '(s3, n) :=
                  confirmLoop 3 0 env gid (moveCount game) s2 0 in
                mkMoveResult true (setIsMoving false s3) sent n
            end
      end
  | _, _ =>
      mkMoveResult false (setError (Some "No game selected"%string) s) [] 0
  end.

(** *** resign and claimTimeWin: the mutation they send, if any *)

Definition resign_sends (playerId : option string) (s : GameStore)
    : list Mutation :=
  match truthy (selectedGameId s), truthy playerId with
  | Some gid, Some pid => [ResignMutation gid pid]
  | _, _ => []
  end.

Definition claimTimeWin_sends (gameId : string) : list Mutation :=
  [ClaimTimeWinMutation gameId].

(** *** localMakeMove and rollbackMove *)

Inductive Completion : Type := Returned | Threw.

(** [newPiece] of [localMakeMove]. *)
Definition promoted (piece : Value) (toRow : Z) : Value :=
  if strictEq piece Red && (toRow =? 7) then Some RedKing
  else if strictEq piece Black && (toRow =? 0) then Some BlackKing
  else piece.

(** The board transform of [localMakeMove]: clear the source, clear the
    jumped square when the row distance is two, write the destination. *)
Definition applyMove (board : Board) (from : MoveInfo) : Exc Board :=
  piece <- get board (fromRow from) (fromCol from) ;;
  b1 <- set board (fromRow from) (fromCol from) (Some Empty) ;;
  let rowDiff := Z.abs (toRow from - fromRow from) in
  b2 <- (if rowDiff =? 2 then
           let capturedRow := (fromRow from + toRow from) / 2 in
           let capturedCol := (fromCol from + toCol from) / 2 in
           set b1 capturedRow capturedCol (Some Empty)
         else Ok b1) ;;
  let newPiece := promoted piece (toRow from) in
  set b2 (toRow from) (toCol from) newPiece.

Definition flipTurn (t : Turn) : Turn :=
  match t with TurnRed => TurnBlack | TurnBlack => TurnRed end.

Definition localMakeMove (from : MoveInfo) (s : GameStore)
    : GameStore * Completion :=
  match selectedGame s with
  | None => (s, Returned)
  | Some game =>
      let s1 := setPreviousState
                  (Some (mkPrevious (games s) (Some game))) s in
      match applyMove (parseBoardState (boardState game)) from with
      | TypeError => (s1, Threw)
      | Ok board =>
          let newBoardState := boardToString board in
          let newTurn := flipTurn (currentTurn game) in
          let updatedGame :=
            mkGame (id game) (redPlayer game) (blackPlayer game)
                   newBoardState newTurn (moveCount game + 1) (status game) in
          (setGames (map (fun g => if String.eqb (id g) (id game)
                                   then updatedGame else g) (games s))
                    (setSelectedGame (Some updatedGame) s1),
           Returned)
      end
  end.

Definition rollbackMove (s : GameStore) : GameStore :=
  match previousState s with
  | Some p =>
      mkStore (prev_games p) (prev_selectedGame p) (selectedGameId s)
              (isLoading s) (isMoving s) (error s) None
  | None => s
  end.

(* ================================================================== *)
(** ** Page effects (app/page.tsx) *)

(** [playerColor] of the page. *)
Definition pagePlayerColor (playerId : option string) (s : GameStore)
    : PlayerColor :=
  match selectedGame s, truthy playerId with
  | Some game, Some pid =>
      if optString_eqb (redPlayer game) pid then PRed
      else if optString_eqb (blackPlayer game) pid then PBlack
      else Spectator
  | _, _ => Spectator
  end.

(** [isMyTurn] of the page. *)
Definition pageIsMyTurn (playerId : option string) (s : GameStore) : bool :=
  match selectedGame s, truthy playerId with
  | Some game, Some pid =>
      let color :=
        if optString_eqb (redPlayer game) pid then PRed
        else if optString_eqb (blackPlayer game) pid then PBlack
        else Spectator in
      match color, currentTurn game with
      | PRed, TurnRed => true
      | PBlack, TurnBlack => true
      | _, _ => false
      end
  | _, _ => false
  end.

(** *** Timeout auto-handler *)

(** Cool-down of the re-entrancy flag, in milliseconds. *)
Definition cooldownMs : Z := 2000.

(** The page's [timeWinClaimInProgress] ref together with what is pending
    around it: mutation promises not yet settled and the reset timeouts
    already scheduled (by due time). *)
Record Arbiter : Type := mkArbiter
  { timeWinClaimInProgress : bool;
    arb_now : Z;
    arb_unsettled : nat;
    arb_timers : list Z }.

Definition idleArbiter (now : Z) : Arbiter := mkArbiter false now 0 [].

(** What one run of the effect sees. *)
Record Tick : Type := mkTick
  { tick_playerId : option string;
    tick_store : GameStore;
    tick_timeControl : bool;
    tick_redTimeMs : Z;
    tick_blackTimeMs : Z }.

(** The effect body: the arbiter afterwards and the mutations issued. *)
Definition timeoutEffect (t : Tick) (a : Arbiter) : Arbiter * list Mutation :=
  match selectedGame (tick_store t) with
  | None => (a, [])
  | Some game =>
      if negb (GameStatus_eqb (status game) Active) then (a, [])
      else if negb (tick_timeControl t) then (a, [])
      else
        let playerColor := pagePlayerColor (tick_playerId t) (tick_store t) in
        if PlayerColor_eqb playerColor Spectator then (a, [])
        else
          let opponentExpired :=
            if PlayerColor_eqb playerColor PRed
            then tick_blackTimeMs t <=? 0 else tick_redTimeMs t <=? 0 in
          let myTimeExpiredLocal :=
            if PlayerColor_eqb playerColor PRed
            then tick_redTimeMs t <=? 0 else tick_blackTimeMs t <=? 0 in
          if myTimeExpiredLocal && negb opponentExpired
             && negb (timeWinClaimInProgress a)
          then
            (mkArbiter true (arb_now a) (S (arb_unsettled a)) (arb_timers a),
             resign_sends (tick_playerId t) (tick_store t))
          else if opponentExpired && negb (timeWinClaimInProgress a)
          then
            (mkArbiter true (arb_now a) (S (arb_unsettled a)) (arb_timers a),
             claimTimeWin_sends (id game))
          else (a, [])
  end.

Inductive ArbiterEvent : Type :=
| EvTick (t : Tick)      (* the effect runs *)
| EvSettled              (* a mutation promise settles: [finally] runs *)
| EvElapse (ms : Z)      (* time passes *)
| EvTimeout.             (* a due reset timeout fires *)

Fixpoint removeFirstDue (now : Z) (timers : list Z) : option (list Z) :=
  match timers with
  | [] => None
  | due :: rest =>
      if due <=? now then Some rest
      else match removeFirstDue now rest with
           | Some rest' => Some (due :: rest')
           | None => None
           end
  end.

Definition arbiterStep (e : ArbiterEvent) (a : Arbiter)
    : Arbiter * list Mutation :=
  match e with
  | EvTick t => timeoutEffect t a
  | EvSettled =>
      match arb_unsettled a with
      | O => (a, [])
      | S n =>
          (mkArbiter (timeWinClaimInProgress a) (arb_now a) n
                     (arb_timers a ++ [arb_now a + cooldownMs]), [])
      end
  | EvElapse ms =>
      (mkArbiter (timeWinClaimInProgress a) (arb_now a + Z.max 0 ms)
                 (arb_unsettled a) (arb_timers a), [])
  | EvTimeout =>
      match removeFirstDue (arb_now a) (arb_timers a) with
      | Some rest =>
          (mkArbiter false (arb_now a) (arb_unsettled a) rest, [])
      | None => (a, [])
      end
  end.

Fixpoint arbiterRun (es : list ArbiterEvent) (a : Arbiter)
    : Arbiter * list Mutation :=
  match es with
  | [] => (a, [])
  | e :: rest =>
      let '(a1, out1) := arbiterStep e a in
      let '(a2, out2) := arbiterRun rest a1 in
      (a2, out1 ++ out2)
  end.

(** Total time the events let pass. *)
Fixpoint elapsed (es : list ArbiterEvent) : Z :=
  match es with
  | [] => 0
  | EvElapse ms :: rest => Z.max 0 ms + elapsed rest
  | _ :: rest => elapsed rest
  end.

(** *** Premove execution effect *)

Record PremovePage : Type := mkPremovePage
  { pg_premove : option MoveInfo;
    prevIsMyTurnForPremove : bool;
    pg_scheduled : nat }.

(** [handlePremove] on the page state. *)
Definition queuePremove (m : MoveInfo) (pg : PremovePage) : PremovePage :=
  mkPremovePage (Some m) (prevIsMyTurnForPremove pg) (pg_scheduled pg).

(** The effect that watches [isMyTurn]: on a flip to the local player with
    a premove pending in an active game it schedules the execution. *)
Definition premoveEffect (playerId : option string) (s : GameStore)
    (pg : PremovePage) : PremovePage :=
  let isMyTurn := pageIsMyTurn playerId s in
  let active :=
    match selectedGame s with
    | Some game => GameStatus_eqb (status game) Active
    | None => false
    end in
  let fire :=
    isMyTurn && negb (prevIsMyTurnForPremove pg)
    && (match pg_premove pg with Some _ => true | None => false end)
    && active in
  mkPremovePage (pg_premove pg) isMyTurn
                (if fire then S (pg_scheduled pg) else pg_scheduled pg).

(** The scheduled callback: the slot is emptied and the move handed to
    [makeMove]. *)
Definition premoveTimeout (playerId : option string) (env : MoveEnv)
    (s : GameStore) (pg : PremovePage) : PremovePage * option MoveResult :=
  match pg_scheduled pg with
  | O => (pg, None)
  | S n =>
      match pg_premove pg with
      | Some pm =>
          (mkPremovePage None (prevIsMyTurnForPremove pg) n,
           Some (makeMove playerId env pm s))
      | None => (mkPremovePage None (prevIsMyTurnForPremove pg) n, None)
      end
  end.

(** [isPieceSelectable] (types/game.ts). *)
Definition isPieceSelectable (piece : Value) (turn : Turn)
    (playerColor : PlayerColor) : bool :=
  if PlayerColor_eqb playerColor Spectator then false
  else
    let red := strictEq piece Red || strictEq piece RedKing in
    let black := strictEq piece Black || strictEq piece BlackKing in
    match turn, playerColor with
    | TurnRed, PRed => red
    | TurnBlack, PBlack => black
    | _, _ => false
    end.

(** The engine's opinion of a move, as the two clicks of
    [handleSquareClick] form it: the source holds a selectable piece and
    the destination is among its [calculateValidMoves]. *)
Definition isLegalMove (board : Board) (turn : Turn)
    (playerColor : PlayerColor) (m : MoveInfo) : Exc bool :=
  piece <- get board (fromRow m) (fromCol m) ;;
  if isPieceSelectable piece turn playerColor then
    moves <- calculateValidMoves board playerColor (fromRow m) (fromCol m) piece ;;
    Ok (existsb (fun sq => Square_eqb sq (mkSquare (toRow m) (toCol m))) moves)
  else Ok false.

(** *** Canonical form of a board string *)

(** What [boardToString] writes for a character [parseBoardState] has
    read: separators and piece letters stay, anything else becomes a dot. *)
Definition canonChar (ch : ascii) : ascii :=
  if Ascii.eqb ch slash then slash
  else match parseChar ch with
       | Red => "r"
       | Black => "b"
       | RedKing => "R"
       | BlackKing => "B"
       | Empty => "."
       end%char.

(** *** Decoded 8x8 boards and the specification of moves *)

(** A decoded 8x8 board: eight rows of eight pieces. *)
Definition is8x8 (board : Board) : bool :=
  (List.length board =? 8)%nat
  && forallb (fun row =>
                (List.length row =? 8)%nat
                && forallb (fun sl => match sl with
                                      | SPiece _ => true
                                      | _ => false
                                      end) row)
             board.

(** The piece of a square of a decoded board. *)
Definition pieceAt (board : Board) (r c : Z) : Piece :=
  match get board r c with
  | Ok (Some p) => p
  | _ => Empty
  end.

Definition pieceColor (p : Piece) : option PlayerColor :=
  match p with
  | Red | RedKing => Some PRed
  | Black | BlackKing => Some PBlack
  | Empty => None
  end.

(** [p] is a piece of the side [playerColor] plays. *)
Definition friendly (playerColor : PlayerColor) (p : Piece) : Prop :=
  pieceColor p = Some playerColor.

Definition enemyOf (p q : Piece) : Prop :=
  match pieceColor p, pieceColor q with
  | Some PRed, Some PBlack | Some PBlack, Some PRed => True
  | _, _ => False
  end.

(** The diagonal steps open to a piece: red men go down the board (row
    plus one), black men up, kings both ways. *)
Definition movesAlong (p : Piece) (dr dc : Z) : Prop :=
  (dc = 1 \/ dc = -1) /\
  match p with
  | Red => dr = 1
  | Black => dr = -1
  | RedKing | BlackKing => dr = 1 \/ dr = -1
  | Empty => False
  end.

Definition onBoard (sq : Square) : Prop :=
  0 <= sq_row sq <= 7 /\ 0 <= sq_col sq <= 7.

(** [sq] is a simple diagonal move of the piece [p] standing on
    [(row, col)]: an adjacent empty square. *)
Definition simpleMove (board : Board) (p : Piece) (row col : Z)
    (sq : Square) : Prop :=
  exists dr dc, movesAlong p dr dc
    /\ sq = mkSquare (row + dr) (col + dc)
    /\ onBoard sq
    /\ pieceAt board (row + dr) (col + dc) = Empty.

(** [sq] is a capture destination of the piece [p] standing on
    [(row, col)]: an empty square two steps away, behind an enemy piece. *)
Definition captureMove (board : Board) (p : Piece) (row col : Z)
    (sq : Square) : Prop :=
  exists dr dc, movesAlong p dr dc
    /\ sq = mkSquare (row + 2 * dr) (col + 2 * dc)
    /\ onBoard sq
    /\ pieceAt board (row + 2 * dr) (col + 2 * dc) = Empty
    /\ enemyOf p (pieceAt board (row + dr) (col + dc)).

(** Some piece of the side [playerColor] has a capture. *)
Definition friendlyCaptureExists (board : Board)
    (playerColor : PlayerColor) : Prop :=
  exists r c sq, onBoard (mkSquare r c)
    /\ friendly playerColor (pieceAt board r c)
    /\ captureMove board (pieceAt board r c) r c sq.

(** Boolean forms of the two per-direction tests on a decoded board. *)
Definition simpleOk (board : Board) (row col : Z) (d : Z * Z) : bool :=
  inBoard (row + fst d) (col + snd d)
  && Piece_eqb (pieceAt board (row + fst d) (col + snd d)) Empty.

Definition captureOk (board : Board) (red : bool) (row col : Z)
    (d : Z * Z) : bool :=
  inBoard (row + 2 * fst d) (col + 2 * snd d)
  && Piece_eqb (pieceAt board (row + 2 * fst d) (col + 2 * snd d)) Empty
  && isEnemy red (Some (pieceAt board (row + fst d) (col + snd d))).

Definition pieceDirections (p : Piece) : list (Z * Z) :=
  directions (isKing (Some p)) (isRed (Some p)).

Definition simpleList (board : Board) (p : Piece) (row col : Z) : list Square :=
  map (stepTo row col 1) (filter (simpleOk board row col) (pieceDirections p)).

Definition captureList (board : Board) (p : Piece) (row col : Z) : list Square :=
  map (stepTo row col 2)
      (filter (captureOk board (isRed (Some p)) row col) (pieceDirections p)).

Definition squareCaptureOk (board : Board) (playerColor : PlayerColor)
    (row col : Z) : bool :=
  let p := pieceAt board row col in
  negb (Piece_eqb p Empty)
  && Bool.eqb (isPlayerRed playerColor) (isRed (Some p))
  && existsb (captureOk board (isRed (Some p)) row col) (pieceDirections p).

Definition anyCaptureOk (board : Board) (playerColor : PlayerColor) : bool :=
  existsb (fun row => existsb (fun col => squareCaptureOk board playerColor row col)
                              range8)
          range8.

Definition unitDir (d : Z * Z) : Prop :=
  (fst d = 1 \/ fst d = -1) /\ (snd d = 1 \/ snd d = -1).

(** The mandatory-capture policy for the piece [p] standing on
    [(row, col)] of [board], for the side [playerColor]:
    the call returns a list; a piece with a capture gets exactly its
    capture destinations and no simple move; a piece without one is frozen
    while another friendly piece can capture; simple moves are returned
    exactly when no friendly piece can capture; and the global scan
    [hasAnyCaptureAvailable] answers whether a friendly capture exists. *)
Definition mandatoryCapturePolicy (board : Board) (playerColor : PlayerColor)
    (row col : Z) (p : Piece) : Prop :=
  exists moves any,
    calculateValidMoves board playerColor row col (Some p) = Ok moves
    /\ hasAnyCaptureAvailable board playerColor = Ok any
    /\ (any = true <-> friendlyCaptureExists board playerColor)
    /\ ((exists sq, captureMove board p row col sq) ->
        (forall sq, In sq moves <-> captureMove board p row col sq)
        /\ (forall sq, In sq moves -> ~ simpleMove board p row col sq))
    /\ (~ (exists sq, captureMove board p row col sq) ->
        any = true -> moves = [])
    /\ (any = false ->
        forall sq, In sq moves <-> simpleMove board p row col sq)
    /\ ((exists sq, In sq moves /\ simpleMove board p row col sq) ->
        any = false).

(** What a premove click on [(row, col)] does: the square becomes the
    premove source only if it holds a piece of the player's side, and then
    the offered destinations are the simple moves together with the
    captures of that piece. *)
Definition premoveStaging (board : Board) (playerColor : PlayerColor)
    (row col : Z) (ui : PremoveUi) : Prop :=
  exists ui',
    handlePremoveClick board playerColor row col ui = Ok ui'
    /\ (isPieceOwnedByPlayer playerColor (Some (pieceAt board row col)) = true
        <-> friendly playerColor (pieceAt board row col))
    /\ (forall sq, premoveFrom ui' = Some sq ->
        sq = mkSquare row col /\ friendly playerColor (pieceAt board row col))
    /\ (friendly playerColor (pieceAt board row col) ->
        premoveFrom ui' = Some (mkSquare row col)
        /\ forall sq, In sq (premoveValidMoves ui')
             <-> simpleMove board (pieceAt board row col) row col sq
                 \/ captureMove board (pieceAt board row col) row col sq).

(** A position where red must capture: the red men on (2,1) and (2,3)
    can both jump the black man on (3,2). *)
Definition captureBoard : Board :=
  parseBoardState
    ".r.r.r.r/r.r.r.r./.r.r.r.r/..b...../......../b.b.b.b./.b.b.b.b/b.b.b.b."%string.

(** *** Sample games and stores *)

(** A snapshot of game ["g1"] with the given [moveCount]. *)
Definition snapshot (n : Z) : CheckersGame :=
  mkGame "g1" (Some "alice"%string) (Some "bob"%string) initialDotted
         TurnRed n Active.

(** The store with game ["g1"] selected and [snapshot n] cached. *)
Definition storeAt (n : Z) : GameStore :=
  mkStore [snapshot n] (Some (snapshot n)) (Some "g1"%string)
          false false None None.

(** Snapshots arriving through [fetchGame], in the order given. *)
Definition arriveByFetchGame (counts : list Z) (s : GameStore) : GameStore :=
  fold_left (fun st n => fetchGame "g1" (Data (snapshot n)) (fun x => x) st)
            counts s.

(** Snapshots arriving through [fetchGames], in the order given. *)
Definition arriveByFetchGames (counts : list Z) (s : GameStore) : GameStore :=
  fold_left (fun st n =>
               fetchGames_resolve (Data [snapshot n]) (fetchGames_start st))
            counts s.

Definition selectedMoveCount (s : GameStore) : option Z :=
  option_map moveCount (selectedGame s).

(** A store reached through the store's own operations: an optimistic
    move on the selected game (never rolled back), after which the game is
    deselected. *)
Definition deselectedAfterMove : GameStore :=
  selectGame_null (fst (localMakeMove (mkMove 2 0 3 1) (storeAt 0))).

(** What the optimistic transform leaves on the destination square of a
    move of the piece [piece]. *)
Definition promotionOutcome (piece : Piece) (toRow : Z) (landed : Piece) : Prop :=
  landed = match promoted (Some piece) toRow with
           | Some q => q
           | None => Empty
           end
  /\ (piece = Red -> toRow = 7 -> landed = RedKing)
  /\ (piece = Black -> toRow = 0 -> landed = BlackKing)
  /\ (piece = RedKing -> landed = RedKing)
  /\ (piece = BlackKing -> landed = BlackKing)
  /\ (piece = Red -> toRow <> 7 -> landed = Red)
  /\ (piece = Black -> toRow <> 0 -> landed = Black).

(** The optimistic move goes through and the destination square of the
    new board string holds the moved piece, promoted by [promoted]. *)
Definition promotesOnArrival (s : GameStore) (from : MoveInfo)
    (piece : Piece) : Prop :=
  exists s' game' landed,
    localMakeMove from s = (s', Returned)
    /\ selectedGame s' = Some game'
    /\ getPiece (boardState game') (toRow from) (toCol from) = Ok (Some landed)
    /\ promotionOutcome piece (toRow from) landed.

(** A red man one step from the back rank, and one that can jump onto
    it. *)
Definition promotionStore : GameStore :=
  mkStore []
    (Some (mkGame "g1" (Some "alice"%string) (Some "bob"%string)
        "......../......../......../......../......../...r..../.r..b.../........"%string
        TurnRed 40 Active))
    (Some "g1"%string) false false None None.

(** The same selected game, rows, turn and count apart. *)
Definition sameSnapshot (a b : option CheckersGame) : Prop :=
  a = b
  /\ option_map boardState a = option_map boardState b
  /\ option_map currentTurn a = option_map currentTurn b
  /\ option_map moveCount a = option_map moveCount b.

(** After the rollback the store is the one before the optimistic move
    (the snapshot slot is emptied). *)
Definition restoredBy (s s' : GameStore) : Prop :=
  games s' = games s
  /\ sameSnapshot (selectedGame s') (selectedGame s)
  /\ selectedGameId s' = selectedGameId s
  /\ isLoading s' = isLoading s
  /\ isMoving s' = isMoving s
  /\ error s' = error s
  /\ previousState s' = None.

(** A confirmation fetch during which nothing else touches the store. *)
Definition quietAttempt (resp : Response CheckersGame) : Attempt :=
  mkAttempt resp (fun s => s) (fun s => s).

Definition noSlash (s : string) : Prop :=
  allChars (fun ch => negb (Ascii.eqb ch slash)) s = true.

Definition pieceRow (row : Row) : bool :=
  forallb (fun sl => match sl with SPiece _ => true | _ => false end) row.

(** *** Timeout arbiter: specification *)

(** The local player's clock has run out and the opponent's has not. *)
Definition localClockExpired (t : Tick) : Prop :=
  match pagePlayerColor (tick_playerId t) (tick_store t) with
  | PRed => tick_redTimeMs t <= 0 /\ 0 < tick_blackTimeMs t
  | PBlack => tick_blackTimeMs t <= 0 /\ 0 < tick_redTimeMs t
  | Spectator => False
  end.

(** The arbiter's bookkeeping is consistent: while the flag is down
    nothing is pending, while it is up exactly one promise or one reset
    timeout is. *)
Definition arbiterConsistent (a : Arbiter) : Prop :=
  if timeWinClaimInProgress a
  then (arb_unsettled a + List.length (arb_timers a) = 1)%nat
  else arb_unsettled a = 0%nat /\ arb_timers a = [].

(** One mutation at most leaves a tick: a resign or a claim, never both. *)
Definition armsExclusive : Prop :=
  forall t a,
    snd (timeoutEffect t a) = []
    \/ (exists gid pid, snd (timeoutEffect t a) = [ResignMutation gid pid])
    \/ (exists gid, snd (timeoutEffect t a) = [ClaimTimeWinMutation gid]).

(** Red (alice) has no time left, black has five seconds. *)
Definition redFlagged : Tick :=
  mkTick (Some "alice"%string) (storeAt 12) true 0 5000.

(** *** Premove execution: sample data *)

(** Red to move on [captureBoard]; alice plays red. *)
Definition premoveStore : GameStore :=
  mkStore []
    (Some (mkGame "g1" (Some "alice"%string) (Some "bob"%string)
       ".r.r.r.r/r.r.r.r./.r.r.r.r/..b...../......../b.b.b.b./.b.b.b.b/b.b.b.b."%string
       TurnRed 7 Active))
    (Some "g1"%string) false false None None.

(** An environment in which the service accepts the mutation and nothing
    else touches the store. *)
Definition acceptingEnv : MoveEnv :=
  mkMoveEnv None (fun s => s) (fun s => s) (fun _ => quietAttempt NoData).

(** An environment in which the mutation is rejected. *)
Definition rejectingEnv : MoveEnv :=
  mkMoveEnv (Some "Invalid move"%string) (fun s => s) (fun s => s)
            (fun _ => quietAttempt NoData).

(** The life of a premove: [b] is queued over [a]; the effect sees the
    turn flip on the store [s]; the scheduled callback runs on the store
    [s']. *)
Definition premoveLifecycle (playerId : option string) (env : MoveEnv)
    (s s' : GameStore) (pg : PremovePage) (a b : MoveInfo) : Prop :=
  let queued := queuePremove b (queuePremove a pg) in
  let flipped := premoveEffect playerId s queued in
  let fired := premoveTimeout playerId env s' flipped in
  pg_premove queued = Some b
  /\ pg_scheduled flipped = S (pg_scheduled pg)
  /\ pg_premove (fst fired) = None
  /\ snd fired = Some (makeMove playerId env b s')
  /\ (res_success (makeMove playerId env b s') = false ->
      selectedGame (res_store (makeMove playerId env b s')) = selectedGame s').


(* ================================================================== *)
(** ** Further code of types/game.ts: time controls and ratings *)

Inductive TimeControl : Type :=
  Bullet1m | Bullet2m | Blitz3m | Blitz5m | Rapid10m.

Inductive TimeControlCategory : Type := Bullet | Blitz | Rapid.

Record TimeControlMetadata : Type := mkMetadata
  { tc_label : string;
    tc_minutes : Z;
    tc_increment : Z;
    tc_category : TimeControlCategory }.

Definition TIME_CONTROLS (timeControl : TimeControl) : TimeControlMetadata :=
  match timeControl with
  | Bullet1m => mkMetadata "1+0" 1 0 Bullet
  | Bullet2m => mkMetadata "2+1" 2 1 Bullet
  | Blitz3m => mkMetadata "3+0" 3 0 Blitz
  | Blitz5m => mkMetadata "5+3" 5 3 Blitz
  | Rapid10m => mkMetadata "10+0" 10 0 Rapid
  end.

Inductive RatingTier : Type :=
  Beginner | Intermediate | Advanced | Expert | Master.

Definition getRatingTier (rating : Z) : RatingTier :=
  if rating <? 1000 then Beginner
  else if rating <? 1400 then Intermediate
  else if rating <? 1800 then Advanced
  else if rating <? 2200 then Expert
  else Master.

Definition getTimeControlRatingCategory (timeControl : TimeControl)
    : TimeControlCategory :=
  match timeControl with
  | Bullet1m | Bullet2m => Bullet
  | Blitz3m | Blitz5m => Blitz
  | Rapid10m => Rapid
  end.

(** The fields of [PlayerStats] the rating helpers read. *)
Record PlayerStats : Type := mkStats
  { bulletRating : Z;
    blitzRating : Z;
    rapidRating : Z;
    bulletGames : Z;
    blitzGames : Z;
    rapidGames : Z }.

(** [x || d] on integers: zero is falsy. *)
Definition orElse (x d : Z) : Z := if x =? 0 then d else x.

Definition getPlayerRating (stats : option PlayerStats)
    (timeControl : option TimeControl) : Z :=
  match stats with
  | None => 1200
  | Some st =>
      match timeControl with
      | None => orElse (blitzRating st) 1200
      | Some tc =>
          match getTimeControlRatingCategory tc with
          | Bullet => orElse (bulletRating st) 1200
          | Blitz => orElse (blitzRating st) 1200
          | Rapid => orElse (rapidRating st) 1200
          end
      end
  end.

(* ================================================================== *)
(** ** Further code of CheckersBoard.tsx: highlighting, clicks, drags *)

(** What the component receives from the page. *)
Record BoardProps : Type := mkBoardProps
  { bp_board : Board;
    bp_currentTurn : Turn;
    bp_playerColor : PlayerColor;
    bp_isMyTurn : bool;
    bp_disabled : bool }.

(** A number inside a template string. *)
Definition numberToString (z : Z) : string :=
  NilZero.string_of_int (Z.to_int z).

(** The key [`${row}-${col}`]. *)
Definition squareKey (row col : Z) : string :=
  (numberToString row ++ "-" ++ numberToString col)%string.

(** [set.add(key)] on a [Set<string>] kept in insertion order. *)
Definition setAdd (key : string) (set : list string) : list string :=
  if existsb (String.eqb key) set then set else set ++ [key].

(** [set.has(key)]. *)
Definition setHas (key : string) (set : list string) : bool :=
  existsb (String.eqb key) set.

(** A loop over a list threading an accumulator through a body that may
    throw. *)
Fixpoint foldM {A S} (f : S -> A -> Exc S) (l : list A) (acc : S) : Exc S :=
  match l with
  | [] => Ok acc
  | x :: rest => acc' <- f acc x ;; foldM f rest acc'
  end.

(** Body of the nested loops of [getPiecesWithCaptures] for one square:
    the key is added at the first direction that captures. *)
Definition addPieceWithCapture (board : Board) (playerColor : PlayerColor)
    (row : Z) (piecesWithCaptures : list string) (col : Z)
    : Exc (list string) :=
  piece <- get board row col ;;
  if strictEq piece Empty then Ok piecesWithCaptures
  else
    let isPieceRed := isRed piece in
    if negb (Bool.eqb (isPlayerRed playerColor) isPieceRed)
    then Ok piecesWithCaptures
    else
      let dirs := directions (isKing piece) isPieceRed in
      found <- anyM (captureTest board isPieceRed row col) dirs ;;
      Ok (if found then setAdd (squareKey row col) piecesWithCaptures
          else piecesWithCaptures).

Definition getPiecesWithCaptures (props : BoardProps) : Exc (list string) :=
  if negb (bp_isMyTurn props) || bp_disabled props then Ok []
  else
    foldM (fun acc row =>
             foldM (addPieceWithCapture (bp_board props)
                      (bp_playerColor props) row) range8 acc)
          range8 [].

(** [isForcedCapturePiece] of [renderSquare]. *)
Definition isForcedCapturePiece (props : BoardProps) (row col : Z) : Exc bool :=
  set <- getPiecesWithCaptures props ;;
  Ok (setHas (squareKey row col) set).

(** The selection state of the component on the player's turn. *)
Record BoardUi : Type := mkBoardUi
  { selectedSquare : option Square;
    validMoves : list Square }.

(** The arguments of an [onMove] call. *)
Record MoveEvent : Type := mkMoveEvent
  { ev_move : MoveInfo;
    ev_isCapture : bool }.

(** [handleSquareClick]: the state afterwards and the [onMove] call made,
    if any.  The page passes [onMove], [onPremove] and [onCancelPremove];
    sounds and animations are left out. *)
Definition handleSquareClick (props : BoardProps) (row col : Z)
    (ui : BoardUi) (pui : PremoveUi)
    : Exc (BoardUi * PremoveUi * option MoveEvent) :=
  if bp_disabled props then Ok (ui, pui, None)
  else if negb (bp_isMyTurn props)
          && negb (PlayerColor_eqb (bp_playerColor props) Spectator)
  then
    pui' <- handlePremoveClick (bp_board props) (bp_playerColor props)
                               row col pui ;;
    Ok (ui, pui', None)
  else
    piece <- get (bp_board props) row col ;;
    if isPieceSelectable piece (bp_currentTurn props) (bp_playerColor props)
    then
      moves <- calculateValidMoves (bp_board props) (bp_playerColor props)
                                   row col piece ;;
      Ok (mkBoardUi (Some (mkSquare row col)) moves, pui, None)
    else
      match selectedSquare ui with
      | Some sel =>
          let isValidMove :=
            existsb (fun m => (sq_row m =? row) && (sq_col m =? col))
                    (validMoves ui) in
          if isValidMove then
            let isCapture := Z.abs (row - sq_row sel) =? 2 in
            movingPiece <- get (bp_board props) (sq_row sel) (sq_col sel) ;;
            Ok (mkBoardUi None [], pui,
                Some (mkMoveEvent (mkMove (sq_row sel) (sq_col sel) row col)
                                  isCapture))
          else Ok (mkBoardUi None [], pui, None)
      | None => Ok (ui, pui, None)
      end.

(** The drag state of the component. *)
Record DragUi : Type := mkDragUi
  { draggedPiece : option Square;
    dragValidMoves : list Square }.

Record BoardState : Type := mkBoardState
  { st_select : BoardUi;
    st_premove : PremoveUi;
    st_drag : DragUi }.

(** [handleDragStart]: the state afterwards and whether the drag was
    refused ([e.preventDefault()]). *)
Definition handleDragStart (props : BoardProps) (row col : Z)
    (st : BoardState) : Exc (BoardState * bool) :=
  if bp_disabled props then Ok (st, false)
  else
    piece <- get (bp_board props) row col ;;
    if bp_isMyTurn props then
      if negb (isPieceSelectable piece (bp_currentTurn props)
                                 (bp_playerColor props))
      then Ok (st, true)
      else
        moves <- calculateValidMoves (bp_board props) (bp_playerColor props)
                                     row col piece ;;
        Ok (mkBoardState (mkBoardUi None []) (st_premove st)
                         (mkDragUi (Some (mkSquare row col)) moves), false)
    else if negb (PlayerColor_eqb (bp_playerColor props) Spectator) then
      if negb (isPieceOwnedByPlayer (bp_playerColor props) piece)
      then Ok (st, true)
      else
        moves <- calculatePremoveValidMoves (bp_board props) row col piece ;;
        Ok (mkBoardState (st_select st)
              (handleCancelPremove
                 (mkPremoveUi None [] (premove (st_premove st))))
              (mkDragUi (Some (mkSquare row col)) moves), false)
    else Ok (st, true).

(** [handleDrop]: the state afterwards and the [onMove] call made, if
    any; a premove drop goes to the page's premove slot. *)
Definition handleDrop (props : BoardProps) (row col : Z) (st : BoardState)
    : Exc (BoardState * option MoveEvent) :=
  match draggedPiece (st_drag st) with
  | None => Ok (st, None)
  | Some dragged =>
      let isValid :=
        existsb (fun m => (sq_row m =? row) && (sq_col m =? col))
                (dragValidMoves (st_drag st)) in
      if negb (bp_isMyTurn props)
         && negb (PlayerColor_eqb (bp_playerColor props) Spectator)
      then
        let pui :=
          if isValid
          then handlePremove (mkMove (sq_row dragged) (sq_col dragged) row col)
                             (st_premove st)
          else st_premove st in
        Ok (mkBoardState (st_select st) pui (mkDragUi None []), None)
      else if isValid then
        let isCapture := Z.abs (row - sq_row dragged) =? 2 in
        movingPiece <- get (bp_board props) (sq_row dragged) (sq_col dragged) ;;
        Ok (mkBoardState (st_select st) (st_premove st) (mkDragUi None []),
            Some (mkMoveEvent
                    (mkMove (sq_row dragged) (sq_col dragged) row col)
                    isCapture))
      else
        Ok (mkBoardState (st_select st) (st_premove st) (mkDragUi None []),
            None)
  end.

(* ================================================================== *)
(** ** Further code of store/game.ts *)

(** *** fetchPendingGames, fetchActiveGames: what the resolved query
    does to the store *)

Definition fetchPendingGames_resolve (resp : Response (list CheckersGame))
    (s : GameStore) : GameStore :=
  match resp with
  | Failed _ => s
  | _ =>
      let pending := match resp with Data l => l | _ => [] end in
      let nonPending :=
        filter (fun g => negb (GameStatus_eqb (status g) Pending)) (games s) in
      setGames (nonPending ++ pending) s
  end.

Definition fetchActiveGames_resolve (resp : Response (list CheckersGame))
    (s : GameStore) : GameStore :=
  match resp with
  | Failed _ => s
  | _ =>
      let active := match resp with Data l => l | _ => [] end in
      let nonActive :=
        filter (fun g => negb (GameStatus_eqb (status g) Active)) (games s) in
      setGames (nonActive ++ active) s
  end.

(** *** getPlayerColor and isMyTurn of the store *)

Definition getPlayerColor (playerId : option string) (s : GameStore)
    : PlayerColor :=
  match selectedGame s, truthy playerId with
  | Some game, Some pid =>
      if optString_eqb (redPlayer game) pid then PRed
      else if optString_eqb (blackPlayer game) pid then PBlack
      else Spectator
  | _, _ => Spectator
  end.

Definition isMyTurn (playerId : option string) (s : GameStore) : bool :=
  match selectedGame s with
  | None => false
  | Some game =>
      let color := getPlayerColor playerId s in
      if PlayerColor_eqb color Spectator then false
      else if PlayerColor_eqb color PRed
              && match currentTurn game with TurnRed => true | _ => false end
      then true
      else if PlayerColor_eqb color PBlack
              && match currentTurn game with TurnBlack => true | _ => false end
      then true
      else false
  end.

(** *** requestAiMove *)

(** The part of [requestAiMove] before the mutation is awaited; [None]
    when the call returns at once. *)
Definition requestAiMove_start (s : GameStore) : option GameStore :=
  match truthy (selectedGameId s) with
  | None => None
  | Some _ => Some (setError None (setIsMoving true s))
  end.

(** A whole [requestAiMove] call: the value returned and the store. *)
Definition requestAiMove (send : option string)
    (resp : Response CheckersGame)
    (duringSend duringFetch : GameStore -> GameStore) (s : GameStore)
    : bool * GameStore :=
  match truthy (selectedGameId s) with
  | None => (false, setError (Some "No game selected"%string) s)
  | Some gid =>
      let s1 := setError None (setIsMoving true s) in
      match send with
      | Some message =>
          (false, setIsMoving false (setError (Some message) (duringSend s1)))
      | None =>
          let s2 := fetchGame gid resp duringFetch (duringSend s1) in
          (true, setIsMoving false s2)
      end
  end.

(** *** The local timer of the store *)

(** The timer fields of the store, with the intervals that are running
    (by handle) and the next handle [setInterval] will give. *)
Record TimerState : Type := mkTimer
  { localRedTimeMs : Z;
    localBlackTimeMs : Z;
    timerIntervalId : option nat;
    running : list nat;
    nextHandle : nat }.

Definition clearInterval (h : nat) (running : list nat) : list nat :=
  filter (fun x => negb (Nat.eqb x h)) running.

Definition stopLocalTimer (t : TimerState) : TimerState :=
  match timerIntervalId t with
  | Some h =>
      mkTimer (localRedTimeMs t) (localBlackTimeMs t) None
              (clearInterval h (running t)) (nextHandle t)
  | None => t
  end.

Definition startLocalTimer (selected : option CheckersGame) (t : TimerState)
    : TimerState :=
  let running1 :=
    match timerIntervalId t with
    | Some h => clearInterval h (running t)
    | None => running t
    end in
  let inactive :=
    match selected with
    | Some game => negb (GameStatus_eqb (status game) Active)
    | None => true
    end in
  if inactive
  then mkTimer (localRedTimeMs t) (localBlackTimeMs t) (timerIntervalId t)
               running1 (nextHandle t)
  else mkTimer (localRedTimeMs t) (localBlackTimeMs t) (Some (nextHandle t))
               (running1 ++ [nextHandle t]) (S (nextHandle t)).

(** The interval callback. *)
Definition timerTick (currentGame : option CheckersGame) (t : TimerState)
    : TimerState :=
  match currentGame with
  | None => stopLocalTimer t
  | Some game =>
      if negb (GameStatus_eqb (status game) Active) then stopLocalTimer t
      else
        match currentTurn game with
        | TurnRed =>
            mkTimer (Z.max 0 (localRedTimeMs t - 100)) (localBlackTimeMs t)
                    (timerIntervalId t) (running t) (nextHandle t)
        | TurnBlack =>
            mkTimer (localRedTimeMs t) (Z.max 0 (localBlackTimeMs t - 100))
                    (timerIntervalId t) (running t) (nextHandle t)
        end
  end.

Inductive TimerOp : Type :=
| OpStart (selected : option CheckersGame)
| OpStop
| OpTick (currentGame : option CheckersGame).

Definition timerStep (t : TimerState) (op : TimerOp) : TimerState :=
  match op with
  | OpStart selected => startLocalTimer selected t
  | OpStop => stopLocalTimer t
  | OpTick currentGame => timerTick currentGame t
  end.

Definition initialTimer : TimerState := mkTimer 0 0 None [] 1.

(** *** Matchmaking queue *)

Record QueueState : Type := mkQueue
  { inQueue : bool;
    queueTimeControl : option TimeControl;
    queueJoinedAt : option Z }.

Definition initialQueue : QueueState := mkQueue false None None.

(** [joinQueue] once the mutation has resolved: [matched] is the game id
    it returned, if any, [now] is [Date.now()]. *)
Definition joinQueue_resolve (playerId : option string)
    (timeControl : TimeControl) (resp : Response (option string)) (now : Z)
    (q : QueueState) : QueueState * option string :=
  match truthy playerId with
  | None => (q, None)
  | Some _ =>
      match resp with
      | Failed _ => (q, None)
      | Data matched =>
          match truthy matched with
          | Some gameId => (mkQueue false None None, Some gameId)
          | None => (mkQueue true (Some timeControl) (Some now), None)
          end
      | NoData => (mkQueue true (Some timeControl) (Some now), None)
      end
  end.

(** [leaveQueue] once the mutation has resolved ([failed] when it threw). *)
Definition leaveQueue_resolve (playerId : option string) (failed : bool)
    (q : QueueState) : QueueState * bool :=
  match truthy playerId with
  | None => (q, false)
  | Some _ =>
      if failed then (q, false) else (mkQueue false None None, true)
  end.

Inductive QueueOp : Type :=
| OpJoin (playerId : option string) (timeControl : TimeControl)
         (resp : Response (option string)) (now : Z)
| OpLeave (playerId : option string) (failed : bool).

Definition queueStep (q : QueueState) (op : QueueOp) : QueueState :=
  match op with
  | OpJoin playerId timeControl resp now =>
      fst (joinQueue_resolve playerId timeControl resp now q)
  | OpLeave playerId failed => fst (leaveQueue_resolve playerId failed q)
  end.

(** *** Operations on the selection *)

Inductive StoreOp : Type :=
| OpFetchGames (resp : Response (list CheckersGame))
| OpFetchGame (gid : string) (resp : Response CheckersGame)
| OpFetchPending (resp : Response (list CheckersGame))
| OpFetchActive (resp : Response (list CheckersGame))
| OpSelect (gid : string)
| OpDeselect
| OpLocalMove (from : MoveInfo).

Definition storeStep (s : GameStore) (op : StoreOp) : GameStore :=
  match op with
  | OpFetchGames resp => fetchGames_resolve resp (fetchGames_start s)
  | OpFetchGame gid resp => fetchGame gid resp (fun x => x) s
  | OpFetchPending resp => fetchPendingGames_resolve resp s
  | OpFetchActive resp => fetchActiveGames_resolve resp s
  | OpSelect gid => selectGame gid s
  | OpDeselect => selectGame_null s
  | OpLocalMove from => fst (localMakeMove from s)
  end.

(** The service answers a query for a game with that game. *)
Definition wellAddressed (op : StoreOp) : Prop :=
  match op with
  | OpFetchGame gid (Data game) => id game = gid
  | _ => True
  end.

(** The selected game is the one [selectedGameId] names. *)
Definition selectionConsistent (s : GameStore) : Prop :=
  match selectedGame s with
  | Some game => selectedGameId s = Some (id game)
  | None => True
  end.

(* ================================================================== *)
(** ** Further effects of app/page.tsx *)

(** *** The page clock *)

Record PageClock : Type := mkPageClock
  { redTimeMs : Z;
    blackTimeMs : Z }.

Definition initialPageClock : PageClock := mkPageClock 300000 300000.

(** "Initialize timer based on selected time control". *)
Definition initTimerEffect (selected : option CheckersGame)
    (selectedTimeControl : option TimeControl) (c : PageClock) : PageClock :=
  match selected, selectedTimeControl with
  | Some _, Some tc =>
      let initialTimeMs := tc_minutes (TIME_CONTROLS tc) * 60 * 1000 in
      mkPageClock initialTimeMs initialTimeMs
  | _, _ => c
  end.

(** The clock values of a snapshot as they arrive; [None] for a field
    that is not a number. *)
Record ClockData : Type := mkClockData
  { clock_redTimeMs : option Z;
    clock_blackTimeMs : option Z }.

(** "Sync timer from backend game clock". *)
Definition syncTimerEffect (selected : option CheckersGame)
    (clock : option ClockData) (c : PageClock) : PageClock :=
  match selected, clock with
  | Some _, Some k =>
      let red :=
        match clock_redTimeMs k with
        | Some v => if 0 <=? v then v else redTimeMs c
        | None => redTimeMs c
        end in
      let black :=
        match clock_blackTimeMs k with
        | Some v => if 0 <=? v then v else blackTimeMs c
        | None => blackTimeMs c
        end in
      mkPageClock red black
  | _, _ => c
  end.

(** One firing of the countdown interval, set up while the game is
    active; [turn] is the turn of the game the effect saw. *)
Definition countdownTick (turn : Turn) (c : PageClock) : PageClock :=
  match turn with
  | TurnRed => mkPageClock (Z.max 0 (redTimeMs c - 100)) (blackTimeMs c)
  | TurnBlack => mkPageClock (redTimeMs c) (Z.max 0 (blackTimeMs c - 100))
  end.

Inductive ClockOp : Type :=
| OpInit (selected : option CheckersGame) (tc : option TimeControl)
| OpSync (selected : option CheckersGame) (clock : option ClockData)
| OpCountdown (turn : Turn).

Definition clockStep (c : PageClock) (op : ClockOp) : PageClock :=
  match op with
  | OpInit selected tc => initTimerEffect selected tc c
  | OpSync selected clock => syncTimerEffect selected clock c
  | OpCountdown turn => countdownTick turn c
  end.

(** *** myTimeExpired, the board's disabled flag, the safety reset *)

Definition myTimeExpired (selectedTimeControl : bool)
    (playerColor : PlayerColor) (c : PageClock) : bool :=
  if negb selectedTimeControl then false
  else if PlayerColor_eqb playerColor Spectator then false
  else
    let myTime :=
      if PlayerColor_eqb playerColor PRed then redTimeMs c else blackTimeMs c in
    myTime <=? 0.

(** [disabled] as the page passes it to the board. *)
Definition boardDisabled (game : CheckersGame) (moving : bool)
    (expired : bool) : bool :=
  negb (GameStatus_eqb (status game) Active) || moving || expired.

(** "Safety reset for isMoving". *)
Definition safetyResetEffect (playerId : option string) (s : GameStore)
    : GameStore :=
  if pageIsMyTurn playerId s && isMoving s then setIsMoving false s else s.

(** "Clear premove when game ends or changes". *)
Definition clearPremoveEffect (s : GameStore) (pg : PremovePage) : PremovePage :=
  let inactive :=
    match selectedGame s with
    | Some game => negb (GameStatus_eqb (status game) Active)
    | None => true
    end in
  if inactive
  then mkPremovePage None (prevIsMyTurnForPremove pg) (pg_scheduled pg)
  else pg.

(* ================================================================== *)
(** ** Specification vocabulary for the further properties *)

(** The tiers in rising order. *)
Definition tierRank (t : RatingTier) : Z :=
  match t with
  | Beginner => 0
  | Intermediate => 1
  | Advanced => 2
  | Expert => 3
  | Master => 4
  end.

(** The stored rating of a category. *)
Definition ratingOf (c : TimeControlCategory) (st : PlayerStats) : Z :=
  match c with
  | Bullet => bulletRating st
  | Blitz => blitzRating st
  | Rapid => rapidRating st
  end.


(** Index in the joined string of the first character of row [r]. *)
Fixpoint rowOffset (rows : list string) (r : nat) : nat :=
  match r, rows with
  | S r', x :: rest => (String.length x + 1 + rowOffset rest r')%nat
  | _, _ => 0%nat
  end.

(** *** Board component: what a click or a drop may emit *)

(** The side whose turn it is. *)
Definition turnColor (t : Turn) : PlayerColor :=
  match t with TurnRed => PRed | TurnBlack => PBlack end.

(** [to] is a destination the mandatory-capture rule allows to the piece
    on [from]: a capture, or a simple move when no friendly piece can
    capture. *)
Definition legalDestination (board : Board) (playerColor : PlayerColor)
    (m : MoveInfo) : Prop :=
  let p := pieceAt board (fromRow m) (fromCol m) in
  let to := mkSquare (toRow m) (toCol m) in
  friendly playerColor p
  /\ (captureMove board p (fromRow m) (fromCol m) to
      \/ (simpleMove board p (fromRow m) (fromCol m) to
          /\ ~ friendlyCaptureExists board playerColor)).

(** An [onMove] call is legal: the mover is the side to move, the
    destination is allowed, and the capture flag is set exactly for a
    capture. *)
Definition legalEvent (props : BoardProps) (e : MoveEvent) : Prop :=
  let m := ev_move e in
  turnColor (bp_currentTurn props) = bp_playerColor props
  /\ legalDestination (bp_board props) (bp_playerColor props) m
  /\ (ev_isCapture e = true
      <-> captureMove (bp_board props)
            (pieceAt (bp_board props) (fromRow m) (fromCol m))
            (fromRow m) (fromCol m) (mkSquare (toRow m) (toCol m))).

(** A premove as the board stages it: from a piece of the player to one
    of its simple moves or captures on the board of the moment. *)
Definition stagedPremove (board : Board) (playerColor : PlayerColor)
    (m : MoveInfo) : Prop :=
  let p := pieceAt board (fromRow m) (fromCol m) in
  let to := mkSquare (toRow m) (toCol m) in
  onBoard (mkSquare (fromRow m) (fromCol m))
  /\ friendly playerColor p
  /\ (simpleMove board p (fromRow m) (fromCol m) to
      \/ captureMove board p (fromRow m) (fromCol m) to).

(** The selection holds a selectable piece and its computed moves. *)
Definition selectionSound (props : BoardProps) (ui : BoardUi) : Prop :=
  match selectedSquare ui with
  | None => True
  | Some sel =>
      let p := pieceAt (bp_board props) (sq_row sel) (sq_col sel) in
      onBoard sel
      /\ isPieceSelectable (Some p) (bp_currentTurn props)
                           (bp_playerColor props) = true
      /\ calculateValidMoves (bp_board props) (bp_playerColor props)
                             (sq_row sel) (sq_col sel) (Some p)
         = Ok (validMoves ui)
  end.

(** The premove selection holds a piece of the player and its computed
    premove destinations. *)
Definition premoveSelectionSound (board : Board) (playerColor : PlayerColor)
    (ui : PremoveUi) : Prop :=
  match premoveFrom ui with
  | None => True
  | Some sel =>
      let p := pieceAt board (sq_row sel) (sq_col sel) in
      onBoard sel
      /\ friendly playerColor p
      /\ calculatePremoveValidMoves board (sq_row sel) (sq_col sel) (Some p)
         = Ok (premoveValidMoves ui)
  end.

(** The drag holds a piece that could be picked up and the destinations
    computed for it, by the rule of the moment. *)
Definition dragSound (props : BoardProps) (d : DragUi) : Prop :=
  match draggedPiece d with
  | None => True
  | Some sel =>
      let p := pieceAt (bp_board props) (sq_row sel) (sq_col sel) in
      onBoard sel
      /\ if bp_isMyTurn props
         then isPieceSelectable (Some p) (bp_currentTurn props)
                                (bp_playerColor props) = true
              /\ calculateValidMoves (bp_board props) (bp_playerColor props)
                                     (sq_row sel) (sq_col sel) (Some p)
                 = Ok (dragValidMoves d)
         else friendly (bp_playerColor props) p
              /\ calculatePremoveValidMoves (bp_board props)
                                            (sq_row sel) (sq_col sel) (Some p)
                 = Ok (dragValidMoves d)
  end.

(** The premove slot after a handler: untouched, emptied, or holding a
    premove staged on this board. *)
Definition premoveSlotSound (board : Board) (playerColor : PlayerColor)
    (before after : option MoveInfo) : Prop :=
  after = before \/ after = None
  \/ exists m, after = Some m /\ stagedPremove board playerColor m.

(** The pure list of keys [getPiecesWithCaptures] builds. *)
Definition captureKeys (board : Board) (playerColor : PlayerColor)
    : list string :=
  fold_left
    (fun acc row =>
       fold_left
         (fun acc' col =>
            if squareCaptureOk board playerColor row col
            then setAdd (squareKey row col) acc' else acc')
         range8 acc)
    range8 [].

Definition props1 (board : Board) (turn : Turn) (playerColor : PlayerColor)
    (myTurn : bool) : BoardProps :=
  mkBoardProps board turn playerColor myTurn false.

(** *** Store and page: vocabulary *)

Definition isPending (g : CheckersGame) : bool := GameStatus_eqb (status g) Pending.
Definition isActive (g : CheckersGame) : bool := GameStatus_eqb (status g) Active.

(** At most one interval runs, and it is the one the store remembers. *)
Definition singleInterval (t : TimerState) : Prop :=
  running t = []
  \/ exists h, running t = [h] /\ timerIntervalId t = Some h.

(** The three queue fields go together. *)
Definition queueConsistent (q : QueueState) : Prop :=
  (inQueue q = true <-> queueTimeControl q <> None)
  /\ (inQueue q = true <-> queueJoinedAt q <> None).

(** The clocks of a tick as the local player sees them. *)
Definition myClock (t : Tick) : Z :=
  if PlayerColor_eqb (pagePlayerColor (tick_playerId t) (tick_store t)) PRed
  then tick_redTimeMs t else tick_blackTimeMs t.

Definition opponentClock (t : Tick) : Z :=
  if PlayerColor_eqb (pagePlayerColor (tick_playerId t) (tick_store t)) PRed
  then tick_blackTimeMs t else tick_redTimeMs t.

(** The arbiter may act: an active timed game, a player, the flag down. *)
Definition arbiterArmed (t : Tick) (a : Arbiter) (game : CheckersGame) : Prop :=
  selectedGame (tick_store t) = Some game
  /\ status game = Active
  /\ tick_timeControl t = true
  /\ pagePlayerColor (tick_playerId t) (tick_store t) <> Spectator
  /\ timeWinClaimInProgress a = false.

(** Runs of the premove effect and firings of its scheduled callback,
    with no new premove queued in between. *)
Inductive PremoveEvent : Type :=
| PmEffect (playerId : option string) (s : GameStore)
| PmClear (s : GameStore)
| PmTimeout (playerId : option string) (env : MoveEnv) (s : GameStore).

(** The page state after the events and the number of [makeMove] calls
    they made. *)
Fixpoint premoveRun (es : list PremoveEvent) (pg : PremovePage)
    : PremovePage * nat :=
  match es with
  | [] => (pg, 0%nat)
  | PmEffect playerId s :: rest => premoveRun rest (premoveEffect playerId s pg)
  | PmClear s :: rest => premoveRun rest (clearPremoveEffect s pg)
  | PmTimeout playerId env s :: rest =>
      let '(pg1, r) := premoveTimeout playerId env s pg in
      let '(pg2, n) := premoveRun rest pg1 in
      (pg2, match r with Some _ => S n | None => n end)
  end.

(** Repeated countdown ticks. *)
Definition countdown (turn : Turn) (n : nat) (c : PageClock) : PageClock :=
  Nat.iter n (countdownTick turn) c.

(** An environment in which nothing else touches the store, the mutation
    is accepted, and the confirmation fetches are answered by [answers]. *)
Definition quietEnv (answers : nat -> CheckersGame) : MoveEnv :=
  mkMoveEnv None (fun s => s) (fun s => s)
            (fun i => quietAttempt (Data (answers i))).

(** The store after the [i]-th confirmation fetch has installed its
    answer. *)
Definition installed (answers : nat -> CheckersGame) (gid : string) (i : nat)
    (s : GameStore) : GameStore :=
  fetchGame gid (Data (answers i)) (fun x => x) s.

(** Red to move on [captureBoard], seen by the red player. *)
Definition redToMoveProps : BoardProps := props1 captureBoard TurnRed PRed true.

(** A red man picked up on (2,3), with its one legal destination. *)
Definition draggingState : BoardState :=
  mkBoardState (mkBoardUi None []) (mkPremoveUi None [] None)
               (mkDragUi (Some (mkSquare 2 3)) [mkSquare 4 1]).

(** A board of pieces with at least one row, as [parseBoardState]
    returns them. *)
Definition decodedBoard (b : Board) : Prop :=
  b <> [] /\ Forall (fun row => pieceRow row = true) b.

(** Snapshots of the game [gid] arriving through [fetchGames]: each
    answer is a list in which [find] meets the snapshot first. *)
Definition arrivesIn (gid : string) (a : list CheckersGame * CheckersGame)
    : Prop :=
  find (fun g => String.eqb (id g) gid) (fst a) = Some (snd a).

Definition deliverByFetchGames (arrivals : list (list CheckersGame * CheckersGame))
    (s : GameStore) : GameStore :=
  fold_left (fun st a => fetchGames_resolve (Data (fst a)) (fetchGames_start st))
            arrivals s.

(** The board after a move, square by square: the destination holds the
    moved piece (promoted), the jumped square of a two-row move and the
    source are empty, every other square is as before. *)
Definition movedBoard (b : Board) (m : MoveInfo) (r c : Z) : Piece :=
  if (r =? toRow m) && (c =? toCol m) then
    match promoted (Some (pieceAt b (fromRow m) (fromCol m))) (toRow m) with
    | Some q => q
    | None => Empty
    end
  else if (Z.abs (toRow m - fromRow m) =? 2)
          && (r =? (fromRow m + toRow m) / 2)
          && (c =? (fromCol m + toCol m) / 2)
  then Empty
  else if (r =? fromRow m) && (c =? fromCol m) then Empty
  else pieceAt b r c.

(*MOREDEFS*)

(* ================================================================== *)
(** * Properties *)

(** ** Board codec *)

Section Codec.

Lemma Piece_eqb_eq (a b : Piece) : Piece_eqb a b = true <-> a = b.
Proof. destruct a, b; simpl; split; congruence. Qed.

Lemma split_nonempty (s : string) : split s <> [].
Proof.
  induction s as [|ch rest IH]; simpl; [discriminate|].
  destruct (Ascii.eqb ch slash); [discriminate|].
  destruct (split rest); discriminate.
Qed.

Lemma append_empty_r (s : string) : (s ++ "")%string = s.
Proof. induction s; simpl; congruence. Qed.

Lemma join_empty_cons (x : string) (l : list string) :
  join EmptyString (x :: l) = (x ++ join EmptyString l)%string.
Proof.
  destruct l as [|y l]; simpl; [now rewrite append_empty_r | reflexivity].
Qed.

Lemma join_cons_char (sep : string) (a : ascii) (x : string) (l : list string) :
  join sep (String a x :: l) = String a (join sep (x :: l)).
Proof. destruct l; reflexivity. Qed.

Lemma join_empty_field (sep : string) (l : list string) :
  l <> [] -> join sep (EmptyString :: l) = (sep ++ join sep l)%string.
Proof. destruct l; [congruence | reflexivity]. Qed.

Lemma rowToString_parseRow (r : string) :
  rowToString (parseRow r)
  = mapChars (fun ch => if Ascii.eqb ch slash then "."%char else canonChar ch) r.
Proof.
  unfold rowToString.
  induction r as [|ch rest IH]; [reflexivity|].
  cbn [parseRow map mapChars]. rewrite join_empty_cons, IH.
  unfold canonChar, slotString, pieceChar, parseChar.
  destruct (Ascii.eqb ch slash) eqn:Hs.
  - apply Ascii.eqb_eq in Hs; subst ch. reflexivity.
  - destruct (Ascii.eqb ch "r"), (Ascii.eqb ch "b"), (Ascii.eqb ch "R"),
      (Ascii.eqb ch "B"); reflexivity.
Qed.

Lemma mapChars_ext (f g : ascii -> ascii) (s : string) :
  allChars (fun ch => Ascii.eqb (f ch) (g ch)) s = true ->
  mapChars f s = mapChars g s.
Proof.
  induction s as [|ch rest IH]; simpl; [reflexivity|].
  intros H. apply andb_prop in H as [H1 H2].
  apply Ascii.eqb_eq in H1. rewrite H1, IH; auto.
Qed.

Lemma allChars_impl (P Q : ascii -> bool) (s : string) :
  (forall ch, P ch = true -> Q ch = true) ->
  allChars P s = true -> allChars Q s = true.
Proof.
  intros HPQ. induction s as [|ch rest IH]; simpl; [reflexivity|].
  intros H. apply andb_prop in H as [H1 H2]. rewrite (HPQ _ H1), IH; auto.
Qed.

(** Re-encoding a decoded string canonicalises it, whatever it holds. *)
Lemma boardToString_parseBoardState_canon (s : string) :
  boardToString (parseBoardState s) = mapChars canonChar s.
Proof.
  unfold boardToString, parseBoardState.
  induction s as [|ch rest IH]; [reflexivity|].
  cbn [split mapChars]. unfold canonChar at 1.
  destruct (Ascii.eqb ch slash) eqn:Hs.
  - cbn [map]. change (rowToString (parseRow "")) with EmptyString.
    rewrite join_empty_field.
    + simpl. now rewrite IH.
    + intros H. apply map_eq_nil in H. apply map_eq_nil in H.
      exact (split_nonempty _ H).
  - destruct (split rest) as [|r rs] eqn:Hsp.
    + exfalso. exact (split_nonempty _ Hsp).
    + cbn [map] in *. rewrite rowToString_parseRow in *.
      cbn [mapChars]. rewrite Hs, join_cons_char, IH.
      unfold canonChar. rewrite Hs. reflexivity.
Qed.

Lemma split_mapChars (f : ascii -> ascii) (s : string) :
  (forall ch, Ascii.eqb (f ch) slash = Ascii.eqb ch slash) ->
  split (mapChars f s) = map (mapChars f) (split s).
Proof.
  intros Hf. induction s as [|ch rest IH]; [reflexivity|].
  cbn [mapChars split]. rewrite Hf, IH.
  destruct (Ascii.eqb ch slash); [reflexivity|].
  destruct (split rest); reflexivity.
Qed.

Lemma canonChar_slash (ch : ascii) :
  Ascii.eqb (canonChar ch) slash = Ascii.eqb ch slash.
Proof.
  unfold canonChar. destruct (Ascii.eqb ch slash) eqn:Hs; [reflexivity|].
  destruct (parseChar ch); reflexivity.
Qed.

Lemma parseChar_canonChar (ch : ascii) :
  Ascii.eqb ch slash = false -> parseChar (canonChar ch) = parseChar ch.
Proof.
  intros Hs. unfold canonChar. rewrite Hs.
  destruct (parseChar ch); reflexivity.
Qed.

Lemma parseRow_canon (r : string) :
  parseRow (mapChars canonChar r) = parseRow r.
Proof.
  induction r as [|ch rest IH]; [reflexivity|].
  cbn [mapChars parseRow]. rewrite IH. f_equal. f_equal.
  destruct (Ascii.eqb ch slash) eqn:Hs.
  - apply Ascii.eqb_eq in Hs; subst ch. reflexivity.
  - now apply parseChar_canonChar.
Qed.

(** Decoding is blind to the canonicalisation. *)
Lemma parseBoardState_canon (s : string) :
  parseBoardState (mapChars canonChar s) = parseBoardState s.
Proof.
  unfold parseBoardState. rewrite split_mapChars by apply canonChar_slash.
  rewrite map_map. apply map_ext. intros r. apply parseRow_canon.
Qed.

Lemma allChars_split (P : ascii -> bool) (s : string) :
  forallb (allChars P) (split s) = true ->
  allChars (fun ch => P ch || Ascii.eqb ch slash) s = true.
Proof.
  induction s as [|ch rest IH]; [reflexivity|].
  cbn [split allChars].
  destruct (Ascii.eqb ch slash) eqn:Hs.
  - cbn [forallb allChars andb]. intros H. rewrite orb_true_r. now apply IH.
  - destruct (split rest) as [|r rs] eqn:Hsp.
    + exfalso. exact (split_nonempty _ Hsp).
    + cbn [forallb allChars] in *. intros H.
      apply andb_prop in H as [H1 H2]. apply andb_prop in H1 as [H1 H3].
      rewrite H1. cbn [orb andb]. apply IH. now rewrite H3, H2.
Qed.

Lemma wellFormedOver_chars (E : ascii -> bool) (s : string) :
  wellFormedOver E s = true ->
  allChars (fun ch => (isPieceChar ch || E ch) || Ascii.eqb ch slash) s = true.
Proof.
  unfold wellFormedOver. intros H. apply andb_prop in H as [_ H].
  apply allChars_split. rewrite forallb_forall in *.
  intros r Hr. specialize (H r Hr). now apply andb_prop in H as [_ H].
Qed.

Lemma canonChar_alphabet (ch : ascii) :
  (isPieceChar ch || isEmptyChar ch) || Ascii.eqb ch slash = true ->
  canonChar ch = spaceToDot ch.
Proof.
  unfold isPieceChar, isEmptyChar, canonChar, spaceToDot, parseChar.
  destruct (Ascii.eqb ch slash) eqn:Hs.
  - apply Ascii.eqb_eq in Hs; subst ch. reflexivity.
  - destruct (Ascii.eqb ch "r") eqn:H1;
      [apply Ascii.eqb_eq in H1; subst ch; reflexivity|].
    destruct (Ascii.eqb ch "b") eqn:H2;
      [apply Ascii.eqb_eq in H2; subst ch; reflexivity|].
    destruct (Ascii.eqb ch "R") eqn:H3;
      [apply Ascii.eqb_eq in H3; subst ch; reflexivity|].
    destruct (Ascii.eqb ch "B") eqn:H4;
      [apply Ascii.eqb_eq in H4; subst ch; reflexivity|].
    destruct (Ascii.eqb ch " ") eqn:H5; [reflexivity|].
    destruct (Ascii.eqb ch ".") eqn:H6;
      [apply Ascii.eqb_eq in H6; subst ch; reflexivity|].
    discriminate.
Qed.

Lemma mapChars_spaceToDot_fixed (s : string) :
  mapChars spaceToDot s = s <->
  allChars (fun ch => negb (Ascii.eqb ch " ")) s = true.
Proof.
  induction s as [|ch rest IH]; [simpl; tauto|].
  cbn [mapChars allChars]. unfold spaceToDot at 1.
  destruct (Ascii.eqb ch " ") eqn:Hsp; cbn [negb andb].
  - apply Ascii.eqb_eq in Hsp; subst ch. split; intros H; discriminate.
  - rewrite <- IH. split; intros H; [congruence | now f_equal].
Qed.

End Codec.

(** C4 as stated fails: a well-formed wire string (space for an empty
    square) is not reproduced, every space comes back as a dot. *)
Lemma boardToString_parseBoardState_wire_counterexample :
  wellFormedWire initialWire = true /\
  boardToString (parseBoardState initialWire) <> initialWire /\
  boardToString (parseBoardState initialWire) = initialDotted.
Proof.
  split; [reflexivity|]. split; [|reflexivity].
  vm_compute. discriminate.
Qed.

(** C4 (amended): for a well-formed board string (eight rows joined by a
    slash, each of eight characters among r, b, R, B and space or dot for
    an empty square), re-encoding the decoded board gives the string with
    every space replaced by a dot; it is the string itself exactly when the
    string has no space; and it decodes to the same board. *)
Theorem boardToString_parseBoardState_roundtrip (s : string) :
  wellFormedBoardString s = true ->
  boardToString (parseBoardState s) = mapChars spaceToDot s
  /\ (boardToString (parseBoardState s) = s
      <-> allChars (fun ch => negb (Ascii.eqb ch " ")) s = true)
  /\ parseBoardState (boardToString (parseBoardState s)) = parseBoardState s.
Proof.
  intros Hwf.
  assert (Heq : boardToString (parseBoardState s) = mapChars spaceToDot s).
  { rewrite boardToString_parseBoardState_canon. apply mapChars_ext.
    apply wellFormedOver_chars in Hwf.
    revert Hwf. apply allChars_impl. intros ch Hch.
    rewrite (canonChar_alphabet ch Hch). apply Ascii.eqb_refl. }
  split; [exact Heq|]. split.
  - rewrite Heq. apply mapChars_spaceToDot_fixed.
  - rewrite boardToString_parseBoardState_canon. apply parseBoardState_canon.
Qed.

Lemma boardToString_parseBoardState_roundtrip_witness :
  boardToString (parseBoardState initialDotted) = initialDotted.
Proof.
  apply (boardToString_parseBoardState_roundtrip initialDotted);
    reflexivity.
Defined.

(** C10: outside the 8x8 range [getPiece] answers [Piece.Empty], for any
    board string, and never throws. *)
Theorem getPiece_out_of_range (boardState : string) (row col : Z) :
  row < 0 \/ 7 < row \/ col < 0 \/ 7 < col ->
  getPiece boardState row col = Ok (Some Empty).
Proof.
  intros H. unfold getPiece.
  destruct ((0 <=? row) && (row <? 8) && (0 <=? col) && (col <? 8)) eqn:E;
    [|reflexivity].
  exfalso.
  apply andb_prop in E as [E E4]. apply andb_prop in E as [E E3].
  apply andb_prop in E as [E1 E2].
  lia.
Qed.

Lemma getPiece_out_of_range_witness :
  getPiece initialDotted 8 3 = Ok (Some Empty)
  /\ getPiece EmptyString 0 (-1) = Ok (Some Empty).
Proof.
  split.
  - apply getPiece_out_of_range. right; left; reflexivity.
  - apply getPiece_out_of_range. right; right; left; reflexivity.
Defined.

(* ================================================================== *)
(** ** Move-legality engine *)

Section Engine.

Variable board : Board.
Hypothesis board_8x8 : is8x8 board = true.

Lemma inBoard_spec (r c : Z) :
  inBoard r c = true <-> 0 <= r <= 7 /\ 0 <= c <= 7.
Proof. unfold inBoard. rewrite !andb_true_iff. lia. Qed.

(** On a decoded 8x8 board every read inside the board finds a piece. *)
Lemma get_8x8 (r c : Z) :
  inBoard r c = true -> get board r c = Ok (Some (pieceAt board r c)).
Proof.
  intros Hin. apply inBoard_spec in Hin.
  assert (Hex : exists p, get board r c = Ok (Some p)).
  { unfold is8x8 in board_8x8. apply andb_prop in board_8x8 as [Hlen Hrows].
    apply Nat.eqb_eq in Hlen. rewrite forallb_forall in Hrows.
    unfold get, zlen. rewrite Hlen.
    replace ((r <? 0) || (Z.of_nat 8 <=? r)) with false
      by (symmetry; apply orb_false_iff; split;
          [apply Z.ltb_ge | apply Z.leb_gt]; lia).
    assert (Hr : In (nth (Z.to_nat r) board []) board) by (apply nth_In; lia).
    specialize (Hrows _ Hr). apply andb_prop in Hrows as [Hl Hs].
    apply Nat.eqb_eq in Hl. rewrite forallb_forall in Hs. rewrite Hl.
    replace ((c <? 0) || (Z.of_nat 8 <=? c)) with false
      by (symmetry; apply orb_false_iff; split;
          [apply Z.ltb_ge | apply Z.leb_gt]; lia).
    assert (Hc : In (nth (Z.to_nat c) (nth (Z.to_nat r) board []) SHole)
                    (nth (Z.to_nat r) board [])) by (apply nth_In; lia).
    specialize (Hs _ Hc).
    destruct (nth (Z.to_nat c) (nth (Z.to_nat r) board []) SHole) as [| |p];
      try discriminate.
    now exists p. }
  destruct Hex as [p Hp]. unfold pieceAt. now rewrite Hp.
Qed.

Lemma simpleTest_pure (row col : Z) (d : Z * Z) :
  simpleTest board row col d = Ok (simpleOk board row col d).
Proof.
  destruct d as [dr dc]. unfold simpleTest, simpleOk. cbn [fst snd].
  destruct (inBoard (row + dr) (col + dc)) eqn:Hin; [|reflexivity].
  rewrite (get_8x8 _ _ Hin). reflexivity.
Qed.

Lemma captureTest_pure (red : bool) (row col : Z) (d : Z * Z) :
  inBoard row col = true -> unitDir d ->
  captureTest board red row col d = Ok (captureOk board red row col d).
Proof.
  destruct d as [dr dc]. intros Hrc [Hdr Hdc]. cbn [fst snd] in *.
  unfold captureTest, captureOk. cbn [fst snd].
  destruct (inBoard (row + 2 * dr) (col + 2 * dc)) eqn:Hin; [|reflexivity].
  rewrite (get_8x8 _ _ Hin). cbn [bind strictEq andb].
  destruct (Piece_eqb _ Empty); [|reflexivity].
  assert (Hmid : inBoard (row + dr) (col + dc) = true).
  { apply inBoard_spec in Hin, Hrc. apply inBoard_spec. lia. }
  rewrite (get_8x8 _ _ Hmid). reflexivity.
Qed.

Lemma scanDirections_pure (red : bool) (row col : Z) (dirs : list (Z * Z)) :
  inBoard row col = true -> Forall unitDir dirs ->
  forall simpleMoves captureMoves,
  scanDirections board red row col dirs simpleMoves captureMoves
  = Ok (simpleMoves
          ++ map (stepTo row col 1) (filter (simpleOk board row col) dirs),
        captureMoves
          ++ map (stepTo row col 2) (filter (captureOk board red row col) dirs)).
Proof.
  intros Hrc Hdirs. induction Hdirs as [|d rest Hd _ IH]; intros sm cm.
  - cbn. now rewrite !app_nil_r.
  - cbn [scanDirections filter].
    rewrite simpleTest_pure, (captureTest_pure red row col d Hrc Hd).
    cbn [bind]. rewrite IH.
    destruct (simpleOk board row col d), (captureOk board red row col d);
      cbn [map]; rewrite <- ?app_assoc; reflexivity.
Qed.

Lemma scanPremoveDirections_pure (red : bool) (row col : Z)
    (dirs : list (Z * Z)) :
  inBoard row col = true -> Forall unitDir dirs ->
  forall moves,
  scanPremoveDirections board red row col dirs moves
  = Ok (moves
          ++ flat_map (fun d =>
               (if simpleOk board row col d then [stepTo row col 1 d] else [])
               ++ (if captureOk board red row col d
                   then [stepTo row col 2 d] else [])) dirs).
Proof.
  intros Hrc Hdirs. induction Hdirs as [|d rest Hd _ IH]; intros moves.
  - cbn. now rewrite app_nil_r.
  - cbn [scanPremoveDirections flat_map].
    rewrite simpleTest_pure, (captureTest_pure red row col d Hrc Hd).
    cbn [bind]. rewrite IH.
    destruct (simpleOk board row col d), (captureOk board red row col d);
      cbn [app]; rewrite <- ?app_assoc; reflexivity.
Qed.

Lemma anyM_pure {A} (f : A -> Exc bool) (g : A -> bool) (l : list A) :
  (forall x, In x l -> f x = Ok (g x)) ->
  anyM f l = Ok (existsb g l).
Proof.
  induction l as [|x rest IH]; intros H; [reflexivity|].
  cbn [anyM existsb]. rewrite (H x (or_introl eq_refl)). cbn [bind].
  destruct (g x); [reflexivity|]. apply IH. intros y Hy. apply H. now right.
Qed.

Lemma directions_unit (king red : bool) : Forall unitDir (directions king red).
Proof.
  destruct king, red; cbn;
    repeat (apply Forall_cons; [unfold unitDir; cbn; lia|]); apply Forall_nil.
Qed.

Lemma range8_spec (z : Z) : In z range8 <-> 0 <= z <= 7.
Proof. unfold range8. cbn [In]. lia. Qed.

Lemma squareHasCapture_pure (playerColor : PlayerColor) (row col : Z) :
  inBoard row col = true ->
  squareHasCapture board playerColor row col
  = Ok (squareCaptureOk board playerColor row col).
Proof.
  intros Hrc. unfold squareHasCapture, squareCaptureOk.
  rewrite (get_8x8 _ _ Hrc). cbn [bind strictEq].
  destruct (Piece_eqb (pieceAt board row col) Empty); [reflexivity|].
  cbn [negb andb].
  destruct (Bool.eqb (isPlayerRed playerColor) (isRed (Some (pieceAt board row col))));
    [|reflexivity].
  cbn [negb andb]. apply anyM_pure. intros d Hd.
  apply captureTest_pure; [exact Hrc|].
  pose proof (directions_unit (isKing (Some (pieceAt board row col)))
                              (isRed (Some (pieceAt board row col)))) as HF.
  rewrite Forall_forall in HF. now apply HF.
Qed.

Lemma hasAnyCaptureAvailable_pure (playerColor : PlayerColor) :
  hasAnyCaptureAvailable board playerColor = Ok (anyCaptureOk board playerColor).
Proof.
  unfold hasAnyCaptureAvailable, anyCaptureOk.
  apply anyM_pure. intros row Hrow. apply anyM_pure. intros col Hcol.
  apply squareHasCapture_pure. apply inBoard_spec.
  apply range8_spec in Hrow, Hcol. lia.
Qed.

(** The value [calculateValidMoves] returns on a decoded board. *)
Lemma calculateValidMoves_pure (playerColor : PlayerColor) (row col : Z)
    (p : Piece) :
  inBoard row col = true ->
  calculateValidMoves board playerColor row col (Some p)
  = Ok (match captureList board p row col with
        | _ :: _ => captureList board p row col
        | [] => if anyCaptureOk board playerColor then []
                else simpleList board p row col
        end).
Proof.
  intros Hrc. unfold calculateValidMoves.
  rewrite (scanDirections_pure _ _ _ _ Hrc (directions_unit _ _)).
  cbn [bind app]. fold (pieceDirections p).
  fold (captureList board p row col). fold (simpleList board p row col).
  destruct (captureList board p row col) as [|sq rest] eqn:Hc.
  - unfold zlen. cbn [List.length Z.of_nat]. rewrite Z.ltb_irrefl.
    rewrite hasAnyCaptureAvailable_pure. cbn [bind].
    destruct (anyCaptureOk board playerColor); reflexivity.
  - unfold zlen. cbn [List.length].
    replace (0 <? Z.of_nat (S (List.length rest))) with true
      by (symmetry; apply Z.ltb_lt; lia).
    reflexivity.
Qed.

Lemma calculatePremoveValidMoves_pure (row col : Z) (p : Piece) :
  inBoard row col = true ->
  calculatePremoveValidMoves board row col (Some p)
  = Ok (flat_map (fun d =>
          (if simpleOk board row col d then [stepTo row col 1 d] else [])
          ++ (if captureOk board (isRed (Some p)) row col d
              then [stepTo row col 2 d] else []))
        (pieceDirections p)).
Proof.
  intros Hrc. unfold calculatePremoveValidMoves.
  now rewrite (scanPremoveDirections_pure _ _ _ _ Hrc (directions_unit _ _)).
Qed.

End Engine.

Section EngineSpec.

Variable board : Board.
Hypothesis board_8x8 : is8x8 board = true.

Lemma pieceDirections_spec (p : Piece) (dr dc : Z) :
  p <> Empty -> (In (dr, dc) (pieceDirections p) <-> movesAlong p dr dc).
Proof.
  intros Hp. unfold movesAlong.
  destruct p; try congruence; cbn; split;
    try (intros H; repeat destruct H as [H|H]; try contradiction;
         injection H as <- <-; lia);
    intros [[Hc|Hc] Hr]; subst;
    try (destruct Hr as [Hr|Hr]); subst; auto 6.
Qed.

Lemma isEnemy_spec (p q : Piece) :
  p <> Empty -> (isEnemy (isRed (Some p)) (Some q) = true <-> enemyOf p q).
Proof.
  intros Hp. destruct p, q; try congruence; cbn; intuition congruence.
Qed.

Lemma in_mapped_filter (f : Z * Z -> Square) (g : Z * Z -> bool)
    (l : list (Z * Z)) (sq : Square) :
  In sq (map f (filter g l)) <-> exists d, In d l /\ g d = true /\ sq = f d.
Proof.
  rewrite in_map_iff. split.
  - intros [d [Hf Hd]]. apply filter_In in Hd as [Hd Hg]. now exists d.
  - intros [d [Hd [Hg Hf]]]. exists d. split; [auto|]. now apply filter_In.
Qed.

Lemma captureOk_spec (p : Piece) (row col dr dc : Z) :
  p <> Empty ->
  (captureOk board (isRed (Some p)) row col (dr, dc) = true <->
   onBoard (mkSquare (row + 2 * dr) (col + 2 * dc))
   /\ pieceAt board (row + 2 * dr) (col + 2 * dc) = Empty
   /\ enemyOf p (pieceAt board (row + dr) (col + dc))).
Proof.
  intros Hp. unfold captureOk, onBoard. cbn [fst snd sq_row sq_col].
  rewrite !andb_true_iff, inBoard_spec, Piece_eqb_eq, (isEnemy_spec _ _ Hp).
  tauto.
Qed.

Lemma simpleOk_spec (row col dr dc : Z) :
  simpleOk board row col (dr, dc) = true <->
  onBoard (mkSquare (row + dr) (col + dc))
  /\ pieceAt board (row + dr) (col + dc) = Empty.
Proof.
  unfold simpleOk, onBoard. cbn [fst snd sq_row sq_col].
  rewrite !andb_true_iff, inBoard_spec, Piece_eqb_eq. tauto.
Qed.

Lemma captureList_spec (p : Piece) (row col : Z) (sq : Square) :
  p <> Empty ->
  (In sq (captureList board p row col) <-> captureMove board p row col sq).
Proof.
  intros Hp. unfold captureList, captureMove. rewrite in_mapped_filter. split.
  - intros [[dr dc] [Hd [Hok Hsq]]]. exists dr, dc.
    apply (pieceDirections_spec _ _ _ Hp) in Hd.
    apply (captureOk_spec _ _ _ _ _ Hp) in Hok.
    unfold stepTo in Hsq. cbn [fst snd] in Hsq. subst sq. tauto.
  - intros [dr [dc [Hd [Hsq [Hon [He Hen]]]]]]. exists (dr, dc).
    split; [now apply pieceDirections_spec|]. split.
    + apply (captureOk_spec _ _ _ _ _ Hp). subst sq. tauto.
    + exact Hsq.
Qed.

Lemma simpleList_spec (p : Piece) (row col : Z) (sq : Square) :
  p <> Empty ->
  (In sq (simpleList board p row col) <-> simpleMove board p row col sq).
Proof.
  intros Hp. unfold simpleList, simpleMove. rewrite in_mapped_filter. split.
  - intros [[dr dc] [Hd [Hok Hsq]]]. exists dr, dc.
    apply (pieceDirections_spec _ _ _ Hp) in Hd.
    apply simpleOk_spec in Hok.
    unfold stepTo in Hsq. cbn [fst snd] in Hsq.
    rewrite !Z.mul_1_l in Hsq. subst sq. tauto.
  - intros [dr [dc [Hd [Hsq [Hon He]]]]]. exists (dr, dc).
    split; [now apply pieceDirections_spec|]. split.
    + apply simpleOk_spec. subst sq. tauto.
    + unfold stepTo. cbn [fst snd]. now rewrite !Z.mul_1_l.
Qed.

(** A square is never both one and two steps away. *)
Lemma simple_capture_disjoint (p : Piece) (row col : Z) (sq : Square) :
  simpleMove board p row col sq -> captureMove board p row col sq -> False.
Proof.
  intros [dr [dc [[Hdc _] [Hs _]]]] [dr' [dc' [[Hdc' _] [Hc _]]]].
  rewrite Hs in Hc. apply (f_equal sq_col) in Hc. cbn [sq_col] in Hc. lia.
Qed.

Lemma friendly_nonempty (playerColor : PlayerColor) (p : Piece) :
  friendly playerColor p -> p <> Empty.
Proof. intros H ->. discriminate H. Qed.

Lemma friendly_spec (playerColor : PlayerColor) (p : Piece) :
  playerColor <> Spectator ->
  (negb (Piece_eqb p Empty)
   && Bool.eqb (isPlayerRed playerColor) (isRed (Some p)) = true
   <-> friendly playerColor p).
Proof.
  intros Hpc. unfold friendly.
  destruct playerColor, p; try congruence; cbn; split; congruence.
Qed.

Lemma isPieceOwnedByPlayer_spec (playerColor : PlayerColor) (p : Piece) :
  isPieceOwnedByPlayer playerColor (Some p) = true <-> friendly playerColor p.
Proof.
  unfold friendly. destruct playerColor, p; cbn; split; congruence.
Qed.

Lemma existsb_captureOk_spec (p : Piece) (row col : Z) :
  p <> Empty ->
  (existsb (captureOk board (isRed (Some p)) row col) (pieceDirections p) = true
   <-> exists sq, captureMove board p row col sq).
Proof.
  intros Hp. rewrite existsb_exists. split.
  - intros [d [Hd Hok]]. exists (stepTo row col 2 d).
    apply (captureList_spec _ _ _ _ Hp). unfold captureList.
    apply in_mapped_filter. now exists d.
  - intros [sq Hsq]. apply (captureList_spec _ _ _ _ Hp) in Hsq.
    unfold captureList in Hsq. apply in_mapped_filter in Hsq.
    destruct Hsq as [d [Hd [Hok _]]]. now exists d.
Qed.

Lemma anyCaptureOk_spec (playerColor : PlayerColor) :
  playerColor <> Spectator ->
  (anyCaptureOk board playerColor = true
   <-> friendlyCaptureExists board playerColor).
Proof.
  intros Hpc. unfold anyCaptureOk, friendlyCaptureExists.
  rewrite existsb_exists. split.
  - intros [r [Hr H]]. apply existsb_exists in H as [c [Hc H]].
    unfold squareCaptureOk in H. cbv zeta in H.
    apply andb_prop in H as [Hf Hex].
    apply (friendly_spec _ _ Hpc) in Hf.
    apply (existsb_captureOk_spec _ _ _ (friendly_nonempty _ _ Hf)) in Hex.
    destruct Hex as [sq Hsq]. exists r, c, sq.
    apply range8_spec in Hr, Hc. unfold onBoard. cbn [sq_row sq_col]. tauto.
  - intros [r [c [sq [[Hr Hc] [Hf Hsq]]]]]. cbn [sq_row sq_col] in *.
    exists r. split; [now apply range8_spec|].
    apply existsb_exists. exists c. split; [now apply range8_spec|].
    unfold squareCaptureOk. cbv zeta. apply andb_true_intro. split.
    + now apply friendly_spec.
    + apply (existsb_captureOk_spec _ _ _ (friendly_nonempty _ _ Hf)).
      now exists sq.
Qed.

End EngineSpec.

(** C1: on a decoded 8x8 board, for a square holding a piece of the acting
    player's colour, [calculateValidMoves] returns exactly the piece's
    capture destinations (and no simple move) when it has a capture, the
    empty list when it has none but another friendly piece has
    ([hasAnyCaptureAvailable] is true), and the piece's simple diagonal
    moves only when no friendly piece has a capture. *)
Theorem calculateValidMoves_mandatory_capture
    (board : Board) (playerColor : PlayerColor) (row col : Z) (p : Piece) :
  is8x8 board = true ->
  onBoard (mkSquare row col) ->
  pieceAt board row col = p ->
  friendly playerColor p ->
  mandatoryCapturePolicy board playerColor row col p.
Proof.
  intros H8 Hon Hat Hf.
  assert (Hrc : inBoard row col = true) by (now apply inBoard_spec).
  assert (Hp : p <> Empty) by (exact (friendly_nonempty _ _ Hf)).
  assert (Hpc : playerColor <> Spectator).
  { intros ->. destruct p; discriminate Hf. }
  pose proof (captureList_spec board p row col) as HC.
  pose proof (simpleList_spec board p row col) as HS.
  pose proof (anyCaptureOk_spec board playerColor Hpc) as HA.
  unfold mandatoryCapturePolicy.
  eexists. exists (anyCaptureOk board playerColor).
  split; [apply (calculateValidMoves_pure board H8 _ _ _ _ Hrc)|].
  split; [apply (hasAnyCaptureAvailable_pure board H8)|].
  split; [exact HA|].
  assert (Hself : (exists sq, captureMove board p row col sq) ->
                  anyCaptureOk board playerColor = true).
  { intros [sq Hsq]. apply HA. exists row, col, sq. rewrite Hat. auto. }
  destruct (captureList board p row col) as [|c0 cs] eqn:Hcl.
  - (* the piece has no capture *)
    assert (Hnone : ~ exists sq, captureMove board p row col sq).
    { intros [sq Hsq]. apply (HC sq Hp) in Hsq. contradiction. }
    split; [intros Hex; contradiction|].
    split; [intros _ Hany; now rewrite Hany|].
    split; [intros Hany sq; rewrite Hany; now apply HS|].
    intros [sq [Hin Hsq]].
    destruct (anyCaptureOk board playerColor); [contradiction | reflexivity].
  - (* the piece has a capture *)
    assert (Hsome : exists sq, captureMove board p row col sq).
    { exists c0. apply (HC c0 Hp). now left. }
    split.
    { intros _. split; [intros sq; now apply HC|].
      intros sq Hin Hsimple. apply (HC sq Hp) in Hin.
      exact (simple_capture_disjoint board p row col sq Hsimple Hin). }
    split; [intros Hno; contradiction|].
    split; [intros Hany; rewrite (Hself Hsome) in Hany; discriminate|].
    intros [sq [Hin Hsimple]]. exfalso. apply (HC sq Hp) in Hin.
    exact (simple_capture_disjoint board p row col sq Hsimple Hin).
Qed.

Lemma calculateValidMoves_mandatory_capture_witness :
  mandatoryCapturePolicy captureBoard PRed 2 1 Red.
Proof.
  apply (calculateValidMoves_mandatory_capture captureBoard PRed 2 1 Red).
  - reflexivity.
  - cbv; repeat split; discriminate.
  - reflexivity.
  - reflexivity.
Defined.

(** The three cases of the policy on [captureBoard]. *)
Example calculateValidMoves_capturing_piece :
  calculateValidMoves captureBoard PRed 2 1 (Some Red) = Ok [mkSquare 4 3].
Proof. reflexivity. Qed.

Example calculateValidMoves_frozen_piece :
  calculateValidMoves captureBoard PRed 2 5 (Some Red) = Ok [].
Proof. reflexivity. Qed.

Example calculateValidMoves_no_capture_anywhere :
  calculateValidMoves captureBoard PBlack 5 2 (Some Black)
  = Ok [mkSquare 4 1; mkSquare 4 3].
Proof. reflexivity. Qed.

(** C9: a premove click takes a square as source only when it holds a
    piece of the local player's colour (no turn enters the test), and the
    destinations it offers for that piece are, on the current board, the
    union of the piece's simple moves and of its jump captures, with no
    mandatory-capture filtering. *)
Theorem handlePremoveClick_staging
    (board : Board) (playerColor : PlayerColor) (row col : Z) (ui : PremoveUi) :
  is8x8 board = true ->
  onBoard (mkSquare row col) ->
  premoveStaging board playerColor row col ui.
Proof.
  intros H8 Hon.
  assert (Hrc : inBoard row col = true) by (now apply inBoard_spec).
  unfold premoveStaging, handlePremoveClick.
  rewrite (get_8x8 board H8 _ _ Hrc). cbn [bind].
  pose proof (isPieceOwnedByPlayer_spec playerColor (pieceAt board row col))
    as Hown.
  destruct (isPieceOwnedByPlayer playerColor (Some (pieceAt board row col)))
    eqn:Ho.
  - assert (Hf : friendly playerColor (pieceAt board row col)) by now apply Hown.
    pose proof (friendly_nonempty _ _ Hf) as Hp.
    rewrite (calculatePremoveValidMoves_pure board H8 _ _ _ Hrc). cbn [bind].
    eexists. split; [reflexivity|]. split; [exact Hown|].
    cbn [handleCancelPremove premoveFrom premoveValidMoves]. split.
    + intros sq Hsq. injection Hsq as <-. auto.
    + intros _. split; [reflexivity|]. intros sq.
      rewrite <- (simpleList_spec board _ _ _ sq Hp).
      rewrite <- (captureList_spec board _ _ _ sq Hp).
      unfold simpleList, captureList. rewrite !in_mapped_filter, in_flat_map.
      split.
      * intros [d [Hd Hin]]. apply in_app_or in Hin as [Hin|Hin].
        -- left. exists d.
           destruct (simpleOk board row col d); [|contradiction].
           destruct Hin as [<-|[]]. auto.
        -- right. exists d.
           destruct (captureOk board _ row col d); [|contradiction].
           destruct Hin as [<-|[]]. auto.
      * intros [[d [Hd [Hok ->]]]|[d [Hd [Hok ->]]]]; exists d;
          (split; [exact Hd|]); apply in_or_app; rewrite Hok;
          [left|right]; now left.
  - assert (Hnf : ~ friendly playerColor (pieceAt board row col)).
    { intros Hf. apply Hown in Hf. discriminate. }
    destruct (premoveFrom ui) as [from|] eqn:Hfrom.
    + eexists. split; [reflexivity|]. split; [exact Hown|].
      cbn [premoveFrom]. split; [discriminate | contradiction].
    + eexists. split; [reflexivity|]. split; [exact Hown|].
      cbn [handleCancelPremove premoveFrom]. rewrite Hfrom.
      split; [discriminate | contradiction].
Qed.

Lemma handlePremoveClick_staging_witness :
  premoveStaging captureBoard PRed 2 5 (mkPremoveUi None [] None).
Proof.
  apply (handlePremoveClick_staging captureBoard PRed 2 5).
  - reflexivity.
  - cbv; repeat split; discriminate.
Defined.

(** The piece [calculateValidMoves] freezes is free to premove. *)
Example calculatePremoveValidMoves_ignores_forced_capture :
  calculatePremoveValidMoves captureBoard 2 5 (Some Red)
  = Ok [mkSquare 3 4; mkSquare 3 6]
  /\ calculatePremoveValidMoves captureBoard 2 1 (Some Red)
     = Ok [mkSquare 3 0; mkSquare 4 3].
Proof. split; reflexivity. Qed.

(* ================================================================== *)
(** ** Game store: reconciliation of snapshots *)

(** [fetchGames] never replaces the selected game by an older snapshot. *)
Lemma fetchGames_resolve_monotone
    (resp : Response (list CheckersGame)) (s : GameStore) (g : CheckersGame) :
  selectedGame s = Some g ->
  exists g', selectedGame (fetchGames_resolve resp s) = Some g'
             /\ moveCount g <= moveCount g'.
Proof.
  intros Hsel. unfold fetchGames_resolve.
  destruct resp as [gs| |message]; cbn.
  - destruct (truthy (selectedGameId s)) as [sid|];
      [|exists g; split; [exact Hsel | lia]].
    destruct (find _ gs) as [updated|];
      [|exists g; split; [exact Hsel | lia]].
    rewrite Hsel.
    destruct (moveCount g <=? moveCount updated) eqn:Hle.
    + exists updated. split; [reflexivity | now apply Z.leb_le].
    + exists g. split; [exact Hsel | lia].
  - destruct (truthy (selectedGameId s)); exists g; split;
      solve [exact Hsel | lia].
  - exists g. split; [exact Hsel | lia].
Qed.

(** [fetchGame] installs whatever snapshot arrives. *)
Lemma fetchGame_resolve_overwrites
    (gid : string) (game : CheckersGame) (s : GameStore) :
  selectedGame (fetchGame_resolve gid (Data game) s) = Some game.
Proof. reflexivity. Qed.

Example fetchGames_keeps_newest :
  selectedMoveCount (arriveByFetchGames [3; 2; 5; 4] (storeAt 0)) = Some 5.
Proof. reflexivity. Qed.

(** C2 at its failing input: a snapshot that arrives through [fetchGame]
    (the path of the background poll of the selected game and of the
    confirmation loop) replaces the cached one whatever its [moveCount];
    with the arrivals 3, 2, 5, 4 the store ends at 4, and a cached count
    of 5 is overwritten by an incoming 4. *)
Theorem fetchGame_accepts_stale_snapshot :
  selectedMoveCount (arriveByFetchGame [3; 2; 5; 4] (storeAt 0)) = Some 4
  /\ selectedMoveCount (fetchGame_resolve "g1" (Data (snapshot 4)) (storeAt 5))
     = Some 4
  /\ selectedMoveCount (storeAt 5) = Some 5.
Proof. repeat split. Qed.

(* ================================================================== *)
(** ** Game store: single-flight move submission *)

Lemma confirmLoop_fetches (remaining i : nat) (env : MoveEnv) (gid : string)
    (oldMoveCount : Z) (s : GameStore) (k : nat) :
  (snd (confirmLoop remaining i env gid oldMoveCount s k) <= k + remaining)%nat.
Proof.
  revert i s k. induction remaining as [|n IH]; intros i s k; cbn [confirmLoop].
  - cbn. lia.
  - destruct (negb (optString_eqb (selectedGameId s) gid)); [cbn; lia|].
    destruct (selectedGame _) as [updatedGame|]; [|cbn; lia].
    destruct (negb (String.eqb (id updatedGame) gid)); [cbn; lia|].
    destruct (oldMoveCount <? moveCount updatedGame); [cbn; lia|].
    specialize (IH (S i)
      (att_duringBackoff (env_attempt env i)
         (fetchGame gid (att_response (env_attempt env i))
                    (att_duringFetch (env_attempt env i)) s)) (S k)).
    lia.
Qed.

(** C8: a call made while a move is in flight returns false and sends
    nothing (the guard stays set); any other call ends with the guard
    cleared, sends at most one mutation and sends it with the guard set,
    and makes at most three confirmation fetches -- whatever the outcome
    of the send, the answers to the fetches and whatever other callbacks
    do to the store in between. *)
Theorem makeMove_single_flight
    (playerId : option string) (env : MoveEnv) (from : MoveInfo) (s : GameStore) :
  let r := makeMove playerId env from s in
  if isMoving s then
    res_success r = false /\ res_sent r = [] /\ res_fetches r = 0%nat
    /\ isMoving (res_store r) = true
  else
    isMoving (res_store r) = false
    /\ (res_fetches r <= 3)%nat
    /\ match selectedGame s, truthy (selectedGameId s), truthy playerId with
       | Some game, Some gid, Some pid =>
           res_sent r =
             [mkSent (MakeMoveMutation gid (fromRow from) (fromCol from)
                                       (toRow from) (toCol from) pid) true]
           /\ res_success r = match env_send env with
                              | None => true
                              | Some _ => false
                              end
       | _, _, _ => res_sent r = [] /\ res_success r = false
       end.
Proof.
  cbv zeta. unfold makeMove.
  destruct (isMoving s) eqn:Hmov.
  - destruct (selectedGame s) as [game|]; cbn; [|now rewrite Hmov].
    destruct (truthy (selectedGameId s)) as [gid|]; cbn; [|now rewrite Hmov].
    destruct (truthy playerId) as [pid|]; cbn; now rewrite Hmov.
  - destruct (selectedGame s) as [game|];
      [|cbn; rewrite Hmov; repeat split; lia].
    destruct (truthy (selectedGameId s)) as [gid|];
      [|cbn; rewrite Hmov; repeat split; lia].
    destruct (truthy playerId) as [pid|];
      [|cbn; rewrite Hmov; repeat split; lia].
    destruct (env_send env) as [message|]; [cbn; repeat split; lia|].
    match goal with
    | |- context [confirmLoop 3 0 env gid ?old ?X 0] =>
        pose proof (confirmLoop_fetches 3 0 env gid old X 0) as Hn;
        destruct (confirmLoop 3 0 env gid old X 0) as [s3 n]
    end.
    cbn in *. repeat split; lia.
Qed.

(** The ways a call ends. *)
Example makeMove_confirmed :
  let env := mkMoveEnv None (fun s => s) (fun s => s)
                       (fun _ => quietAttempt (Data (snapshot 1))) in
  let r := makeMove (Some "alice"%string) env (mkMove 2 1 3 0) (storeAt 0) in
  res_success r = true /\ isMoving (res_store r) = false
  /\ res_fetches r = 1%nat /\ selectedMoveCount (res_store r) = Some 1.
Proof. repeat split. Qed.

Example makeMove_retries_exhausted :
  let env := mkMoveEnv None (fun s => s) (fun s => s)
                       (fun _ => quietAttempt (Data (snapshot 0))) in
  let r := makeMove (Some "alice"%string) env (mkMove 2 1 3 0) (storeAt 0) in
  res_success r = true /\ isMoving (res_store r) = false
  /\ res_fetches r = 3%nat.
Proof. repeat split. Qed.

Example makeMove_abandoned_on_game_switch :
  let env := mkMoveEnv None (fun s => s) (selectGame "g2")
                       (fun _ => quietAttempt (Data (snapshot 1))) in
  let r := makeMove (Some "alice"%string) env (mkMove 2 1 3 0) (storeAt 0) in
  res_success r = true /\ isMoving (res_store r) = false
  /\ res_fetches r = 0%nat.
Proof. repeat split. Qed.

Example makeMove_send_fails :
  let env := mkMoveEnv (Some "rejected"%string) (fun s => s) (fun s => s)
                       (fun _ => quietAttempt NoData) in
  let r := makeMove (Some "alice"%string) env (mkMove 2 1 3 0) (storeAt 0) in
  res_success r = false /\ isMoving (res_store r) = false
  /\ error (res_store r) = Some "rejected"%string
  /\ selectedGame (res_store r) = selectedGame (storeAt 0).
Proof. repeat split. Qed.

(* ================================================================== *)
(** ** Game store: optimistic move and rollback *)

(** C6 as stated fails: with no game selected [localMakeMove] returns at
    once and stores no snapshot, so [rollbackMove] restores whatever
    earlier snapshot is still in the store. *)
Lemma localMakeMove_rollbackMove_counterexample :
  let s := deselectedAfterMove in
  let s' := rollbackMove (fst (localMakeMove (mkMove 2 0 3 1) s)) in
  selectedGame s = None
  /\ games s' <> games s
  /\ selectedGame s' <> selectedGame s.
Proof.
  cbv zeta. split; [reflexivity|]. split; vm_compute; discriminate.
Qed.

(** C6 (amended): from a store with a game selected, or with no earlier
    snapshot pending, [localMakeMove] followed by [rollbackMove] gives
    back the games list and the selected game (board string, turn and
    move count included), also when the transform throws halfway. *)
Theorem localMakeMove_rollbackMove (from : MoveInfo) (s : GameStore) :
  selectedGame s <> None \/ previousState s = None ->
  restoredBy s (rollbackMove (fst (localMakeMove from s))).
Proof.
  intros H. unfold localMakeMove, restoredBy, sameSnapshot.
  destruct (selectedGame s) as [game|] eqn:Hsel.
  - destruct (applyMove (parseBoardState (boardState game)) from);
      cbn; rewrite ?Hsel; repeat split.
  - destruct H as [H|H]; [congruence|].
    cbn. unfold rollbackMove. rewrite H, Hsel. repeat split. exact H.
Qed.

Lemma localMakeMove_rollbackMove_witness :
  restoredBy (storeAt 7)
             (rollbackMove (fst (localMakeMove (mkMove 2 0 3 1) (storeAt 7)))).
Proof.
  apply (localMakeMove_rollbackMove (mkMove 2 0 3 1) (storeAt 7)).
  left. discriminate.
Defined.

Section Transform.

Lemma replaceNth_length {A} (n : nat) (x : A) (l : list A) :
  List.length (replaceNth n x l) = List.length l.
Proof.
  revert n. induction l as [|h t IH]; intros [|n]; cbn; auto.
Qed.

Lemma nth_replaceNth {A} (n : nat) (x d : A) (l : list A) :
  (n < List.length l)%nat -> nth n (replaceNth n x l) d = x.
Proof.
  revert n. induction l as [|h t IH]; intros [|n] H; cbn in *;
    try lia; auto. apply IH. lia.
Qed.

Lemma In_replaceNth {A} (n : nat) (x y : A) (l : list A) :
  In y (replaceNth n x l) -> y = x \/ In y l.
Proof.
  revert n. induction l as [|h t IH]; intros [|n]; cbn; try tauto.
  - intros [H|H]; auto.
  - intros [H|H]; auto. destruct (IH _ H); auto.
Qed.

Lemma is8x8_spec (b : Board) :
  is8x8 b = true <->
  List.length b = 8%nat
  /\ forall row, In row b -> List.length row = 8%nat /\ pieceRow row = true.
Proof.
  unfold is8x8. rewrite andb_true_iff, Nat.eqb_eq, forallb_forall.
  split; intros [Hl Hr]; (split; [exact Hl|]); intros row Hin;
    specialize (Hr row Hin).
  - apply andb_prop in Hr as [H1 H2]. now apply Nat.eqb_eq in H1.
  - destruct Hr as [H1 H2]. apply andb_true_intro. split; [|exact H2].
    now apply Nat.eqb_eq.
Qed.

(** Writing a piece on a square of a decoded board. *)
Lemma set_8x8 (b : Board) (r c : Z) (p : Piece) :
  is8x8 b = true -> inBoard r c = true ->
  exists b', set b r c (Some p) = Ok b'
             /\ is8x8 b' = true /\ pieceAt b' r c = p.
Proof.
  intros H8 Hin. pose proof H8 as H8'.
  apply is8x8_spec in H8 as [Hlen Hrows].
  apply inBoard_spec in Hin as Hrc.
  unfold set, zlen. rewrite Hlen.
  replace ((r <? 0) || (Z.of_nat 8 <=? r)) with false
    by (symmetry; apply orb_false_iff; split;
          [apply Z.ltb_ge | apply Z.leb_gt]; lia).
  set (row := nth (Z.to_nat r) b []).
  assert (Hrow : In row b) by (apply nth_In; lia).
  destruct (Hrows _ Hrow) as [Hrl Hrp].
  assert (Hset : rowSet row c (Some p)
                 = replaceNth (Z.to_nat c) (SPiece p) row).
  { unfold rowSet, zlen. rewrite Hrl.
    replace (c <? 0) with false by (symmetry; apply Z.ltb_ge; lia).
    replace (c <? Z.of_nat 8) with true by (symmetry; apply Z.ltb_lt; lia).
    reflexivity. }
  rewrite Hset.
  set (b' := replaceNth (Z.to_nat r) (replaceNth (Z.to_nat c) (SPiece p) row) b).
  assert (H8b : is8x8 b' = true).
  { apply is8x8_spec. split.
    - unfold b'. now rewrite replaceNth_length.
    - intros row' Hin'. apply In_replaceNth in Hin' as [->|Hin']; [|auto].
      split; [now rewrite replaceNth_length|].
      unfold pieceRow in *. rewrite forallb_forall in *.
      intros sl Hsl. apply In_replaceNth in Hsl as [->|Hsl]; auto. }
  exists b'. split; [reflexivity|]. split; [exact H8b|].
  assert (Hr_lt : (Z.to_nat r < List.length b)%nat) by lia.
  assert (Hc_lt : (Z.to_nat c < List.length row)%nat) by lia.
  assert (Hr_in : (r <? 0) || (Z.of_nat 8 <=? r) = false)
    by (apply orb_false_iff; split; [apply Z.ltb_ge | apply Z.leb_gt]; lia).
  assert (Hc_in : (c <? 0) || (Z.of_nat 8 <=? c) = false)
    by (apply orb_false_iff; split; [apply Z.ltb_ge | apply Z.leb_gt]; lia).
  pose proof (get_8x8 b' H8b r c Hin) as Hget.
  unfold get, zlen in Hget. unfold b' in Hget at 1 2.
  rewrite replaceNth_length, Hlen, Hr_in in Hget.
  cbv zeta in Hget. unfold b' in Hget at 1 2.
  rewrite (nth_replaceNth (Z.to_nat r) _ [] b Hr_lt) in Hget.
  rewrite replaceNth_length, Hrl, Hc_in in Hget.
  rewrite (nth_replaceNth (Z.to_nat c) _ SHole row Hc_lt) in Hget.
  cbn [slotValue] in Hget. injection Hget as Hget. symmetry. exact Hget.
Qed.

(** The board transform on a decoded board: it goes through and the
    destination holds the moved piece, promoted. *)
Lemma applyMove_8x8 (b : Board) (from : MoveInfo) :
  is8x8 b = true ->
  inBoard (fromRow from) (fromCol from) = true ->
  inBoard (toRow from) (toCol from) = true ->
  exists b', applyMove b from = Ok b'
    /\ is8x8 b' = true
    /\ Some (pieceAt b' (toRow from) (toCol from))
       = promoted (Some (pieceAt b (fromRow from) (fromCol from))) (toRow from).
Proof.
  intros H8 Hfrom Hto. unfold applyMove.
  rewrite (get_8x8 b H8 _ _ Hfrom). cbn [bind].
  destruct (set_8x8 b _ _ Empty H8 Hfrom) as [b1 [Hs1 [H81 _]]].
  rewrite Hs1. cbn [bind].
  assert (Hmid : exists b2,
    (if Z.abs (toRow from - fromRow from) =? 2
     then set b1 ((fromRow from + toRow from) / 2)
                 ((fromCol from + toCol from) / 2) (Some Empty)
     else Ok b1) = Ok b2 /\ is8x8 b2 = true).
  { destruct (Z.abs (toRow from - fromRow from) =? 2).
    - assert (Hc : inBoard ((fromRow from + toRow from) / 2)
                           ((fromCol from + toCol from) / 2) = true).
      { apply inBoard_spec in Hfrom, Hto. apply inBoard_spec.
        pose proof (Z.div_mod (fromRow from + toRow from) 2 ltac:(lia)).
        pose proof (Z.mod_pos_bound (fromRow from + toRow from) 2 ltac:(lia)).
        pose proof (Z.div_mod (fromCol from + toCol from) 2 ltac:(lia)).
        pose proof (Z.mod_pos_bound (fromCol from + toCol from) 2 ltac:(lia)).
        lia. }
      destruct (set_8x8 b1 _ _ Empty H81 Hc) as [b2 [Hs2 [H82 _]]].
      now exists b2.
    - now exists b1. }
  destruct Hmid as [b2 [Hs2 H82]]. rewrite Hs2. cbn [bind].
  assert (Hq : exists q,
    promoted (Some (pieceAt b (fromRow from) (fromCol from))) (toRow from)
    = Some q).
  { unfold promoted.
    destruct (strictEq _ Red && (toRow from =? 7)); [now eexists|].
    destruct (strictEq _ Black && (toRow from =? 0)); now eexists. }
  destruct Hq as [q Hq]. rewrite Hq.
  destruct (set_8x8 b2 _ _ q H82 Hto) as [b3 [Hs3 [H83 Hat]]].
  exists b3. split; [exact Hs3|]. split; [exact H83|]. now rewrite Hat.
Qed.

Lemma split_noSlash (s : string) : noSlash s -> split s = [s].
Proof.
  unfold noSlash. induction s as [|ch rest IH]; [reflexivity|].
  cbn [allChars split]. intros H. apply andb_prop in H as [H1 H2].
  apply negb_true_iff in H1. rewrite H1, (IH H2). reflexivity.
Qed.

Lemma split_app_slash (x t : string) :
  noSlash x -> split (x ++ String slash t) = x :: split t.
Proof.
  unfold noSlash. induction x as [|ch rest IH]; [reflexivity|].
  cbn [allChars split String.append]. intros H. apply andb_prop in H as [H1 H2].
  apply negb_true_iff in H1. rewrite H1, (IH H2). reflexivity.
Qed.

Lemma split_join (rows : list string) :
  rows <> [] -> Forall noSlash rows -> split (join "/" rows) = rows.
Proof.
  induction rows as [|x rest IH]; [congruence|].
  intros _ HF. inversion HF as [|? ? Hx Hrest]; subst.
  destruct rest as [|y rest'].
  - cbn [join]. now apply split_noSlash.
  - change (join "/" (x :: y :: rest'))
      with (x ++ String slash (join "/" (y :: rest')))%string.
    rewrite (split_app_slash _ _ Hx), IH; [reflexivity | discriminate | exact Hrest].
Qed.

Lemma rowToString_pieceRow (row : Row) :
  pieceRow row = true ->
  noSlash (rowToString row) /\ parseRow (rowToString row) = row.
Proof.
  unfold pieceRow, rowToString, noSlash.
  induction row as [|sl rest IH]; [now split|].
  cbn [forallb map]. intros H. apply andb_prop in H as [H1 H2].
  destruct sl as [| |p]; try discriminate.
  rewrite join_empty_cons. destruct (IH H2) as [IH1 IH2].
  destruct p; cbn; rewrite IH1, IH2; now split.
Qed.

(** Encoding a decoded board and decoding it again gives the board. *)
Lemma parseBoardState_boardToString (b : Board) :
  is8x8 b = true -> parseBoardState (boardToString b) = b.
Proof.
  intros H8. apply is8x8_spec in H8 as [Hlen Hrows].
  unfold parseBoardState, boardToString. rewrite split_join.
  - rewrite map_map. rewrite <- (map_id b) at 2. apply map_ext_in.
    intros row Hin. now apply rowToString_pieceRow, Hrows.
  - destruct b; [discriminate | discriminate].
  - apply Forall_forall. intros r Hr. apply in_map_iff in Hr as [row [<- Hin]].
    now apply rowToString_pieceRow, Hrows.
Qed.

Lemma promotionOutcome_promoted (piece : Piece) (toRow : Z) (q : Piece) :
  promoted (Some piece) toRow = Some q -> promotionOutcome piece toRow q.
Proof.
  unfold promotionOutcome, promoted. intros H.
  destruct piece; cbn in *;
    try (injection H as <-; repeat split; intros; congruence).
  - destruct (toRow =? 7) eqn:E; injection H as <-;
      [apply Z.eqb_eq in E | apply Z.eqb_neq in E];
      cbn; rewrite ?E; repeat split; intros; congruence.
  - destruct (toRow =? 0) eqn:E; injection H as <-;
      [apply Z.eqb_eq in E | apply Z.eqb_neq in E];
      cbn; rewrite ?E; repeat split; intros; congruence.
Qed.

(** A well-formed board string decodes to an 8x8 board. *)
Lemma parseRow_shape (r : string) :
  List.length (parseRow r) = String.length r /\ pieceRow (parseRow r) = true.
Proof.
  unfold pieceRow. induction r as [|ch rest [IH1 IH2]]; [now split|].
  cbn. now rewrite IH1, IH2.
Qed.

Lemma parseBoardState_wellFormed (s : string) :
  wellFormedBoardString s = true -> is8x8 (parseBoardState s) = true.
Proof.
  unfold wellFormedBoardString, wellFormedOver, parseBoardState.
  intros H. apply andb_prop in H as [Hlen Hrows].
  apply Nat.eqb_eq in Hlen. rewrite forallb_forall in Hrows.
  apply is8x8_spec. split; [now rewrite length_map|].
  intros row Hin. apply in_map_iff in Hin as [r [<- Hr]].
  specialize (Hrows r Hr). apply andb_prop in Hrows as [Hl _].
  apply Nat.eqb_eq in Hl. destruct (parseRow_shape r) as [H1 H2].
  split; [congruence | exact H2].
Qed.

End Transform.

(** Outside the board the transform behaves as the arrays do: a source row
    that does not exist throws after the snapshot is taken; a destination
    column past the end of its row grows the row, the hole in between
    printing as nothing. *)
Example localMakeMove_throws_off_board :
  localMakeMove (mkMove 8 0 7 1) (storeAt 3)
  = (setPreviousState
       (Some (mkPrevious [snapshot 3] (Some (snapshot 3)))) (storeAt 3),
     Threw).
Proof. reflexivity. Qed.

Example localMakeMove_grows_row :
  option_map boardState
    (selectedGame (fst (localMakeMove (mkMove 2 0 3 9) (storeAt 3))))
  = Some "r.r.r.r./.r.r.r.r/..r.r.r./........r/......../.b.b.b.b/b.b.b.b./.b.b.b.b"%string.
Proof. reflexivity. Qed.

(** C7: the optimistic transform writes on the destination square a red
    king for a red man arriving on row 7 and a black king for a black man
    arriving on row 0, whether the move is a step or a jump; a king stays
    the king it was; the piece written is [promoted] of the moved piece and
    the destination row, nothing else, and the transform goes through for
    every move between squares of the board. *)
Theorem localMakeMove_promotion
    (s : GameStore) (game : CheckersGame) (from : MoveInfo) (piece : Piece) :
  selectedGame s = Some game ->
  is8x8 (parseBoardState (boardState game)) = true ->
  onBoard (mkSquare (fromRow from) (fromCol from)) ->
  onBoard (mkSquare (toRow from) (toCol from)) ->
  pieceAt (parseBoardState (boardState game)) (fromRow from) (fromCol from)
  = piece ->
  promotesOnArrival s from piece.
Proof.
  intros Hsel H8 Hfrom Hto Hpiece.
  apply inBoard_spec in Hfrom, Hto. cbn [sq_row sq_col] in Hfrom, Hto.
  destruct (applyMove_8x8 _ from H8 Hfrom Hto) as [b' [Happ [H8' Hat]]].
  rewrite Hpiece in Hat.
  unfold promotesOnArrival, localMakeMove. rewrite Hsel, Happ.
  eexists. eexists. exists (pieceAt b' (toRow from) (toCol from)).
  split; [reflexivity|]. split; [reflexivity|]. split.
  - cbn [boardState]. unfold getPiece.
    rewrite (parseBoardState_boardToString b' H8').
    unfold inBoard in Hto. rewrite Hto. now apply get_8x8.
  - apply promotionOutcome_promoted. now rewrite Hat.
Qed.

Lemma localMakeMove_promotion_witness :
  promotesOnArrival promotionStore (mkMove 5 3 7 5) Red.
Proof.
  refine (localMakeMove_promotion promotionStore _ (mkMove 5 3 7 5) Red
            eq_refl _ _ _ _).
  - reflexivity.
  - cbv; repeat split; discriminate.
  - cbv; repeat split; discriminate.
  - reflexivity.
Defined.

(** A jump onto the back rank and a step onto it, as board strings.  The
    jump is the engine's only legal move for that man; the step is applied
    although the engine freezes that man (the transform does not ask). *)
Example calculateValidMoves_onto_back_rank :
  calculateValidMoves
    (parseBoardState
       "......../......../......../......../......../...r..../.r..b.../........")
    PRed 5 3 (Some Red)
  = Ok [mkSquare 7 5].
Proof. reflexivity. Qed.

Example localMakeMove_capture_promotes :
  option_map boardState
    (selectedGame (fst (localMakeMove (mkMove 5 3 7 5) promotionStore)))
  = Some "......../......../......../......../......../......../.r....../.....R.."%string.
Proof. reflexivity. Qed.

Example localMakeMove_step_promotes :
  option_map boardState
    (selectedGame (fst (localMakeMove (mkMove 6 1 7 0) promotionStore)))
  = Some "......../......../......../......../......../...r..../....b.../R......."%string.
Proof. reflexivity. Qed.

(* ================================================================== *)
(** ** Timeout arbiter *)

Section ArbiterProofs.

Lemma timeoutEffect_blocked (t : Tick) (a : Arbiter) :
  timeWinClaimInProgress a = true -> timeoutEffect t a = (a, []).
Proof.
  intros Hflag. unfold timeoutEffect.
  destruct (selectedGame (tick_store t)); [|reflexivity].
  destruct (negb (GameStatus_eqb _ Active)); [reflexivity|].
  destruct (negb (tick_timeControl t)); [reflexivity|].
  destruct (PlayerColor_eqb _ Spectator); [reflexivity|].
  rewrite Hflag. cbn [negb]. now rewrite !andb_false_r.
Qed.

Lemma arbiterStep_consistent (e : ArbiterEvent) (a : Arbiter) :
  arbiterConsistent a -> arbiterConsistent (fst (arbiterStep e a)).
Proof.
  unfold arbiterConsistent. intros Ha.
  destruct e as [t| |ms|]; cbn [arbiterStep].
  - destruct (timeWinClaimInProgress a) eqn:Hflag.
    + rewrite (timeoutEffect_blocked t a Hflag). cbn. now rewrite Hflag.
    + destruct Ha as [Hu Ht]. unfold timeoutEffect.
      destruct (selectedGame (tick_store t)); [|cbn; now rewrite Hflag].
      destruct (negb (GameStatus_eqb _ Active)); [cbn; now rewrite Hflag|].
      destruct (negb (tick_timeControl t)); [cbn; now rewrite Hflag|].
      destruct (PlayerColor_eqb _ Spectator); [cbn; now rewrite Hflag|].
      rewrite Hflag.
      destruct (_ && negb _ && negb false); [cbn; rewrite Hu, Ht; reflexivity|].
      destruct (_ && negb false); [cbn; rewrite Hu, Ht; reflexivity|].
      cbn. now rewrite Hflag.
  - destruct (arb_unsettled a) as [|n] eqn:Hu; [cbn; now rewrite Hu|].
    cbn. destruct (timeWinClaimInProgress a).
    + rewrite length_app. cbn. lia.
    + destruct Ha; discriminate.
  - cbn. exact Ha.
  - destruct (removeFirstDue (arb_now a) (arb_timers a)) as [rest|] eqn:Hr;
      [|cbn; exact Ha].
    cbn. destruct (timeWinClaimInProgress a).
    + destruct (arb_timers a) as [|due [|due' more]]; cbn in *.
      * discriminate.
      * destruct (due <=? arb_now a); [|discriminate].
        injection Hr as <-. split; [lia | reflexivity].
      * lia.
    + destruct Ha as [_ Ht]. rewrite Ht in Hr. discriminate.
Qed.

Lemma arbiterRun_consistent (es : list ArbiterEvent) (a : Arbiter) :
  arbiterConsistent a -> arbiterConsistent (fst (arbiterRun es a)).
Proof.
  revert a. induction es as [|e rest IH]; intros a Ha; [exact Ha|].
  cbn [arbiterRun]. pose proof (arbiterStep_consistent e a Ha) as H1.
  destruct (arbiterStep e a) as [a1 out1]. cbn [fst] in H1.
  specialize (IH a1 H1). destruct (arbiterRun rest a1) as [a2 out2].
  exact IH.
Qed.

Lemma elapsed_nonneg (es : list ArbiterEvent) : 0 <= elapsed es.
Proof.
  induction es as [|e rest IH]; cbn; [lia|]. destruct e; lia.
Qed.

Lemma removeFirstDue_none (now : Z) (timers : list Z) :
  Forall (fun due => now < due) timers -> removeFirstDue now timers = None.
Proof.
  induction 1 as [|due rest Hd _ IH]; [reflexivity|].
  cbn. replace (due <=? now) with false by (symmetry; apply Z.leb_gt; lia).
  now rewrite IH.
Qed.

(** While the flag is up and no reset timeout can be due, nothing is
    issued and the flag stays up. *)
Lemma arbiterRun_quiet (limit : Z) (es : list ArbiterEvent) (a : Arbiter) :
  timeWinClaimInProgress a = true ->
  Forall (fun due => limit <= due) (arb_timers a) ->
  arb_now a + cooldownMs >= limit ->
  arb_now a + elapsed es < limit ->
  snd (arbiterRun es a) = []
  /\ timeWinClaimInProgress (fst (arbiterRun es a)) = true.
Proof.
  revert a. induction es as [|e rest IH]; intros a Hflag Hdue Hlow Hup;
    [now split|].
  cbn [arbiterRun].
  assert (Hstep : exists a1, arbiterStep e a = (a1, [])
            /\ timeWinClaimInProgress a1 = true
            /\ Forall (fun due => limit <= due) (arb_timers a1)
            /\ arb_now a1 + cooldownMs >= limit
            /\ arb_now a1 + elapsed rest < limit).
  { pose proof (elapsed_nonneg rest) as Hn.
    destruct e as [t| |ms|]; cbn [arbiterStep elapsed] in *.
    - exists a. rewrite (timeoutEffect_blocked t a Hflag). auto.
    - destruct (arb_unsettled a) as [|n]; [exists a; auto|].
      eexists. split; [reflexivity|]. cbn. repeat split; auto.
      apply Forall_app. split; [exact Hdue|]. constructor; [lia|constructor].
    - eexists. split; [reflexivity|]. cbn. repeat split; auto; lia.
    - rewrite removeFirstDue_none.
      + exists a. auto.
      + revert Hdue. apply Forall_impl. intros due Hd. lia. }
  destruct Hstep as [a1 [Hs [Hf1 [Hd1 [Hl1 Hu1]]]]]. rewrite Hs.
  destruct (IH a1 Hf1 Hd1 Hl1 Hu1) as [Hout Hfl].
  destruct (arbiterRun rest a1) as [a2 out2]. cbn in *. now subst.
Qed.

Lemma idleArbiter_consistent (now : Z) : arbiterConsistent (idleArbiter now).
Proof. cbn. auto. Qed.

Lemma armsExclusive_holds : armsExclusive.
Proof.
  intros t a. unfold timeoutEffect.
  destruct (selectedGame (tick_store t)); [|now left].
  destruct (negb (GameStatus_eqb _ Active)); [now left|].
  destruct (negb (tick_timeControl t)); [now left|].
  destruct (PlayerColor_eqb _ Spectator); [now left|].
  destruct (_ && negb _ && negb _).
  - cbn [snd]. unfold resign_sends.
    destruct (truthy (selectedGameId (tick_store t))) as [gid|]; [|now left].
    destruct (truthy (tick_playerId t)) as [pid|]; [|now left].
    right; left. now exists gid, pid.
  - destruct (_ && negb _); [|now left].
    right; right. eexists. reflexivity.
Qed.

End ArbiterProofs.

(** C5: in an active timed game, once the arbiter (idle, after any
    history) sees the local player's clock at zero and the opponent's
    positive, that tick issues one resign mutation, and whatever ticks,
    settlements and timeouts follow while less than the cool-down has
    elapsed issue nothing more, neither a resign nor a claim; and no tick
    ever fires both arms. *)
Theorem timeoutEffect_resigns_once
    (history later : list ArbiterEvent) (start : Z) (t : Tick)
    (game : CheckersGame) (gid : string) :
  timeWinClaimInProgress (fst (arbiterRun history (idleArbiter start))) = false ->
  selectedGame (tick_store t) = Some game ->
  status game = Active ->
  tick_timeControl t = true ->
  truthy (selectedGameId (tick_store t)) = Some gid ->
  localClockExpired t ->
  elapsed later < cooldownMs ->
  (exists pid,
      truthy (tick_playerId t) = Some pid
      /\ snd (arbiterRun (EvTick t :: later)
                         (fst (arbiterRun history (idleArbiter start))))
         = [ResignMutation gid pid])
  /\ armsExclusive.
Proof.
  intros Hflag Hsel Hact Htimed Hgid Hexp Hlater.
  split; [|exact armsExclusive_holds].
  pose proof (arbiterRun_consistent history _ (idleArbiter_consistent start))
    as Hcons.
  set (a := fst (arbiterRun history (idleArbiter start))) in *.
  unfold arbiterConsistent in Hcons. rewrite Hflag in Hcons.
  destruct Hcons as [Hu Ht].
  assert (Hpid : exists pid, truthy (tick_playerId t) = Some pid).
  { unfold localClockExpired, pagePlayerColor in Hexp. rewrite Hsel in Hexp.
    destruct (truthy (tick_playerId t)) as [pid|]; [now exists pid|].
    contradiction. }
  destruct Hpid as [pid Hpid]. exists pid. split; [exact Hpid|].
  assert (Hfire : timeoutEffect t a
            = (mkArbiter true (arb_now a) (S (arb_unsettled a)) (arb_timers a),
               [ResignMutation gid pid])).
  { unfold timeoutEffect. rewrite Hsel, Hact, Htimed. cbn [GameStatus_eqb negb].
    unfold localClockExpired in Hexp. unfold resign_sends. rewrite Hgid, Hpid.
    destruct (pagePlayerColor (tick_playerId t) (tick_store t));
      cbn [PlayerColor_eqb]; [| |contradiction]; destruct Hexp as [Hmy Hopp];
      rewrite Hflag.
    - replace (tick_redTimeMs t <=? 0) with true
        by (symmetry; now apply Z.leb_le).
      replace (tick_blackTimeMs t <=? 0) with false
        by (symmetry; apply Z.leb_gt; lia).
      reflexivity.
    - replace (tick_blackTimeMs t <=? 0) with true
        by (symmetry; now apply Z.leb_le).
      replace (tick_redTimeMs t <=? 0) with false
        by (symmetry; apply Z.leb_gt; lia).
      reflexivity. }
  cbn [arbiterRun arbiterStep]. rewrite Hfire.
  destruct (arbiterRun_quiet (arb_now a + cooldownMs) later
              (mkArbiter true (arb_now a) (S (arb_unsettled a)) (arb_timers a)))
    as [Hquiet _]; cbn; try lia; auto.
  { rewrite Ht. constructor. }
  destruct (arbiterRun later _) as [a2 out2]. cbn in Hquiet. now subst.
Qed.

Lemma timeoutEffect_resigns_once_witness :
  (exists pid,
      truthy (tick_playerId redFlagged) = Some pid
      /\ snd (arbiterRun
                (EvTick redFlagged ::
                   [EvTick redFlagged; EvElapse 1000; EvSettled;
                    EvTick redFlagged; EvElapse 999; EvTimeout;
                    EvTick redFlagged])
                (fst (arbiterRun [] (idleArbiter 0))))
         = [ResignMutation "g1" pid])
  /\ armsExclusive.
Proof.
  apply (timeoutEffect_resigns_once [] _ 0 redFlagged (snapshot 12) "g1");
    try reflexivity.
  cbv; repeat split; discriminate.
Defined.

(** Once the cool-down has run out the arbiter fires again. *)
Example timeoutEffect_fires_again_after_cooldown :
  snd (arbiterRun [EvTick redFlagged; EvSettled; EvElapse 2000; EvTimeout;
                   EvTick redFlagged] (idleArbiter 0))
  = [ResignMutation "g1" "alice"; ResignMutation "g1" "alice"].
Proof. reflexivity. Qed.

(** With the opponent's clock out instead, the claim arm fires. *)
Example timeoutEffect_claims_win :
  snd (timeoutEffect (mkTick (Some "alice"%string) (storeAt 12) true 5000 0)
                     (idleArbiter 0))
  = [ClaimTimeWinMutation "g1"].
Proof. reflexivity. Qed.

(* ================================================================== *)
(** ** Premove queue *)

(** A call of [makeMove] that returns false leaves the selected game as it
    found it, provided the callbacks that run while the mutation is
    awaited do. *)
Lemma makeMove_failure_keeps_game
    (playerId : option string) (env : MoveEnv) (from : MoveInfo) (s : GameStore) :
  (forall x, selectedGame (env_duringSend env x) = selectedGame x) ->
  res_success (makeMove playerId env from s) = false ->
  selectedGame (res_store (makeMove playerId env from s)) = selectedGame s.
Proof.
  intros Hquiet. unfold makeMove.
  destruct (selectedGame s) as [game|] eqn:Hsel; [|cbn; auto].
  destruct (truthy (selectedGameId s)) as [gid|]; [|cbn; auto].
  destruct (truthy playerId) as [pid|]; [|cbn; auto].
  destruct (isMoving s); [cbn; auto|].
  destruct (env_send env) as [message|].
  - cbn. intros _. rewrite Hquiet. cbn. exact Hsel.
  - destruct (confirmLoop _ _ _ _ _ _ _). cbn. discriminate.
Qed.

(** C3 as stated fails: a premove the engine holds illegal on the board
    current at the turn flip (the piece is frozen by a forced capture
    elsewhere) is still sent as a move mutation. *)
Lemma premove_illegal_still_submitted :
  let pm := mkMove 2 5 3 4 in
  let flipped := premoveEffect (Some "alice"%string) premoveStore
                   (mkPremovePage (Some pm) false 0) in
  let fired := premoveTimeout (Some "alice"%string) acceptingEnv premoveStore
                 flipped in
  isLegalMove captureBoard TurnRed PRed pm = Ok false
  /\ pg_scheduled flipped = 1%nat
  /\ option_map res_sent (snd fired)
     = Some [mkSent (MakeMoveMutation "g1" 2 5 3 4 "alice") true].
Proof. repeat split. Qed.

(** C3 (amended): a second premove replaces the first; when the turn
    flips to the local player in an active game the execution is
    scheduled, and when it runs the slot is emptied and the pending
    premove is handed to [makeMove] as it is, with no legality check of
    the client's own; if [makeMove] returns false the selected game, and
    with it the board, is the one before the call. *)
Theorem premove_executes_on_turn_flip
    (playerId : option string) (env : MoveEnv) (s s' : GameStore)
    (pg : PremovePage) (a b : MoveInfo) (game : CheckersGame) :
  prevIsMyTurnForPremove pg = false ->
  pageIsMyTurn playerId s = true ->
  selectedGame s = Some game ->
  status game = Active ->
  (forall x, selectedGame (env_duringSend env x) = selectedGame x) ->
  premoveLifecycle playerId env s s' pg a b.
Proof.
  intros Hprev Hturn Hsel Hact Hquiet.
  unfold premoveLifecycle, premoveEffect, premoveTimeout, queuePremove.
  cbn [pg_premove prevIsMyTurnForPremove pg_scheduled].
  rewrite Hprev, Hturn, Hsel, Hact. cbn.
  repeat split. now apply makeMove_failure_keeps_game.
Qed.

Lemma premove_executes_on_turn_flip_witness :
  premoveLifecycle (Some "alice"%string) rejectingEnv premoveStore premoveStore
                   (mkPremovePage None false 0)
                   (mkMove 2 1 4 3) (mkMove 2 5 3 4).
Proof.
  refine (premove_executes_on_turn_flip (Some "alice"%string) rejectingEnv
            premoveStore premoveStore (mkPremovePage None false 0)
            (mkMove 2 1 4 3) (mkMove 2 5 3 4) _ eq_refl eq_refl eq_refl
            eq_refl _).
  intros x. reflexivity.
Defined.

(** The rejected premove: nothing changes but the error message. *)
Example premove_rejected_leaves_board :
  let fired := premoveTimeout (Some "alice"%string) rejectingEnv premoveStore
                 (mkPremovePage (Some (mkMove 2 5 3 4)) true 1) in
  pg_premove (fst fired) = None
  /\ option_map res_success (snd fired) = Some false
  /\ option_map (fun r => selectedGame (res_store r)) (snd fired)
     = Some (selectedGame premoveStore)
  /\ option_map (fun r => isMoving (res_store r)) (snd fired) = Some false.
Proof. repeat split. Qed.

(* ================================================================== *)
(** * Further properties *)

(** ** types/game.ts: ratings *)

(** X1: a higher rating never gets a lower tier. *)
Theorem getRatingTier_monotone (r1 r2 : Z) :
  r1 <= r2 -> tierRank (getRatingTier r1) <= tierRank (getRatingTier r2).
Proof.
  intros H. unfold getRatingTier.
  destruct (r1 <? 1000) eqn:A1; destruct (r2 <? 1000) eqn:B1;
  destruct (r1 <? 1400) eqn:A2; destruct (r2 <? 1400) eqn:B2;
  destruct (r1 <? 1800) eqn:A3; destruct (r2 <? 1800) eqn:B3;
  destruct (r1 <? 2200) eqn:A4; destruct (r2 <? 2200) eqn:B4;
  cbn; try lia;
  repeat match goal with
         | H : (_ <? _) = true |- _ => apply Z.ltb_lt in H
         | H : (_ <? _) = false |- _ => apply Z.ltb_ge in H
         end; lia.
Qed.

Lemma getRatingTier_monotone_witness :
  tierRank (getRatingTier 999) <= tierRank (getRatingTier 1400).
Proof. apply getRatingTier_monotone. discriminate. Defined.

(** X2: [getPlayerRating] answers 1200 without stats; with stats it reads
    the rating of the category the time-control table gives (blitz when no
    time control is chosen), a stored 0 reading as 1200; it never answers
    0. *)
Theorem getPlayerRating_spec
    (stats : option PlayerStats) (timeControl : option TimeControl) :
  getPlayerRating stats timeControl <> 0
  /\ getPlayerRating stats timeControl =
     match stats with
     | None => 1200
     | Some st =>
         let category :=
           match timeControl with
           | Some tc => tc_category (TIME_CONTROLS tc)
           | None => Blitz
           end in
         if ratingOf category st =? 0 then 1200 else ratingOf category st
     end.
Proof.
  unfold getPlayerRating, orElse.
  destruct stats as [st|]; [|split; [discriminate | reflexivity]].
  destruct timeControl as [[| | | |]|]; cbn;
    match goal with
    | |- context [?x =? 0] => destruct (x =? 0) eqn:E
    end;
    split; try reflexivity; try discriminate;
    apply Z.eqb_neq in E; exact E.
Qed.

(** ** types/game.ts: reading a square of a board string *)

Section GetPiece.

Lemma join_split (s : string) : join "/" (split s) = s.
Proof.
  induction s as [|ch rest IH]; [reflexivity|].
  cbn [split]. destruct (Ascii.eqb ch slash) eqn:Hs.
  - apply Ascii.eqb_eq in Hs. subst ch.
    rewrite join_empty_field by apply split_nonempty.
    cbn. now rewrite IH.
  - destruct (split rest) as [|r rs] eqn:Hsp.
    + exfalso. exact (split_nonempty _ Hsp).
    + rewrite join_cons_char. now rewrite IH.
Qed.

Lemma get_join (rows : list string) (r c : nat) :
  (r < List.length rows)%nat ->
  (c < String.length (nth r rows EmptyString))%nat ->
  String.get (rowOffset rows r + c) (join "/" rows)
  = String.get c (nth r rows EmptyString).
Proof.
  revert r. induction rows as [|x rest IH]; intros r Hr Hc; [cbn in Hr; lia|].
  destruct r as [|r'].
  - cbn [rowOffset nth Nat.add] in *. destruct rest as [|y rest'].
    + reflexivity.
    + change (join "/" (x :: y :: rest'))
        with (x ++ String slash (join "/" (y :: rest')))%string.
      symmetry. now apply append_correct1.
  - cbn [nth List.length] in *. destruct rest as [|y rest']; [cbn in Hr; lia|].
    change (join "/" (x :: y :: rest'))
      with (x ++ String slash (join "/" (y :: rest')))%string.
    change (rowOffset (x :: y :: rest') (S r'))
      with (String.length x + 1 + rowOffset (y :: rest') r')%nat.
    replace (String.length x + 1 + rowOffset (y :: rest') r' + c)%nat
      with (S (rowOffset (y :: rest') r' + c) + String.length x)%nat by lia.
    rewrite <- append_correct2. cbn [String.get].
    apply IH; [lia | exact Hc].
Qed.

Lemma rowOffset_eights (rows : list string) (r : nat) :
  (r < List.length rows)%nat ->
  (forall x, In x rows -> String.length x = 8%nat) ->
  rowOffset rows r = (9 * r)%nat.
Proof.
  revert r. induction rows as [|x rest IH]; intros r Hr H8; [cbn in Hr; lia|].
  destruct r as [|r']; [reflexivity|].
  cbn [rowOffset]. rewrite (H8 x (or_introl eq_refl)).
  rewrite IH; [lia | cbn in Hr; lia | intros y Hy; apply H8; now right].
Qed.

Lemma parseRow_nth (row : string) (c : nat) (ch : ascii) :
  String.get c row = Some ch ->
  nth c (parseRow row) SHole = SPiece (parseChar ch).
Proof.
  revert c. induction row as [|a rest IH]; intros c H; [discriminate|].
  destruct c as [|c']; cbn in *; [now injection H as -> | now apply IH].
Qed.

Lemma get_some (row : string) (c : nat) :
  (c < String.length row)%nat -> exists ch, String.get c row = Some ch.
Proof.
  revert c. induction row as [|a rest IH]; intros c H; [cbn in H; lia|].
  destruct c as [|c']; cbn in *; [now eexists | apply IH; lia].
Qed.

Lemma wellFormed_rows (s : string) :
  wellFormedBoardString s = true ->
  List.length (split s) = 8%nat
  /\ forall x, In x (split s) -> String.length x = 8%nat.
Proof.
  unfold wellFormedBoardString, wellFormedOver. intros H.
  apply andb_prop in H as [Hl Hr]. apply Nat.eqb_eq in Hl.
  split; [exact Hl|]. rewrite forallb_forall in Hr. intros x Hx.
  specialize (Hr x Hx). apply andb_prop in Hr as [Hr _].
  now apply Nat.eqb_eq in Hr.
Qed.

End GetPiece.

(** X3: on a well-formed board string, [getPiece] on a square of the board
    decodes the character at index [9 * row + col] of the string. *)
Theorem getPiece_reads_character (boardState : string) (row col : Z) :
  wellFormedBoardString boardState = true ->
  onBoard (mkSquare row col) ->
  exists ch,
    String.get (Z.to_nat (9 * row + col)) boardState = Some ch
    /\ getPiece boardState row col = Ok (Some (parseChar ch)).
Proof.
  intros Hwf [Hr Hc]. cbn [sq_row sq_col] in Hr, Hc.
  destruct (wellFormed_rows _ Hwf) as [Hlen H8].
  set (r := Z.to_nat row). set (c := Z.to_nat col).
  assert (Hrl : (r < List.length (split boardState))%nat) by (unfold r; lia).
  assert (Hrow8 : String.length (nth r (split boardState) EmptyString) = 8%nat)
    by (apply H8, nth_In, Hrl).
  assert (Hcl : (c < String.length (nth r (split boardState) EmptyString))%nat)
    by (unfold c; lia).
  destruct (get_some _ _ Hcl) as [ch Hch]. exists ch. split.
  - rewrite <- (join_split boardState) at 1.
    replace (Z.to_nat (9 * row + col))
      with (rowOffset (split boardState) r + c)%nat
      by (rewrite (rowOffset_eights _ _ Hrl H8); unfold r, c; lia).
    now rewrite get_join.
  - unfold getPiece.
    replace ((0 <=? row) && (row <? 8) && (0 <=? col) && (col <? 8)) with true
      by (symmetry; rewrite !andb_true_iff, !Z.leb_le, !Z.ltb_lt; lia).
    unfold get, parseBoardState, zlen. rewrite length_map, Hlen.
    replace ((row <? 0) || (Z.of_nat 8 <=? row)) with false
      by (symmetry; apply orb_false_iff; split;
            [apply Z.ltb_ge | apply Z.leb_gt]; lia).
    cbv zeta. fold r. fold c.
    change (@nil Slot) with (parseRow EmptyString). rewrite map_nth.
    destruct (parseRow_shape (nth r (split boardState) EmptyString)) as [Hpl _].
    rewrite Hpl, Hrow8.
    replace ((col <? 0) || (Z.of_nat 8 <=? col)) with false
      by (symmetry; apply orb_false_iff; split;
            [apply Z.ltb_ge | apply Z.leb_gt]; lia).
    now rewrite (parseRow_nth _ _ _ Hch).
Qed.

Lemma getPiece_reads_character_witness :
  exists ch,
    String.get (Z.to_nat (9 * 5 + 1)) initialWire = Some ch
    /\ getPiece initialWire 5 1 = Ok (Some (parseChar ch)).
Proof.
  apply (getPiece_reads_character initialWire 5 1).
  - reflexivity.
  - cbv; repeat split; discriminate.
Defined.



Example getPiece_empty_string :
  getPiece EmptyString 0 0 = Ok None /\ getPiece EmptyString 1 0 = TypeError.
Proof. split; reflexivity. Qed.

(* ================================================================== *)
(** ** CheckersBoard.tsx: selection, clicks and drags *)

(** X5: with the page's own colour and turn computations, a piece is
    selectable exactly when it is the local player's turn and the piece is
    the player's. *)
Theorem isPieceSelectable_on_page
    (playerId : option string) (s : GameStore) (game : CheckersGame)
    (p : Piece) :
  selectedGame s = Some game ->
  isPieceSelectable (Some p) (currentTurn game) (pagePlayerColor playerId s)
  = pageIsMyTurn playerId s
    && isPieceOwnedByPlayer (pagePlayerColor playerId s) (Some p).
Proof.
  intros Hsel. unfold pagePlayerColor, pageIsMyTurn. rewrite Hsel.
  destruct (truthy playerId) as [pid|]; [|reflexivity].
  destruct (optString_eqb (redPlayer game) pid);
    [|destruct (optString_eqb (blackPlayer game) pid)];
    destruct (currentTurn game), p; reflexivity.
Qed.

Lemma isPieceSelectable_on_page_witness :
  isPieceSelectable (Some Red) (currentTurn (snapshot 3))
                    (pagePlayerColor (Some "alice"%string) (storeAt 3))
  = pageIsMyTurn (Some "alice"%string) (storeAt 3)
    && isPieceOwnedByPlayer (pagePlayerColor (Some "alice"%string) (storeAt 3))
                            (Some Red).
Proof.
  apply (isPieceSelectable_on_page (Some "alice"%string) (storeAt 3)
           (snapshot 3) Red).
  reflexivity.
Defined.

Section BoardHandlers.

Variable board : Board.
Hypothesis board_8x8 : is8x8 board = true.

Lemma isPieceSelectable_friendly (p : Piece) (turn : Turn)
    (playerColor : PlayerColor) :
  isPieceSelectable (Some p) turn playerColor = true ->
  friendly playerColor p /\ turnColor turn = playerColor.
Proof.
  unfold friendly. destruct p, turn, playerColor; cbn; intros H;
    try discriminate; now split.
Qed.

(** Every destination [calculateValidMoves] lists is allowed by the
    mandatory-capture rule. *)
Lemma calculateValidMoves_legal (playerColor : PlayerColor) (row col : Z)
    (p : Piece) (moves : list Square) (sq : Square) :
  onBoard (mkSquare row col) ->
  pieceAt board row col = p ->
  friendly playerColor p ->
  calculateValidMoves board playerColor row col (Some p) = Ok moves ->
  In sq moves ->
  captureMove board p row col sq
  \/ (simpleMove board p row col sq
      /\ ~ friendlyCaptureExists board playerColor).
Proof.
  intros Hon Hat Hf Hcalc Hin.
  assert (Hrc : inBoard row col = true) by (now apply inBoard_spec).
  assert (Hp : p <> Empty) by (exact (friendly_nonempty _ _ Hf)).
  assert (Hpc : playerColor <> Spectator).
  { intros ->. destruct p; discriminate Hf. }
  rewrite (calculateValidMoves_pure board board_8x8 _ _ _ _ Hrc) in Hcalc.
  injection Hcalc as <-.
  destruct (captureList board p row col) as [|c0 cs] eqn:Hcl.
  - destruct (anyCaptureOk board playerColor) eqn:Hany; [contradiction|].
    right. split; [now apply (simpleList_spec board)|].
    intros Hex. apply (anyCaptureOk_spec board playerColor Hpc) in Hex.
    congruence.
  - left. apply (captureList_spec board p row col sq Hp). now rewrite Hcl.
Qed.

Lemma captureMove_rows (p : Piece) (row col : Z) (sq : Square) :
  captureMove board p row col sq -> Z.abs (sq_row sq - row) = 2.
Proof.
  intros [dr [dc [[_ Hdr] [-> _]]]]. cbn [sq_row].
  destruct p; try contradiction; lia.
Qed.

Lemma simpleMove_rows (p : Piece) (row col : Z) (sq : Square) :
  simpleMove board p row col sq -> Z.abs (sq_row sq - row) = 1.
Proof.
  intros [dr [dc [[_ Hdr] [-> _]]]]. cbn [sq_row].
  destruct p; try contradiction; lia.
Qed.

Lemma some_square (row col : Z) (moves : list Square) :
  existsb (fun m => (sq_row m =? row) && (sq_col m =? col)) moves = true ->
  In (mkSquare row col) moves.
Proof.
  intros H. apply existsb_exists in H as [[r c] [Hin H]].
  cbn [sq_row sq_col] in H. apply andb_prop in H as [H1 H2].
  apply Z.eqb_eq in H1, H2. now subst.
Qed.

Lemma some_square_eqb (row col : Z) (moves : list Square) :
  existsb (fun m => Square_eqb m (mkSquare row col)) moves = true ->
  In (mkSquare row col) moves.
Proof. unfold Square_eqb. cbn [sq_row sq_col]. apply some_square. Qed.

(** A computed destination gives a legal [onMove] call. *)
Lemma legalEvent_of_valid (props : BoardProps) (sel : Square) (row col : Z)
    (moves : list Square) :
  bp_board props = board ->
  onBoard sel ->
  isPieceSelectable (Some (pieceAt board (sq_row sel) (sq_col sel)))
                    (bp_currentTurn props) (bp_playerColor props) = true ->
  calculateValidMoves board (bp_playerColor props) (sq_row sel) (sq_col sel)
                      (Some (pieceAt board (sq_row sel) (sq_col sel)))
  = Ok moves ->
  In (mkSquare row col) moves ->
  legalEvent props
    (mkMoveEvent (mkMove (sq_row sel) (sq_col sel) row col)
                 (Z.abs (row - sq_row sel) =? 2)).
Proof.
  intros Hb Hon Hsel Hcalc Hin. destruct sel as [sr sc]. cbn [sq_row sq_col] in *.
  destruct (isPieceSelectable_friendly _ _ _ Hsel) as [Hf Hturn].
  pose proof (calculateValidMoves_legal _ sr sc _ moves _ Hon eq_refl Hf
                Hcalc Hin) as Hlegal.
  unfold legalEvent, legalDestination. cbn. rewrite Hb.
  split; [exact Hturn|]. split; [split; [exact Hf | exact Hlegal]|].
  rewrite Z.eqb_eq. split.
  - intros Habs. destruct Hlegal as [Hc|[Hs _]]; [exact Hc|].
    apply simpleMove_rows in Hs. cbn [sq_row] in Hs. lia.
  - intros Hc. apply captureMove_rows in Hc. exact Hc.
Qed.

Lemma calculateValidMoves_returns (playerColor : PlayerColor) (row col : Z)
    (p : Piece) :
  onBoard (mkSquare row col) ->
  exists moves,
    calculateValidMoves board playerColor row col (Some p) = Ok moves.
Proof.
  intros Hon. eexists.
  apply (calculateValidMoves_pure board board_8x8). now apply inBoard_spec.
Qed.

(** Destinations of [calculatePremoveValidMoves], read as moves. *)
Lemma calculatePremoveValidMoves_staged (row col : Z) (p : Piece)
    (moves : list Square) (sq : Square) :
  onBoard (mkSquare row col) ->
  p <> Empty ->
  calculatePremoveValidMoves board row col (Some p) = Ok moves ->
  In sq moves ->
  simpleMove board p row col sq \/ captureMove board p row col sq.
Proof.
  intros Hon Hp Hcalc Hin.
  assert (Hrc : inBoard row col = true) by (now apply inBoard_spec).
  rewrite (calculatePremoveValidMoves_pure board board_8x8 _ _ _ Hrc) in Hcalc.
  injection Hcalc as <-. apply in_flat_map in Hin as [d [Hd Hin]].
  apply in_app_or in Hin as [Hin|Hin].
  - left. apply (simpleList_spec board p row col sq Hp).
    unfold simpleList. apply in_mapped_filter. exists d.
    destruct (simpleOk board row col d); [|contradiction].
    destruct Hin as [<-|[]]. auto.
  - right. apply (captureList_spec board p row col sq Hp).
    unfold captureList. apply in_mapped_filter. exists d.
    destruct (captureOk board _ row col d); [|contradiction].
    destruct Hin as [<-|[]]. auto.
Qed.

(** A premove click keeps the premove selection sound and stages only
    premoves computed for a piece of the player. *)
Lemma handlePremoveClick_sound (playerColor : PlayerColor) (row col : Z)
    (ui : PremoveUi) :
  onBoard (mkSquare row col) ->
  premoveSelectionSound board playerColor ui ->
  exists ui',
    handlePremoveClick board playerColor row col ui = Ok ui'
    /\ premoveSelectionSound board playerColor ui'
    /\ premoveSlotSound board playerColor (premove ui) (premove ui').
Proof.
  intros Hon Hinv.
  assert (Hrc : inBoard row col = true) by (now apply inBoard_spec).
  unfold handlePremoveClick. rewrite (get_8x8 board board_8x8 _ _ Hrc).
  cbn [bind].
  destruct (isPieceOwnedByPlayer playerColor (Some (pieceAt board row col)))
    eqn:Hown.
  - apply isPieceOwnedByPlayer_spec in Hown.
    rewrite (calculatePremoveValidMoves_pure board board_8x8 _ _ _ Hrc).
    cbn [bind]. eexists. split; [reflexivity|]. split.
    + unfold premoveSelectionSound. cbn. split; [exact Hon|].
      split; [exact Hown|].
      now rewrite (calculatePremoveValidMoves_pure board board_8x8 _ _ _ Hrc).
    + right; left. reflexivity.
  - unfold premoveSelectionSound in Hinv.
    destruct (premoveFrom ui) as [sel|] eqn:Hfrom.
    + destruct Hinv as [Hsel [Hf Hcalc]].
      eexists. split; [reflexivity|]. split; [exact I|].
      destruct (existsb _ (premoveValidMoves ui)) eqn:Hvalid.
      * right; right. eexists. split; [reflexivity|].
        apply some_square_eqb in Hvalid.
        unfold stagedPremove. cbn.
        split; [destruct sel; exact Hsel|]. split; [exact Hf|].
        destruct sel as [sr sc]. cbn [sq_row sq_col] in *.
        exact (calculatePremoveValidMoves_staged sr sc _ _ _ Hsel
                 (friendly_nonempty _ _ Hf) Hcalc Hvalid).
      * left. reflexivity.
    + eexists. split; [reflexivity|]. split.
      * unfold premoveSelectionSound. cbn. now rewrite Hfrom.
      * right; left. reflexivity.
Qed.

End BoardHandlers.

(** X6: on a decoded board, a click on a square of the board never
    throws and keeps the selection sound (a selected square always holds
    a selectable piece together with its [calculateValidMoves]); the
    [onMove] call it makes, if any, is a legal move of the side to move
    under the mandatory-capture rule, flagged as a capture exactly when it
    is one. *)
Theorem handleSquareClick_emits_legal
    (props : BoardProps) (row col : Z) (ui : BoardUi) (pui : PremoveUi) :
  is8x8 (bp_board props) = true ->
  onBoard (mkSquare row col) ->
  selectionSound props ui ->
  premoveSelectionSound (bp_board props) (bp_playerColor props) pui ->
  exists ui' pui' ev,
    handleSquareClick props row col ui pui = Ok (ui', pui', ev)
    /\ selectionSound props ui'
    /\ premoveSelectionSound (bp_board props) (bp_playerColor props) pui'
    /\ (forall e, ev = Some e -> legalEvent props e).
Proof.
  intros H8 Hon Hinv Hpinv.
  assert (Hrc : inBoard row col = true) by (now apply inBoard_spec).
  unfold handleSquareClick.
  destruct (bp_disabled props).
  { exists ui, pui, None. split; [reflexivity|]. split; [exact Hinv|].
    split; [exact Hpinv | discriminate]. }
  destruct (negb (bp_isMyTurn props)
            && negb (PlayerColor_eqb (bp_playerColor props) Spectator)).
  { destruct (handlePremoveClick_sound _ H8 (bp_playerColor props) row col pui
                Hon Hpinv) as [pui' [Hp [Hs _]]].
    rewrite Hp. cbn [bind]. exists ui, pui', None.
    split; [reflexivity|]. split; [exact Hinv|].
    split; [exact Hs | discriminate]. }
  rewrite (get_8x8 _ H8 _ _ Hrc). cbn [bind].
  destruct (isPieceSelectable _ (bp_currentTurn props) (bp_playerColor props))
    eqn:Hsel.
  { destruct (calculateValidMoves_returns _ H8 (bp_playerColor props) row col
                (pieceAt (bp_board props) row col) Hon) as [moves Hm].
    rewrite Hm. cbn [bind]. eexists. eexists. exists None.
    split; [reflexivity|]. split; [|split; [exact Hpinv | discriminate]].
    unfold selectionSound. cbn. auto. }
  unfold selectionSound in Hinv.
  destruct (selectedSquare ui) as [sel|] eqn:Hss.
  - destruct Hinv as [Hselon [Hselp Hcalc]].
    destruct (existsb _ (validMoves ui)) eqn:Hvalid.
    + assert (Hselrc : inBoard (sq_row sel) (sq_col sel) = true)
        by (destruct sel; now apply inBoard_spec).
      rewrite (get_8x8 _ H8 _ _ Hselrc). cbn [bind].
      eexists. eexists. eexists. split; [reflexivity|].
      split; [exact I|]. split; [exact Hpinv|].
      intros e He. injection He as <-.
      apply some_square in Hvalid.
      exact (legalEvent_of_valid _ H8 props sel row col _ eq_refl Hselon
               Hselp Hcalc Hvalid).
    + eexists. eexists. exists None. split; [reflexivity|].
      split; [exact I|]. split; [exact Hpinv | discriminate].
  - exists ui, pui, None. split; [reflexivity|].
    split; [unfold selectionSound; now rewrite Hss|].
    split; [exact Hpinv | discriminate].
Qed.

Lemma handleSquareClick_emits_legal_witness :
  exists ui' pui' ev,
    handleSquareClick (props1 captureBoard TurnRed PRed true) 4 3
      (mkBoardUi (Some (mkSquare 2 1)) [mkSquare 4 3])
      (mkPremoveUi None [] None)
    = Ok (ui', pui', ev)
    /\ selectionSound (props1 captureBoard TurnRed PRed true) ui'
    /\ premoveSelectionSound
         (bp_board (props1 captureBoard TurnRed PRed true))
         (bp_playerColor (props1 captureBoard TurnRed PRed true)) pui'
    /\ (forall e, ev = Some e ->
        legalEvent (props1 captureBoard TurnRed PRed true) e).
Proof.
  apply (handleSquareClick_emits_legal (props1 captureBoard TurnRed PRed true)
           4 3 (mkBoardUi (Some (mkSquare 2 1)) [mkSquare 4 3])
           (mkPremoveUi None [] None)).
  - reflexivity.
  - cbv; repeat split; discriminate.
  - split; [cbv; repeat split; discriminate|]. split; reflexivity.
  - exact I.
Defined.

Example handleSquareClick_two_clicks :
  (st <- handleSquareClick (props1 captureBoard TurnRed PRed true) 2 1
           (mkBoardUi None []) (mkPremoveUi None [] None) ;;
   handleSquareClick (props1 captureBoard TurnRed PRed true) 4 3
                     (fst (fst st)) (snd (fst st)))
  = Ok (mkBoardUi None [], mkPremoveUi None [] None,
        Some (mkMoveEvent (mkMove 2 1 4 3) true)).
Proof. reflexivity. Qed.

(** X7: off turn, a click on a square of a decoded board never throws and
    keeps the premove selection sound; the premove slot is afterwards
    untouched, emptied, or holds a premove from a piece of the player to
    one of that piece's simple moves or captures on the current board. *)
Theorem handlePremoveClick_stages_computed
    (board : Board) (playerColor : PlayerColor) (row col : Z) (ui : PremoveUi) :
  is8x8 board = true ->
  onBoard (mkSquare row col) ->
  premoveSelectionSound board playerColor ui ->
  exists ui',
    handlePremoveClick board playerColor row col ui = Ok ui'
    /\ premoveSelectionSound board playerColor ui'
    /\ premoveSlotSound board playerColor (premove ui) (premove ui').
Proof.
  intros H8 Hon Hinv. now apply handlePremoveClick_sound.
Qed.

Lemma handlePremoveClick_stages_computed_witness :
  exists ui',
    handlePremoveClick captureBoard PBlack 4 1
      (mkPremoveUi (Some (mkSquare 5 0)) [mkSquare 4 1] None) = Ok ui'
    /\ premoveSelectionSound captureBoard PBlack ui'
    /\ premoveSlotSound captureBoard PBlack None (premove ui').
Proof.
  apply (handlePremoveClick_stages_computed captureBoard PBlack 4 1
           (mkPremoveUi (Some (mkSquare 5 0)) [mkSquare 4 1] None)).
  - reflexivity.
  - cbv; repeat split; discriminate.
  - split; [cbv; repeat split; discriminate|]. split; reflexivity.
Defined.

Section DragHandlers.

Variable props : BoardProps.
Hypothesis board_8x8 : is8x8 (bp_board props) = true.

Lemma not_friendly_spectator (p : Piece) : ~ friendly Spectator p.
Proof. unfold friendly. destruct p; discriminate. Qed.

Lemma handleDragStart_sound (row col : Z) (st : BoardState) :
  onBoard (mkSquare row col) ->
  dragSound props (st_drag st) ->
  exists st' refused,
    handleDragStart props row col st = Ok (st', refused)
    /\ dragSound props (st_drag st')
    /\ premoveSlotSound (bp_board props) (bp_playerColor props)
         (premove (st_premove st)) (premove (st_premove st')).
Proof.
  intros Hon Hinv.
  assert (Hrc : inBoard row col = true) by (now apply inBoard_spec).
  unfold handleDragStart.
  destruct (bp_disabled props).
  { exists st, false. split; [reflexivity|]. split; [exact Hinv | now left]. }
  rewrite (get_8x8 _ board_8x8 _ _ Hrc). cbn [bind].
  destruct (bp_isMyTurn props) eqn:Hturn.
  - destruct (isPieceSelectable _ _ _) eqn:Hsel; cbn [negb].
    + destruct (calculateValidMoves_returns _ board_8x8 (bp_playerColor props)
                  row col (pieceAt (bp_board props) row col) Hon) as [moves Hm].
      rewrite Hm. cbn [bind]. eexists. eexists. split; [reflexivity|].
      split; [|now left].
      unfold dragSound. cbn. rewrite Hturn. auto.
    + exists st, true. split; [reflexivity|]. split; [exact Hinv | now left].
  - destruct (negb (PlayerColor_eqb (bp_playerColor props) Spectator)).
    + destruct (isPieceOwnedByPlayer _ _) eqn:Hown; cbn [negb].
      * apply isPieceOwnedByPlayer_spec in Hown.
        rewrite (calculatePremoveValidMoves_pure _ board_8x8 _ _ _ Hrc).
        cbn [bind]. eexists. eexists. split; [reflexivity|].
        split; [|right; now left].
        unfold dragSound. cbn. rewrite Hturn. split; [exact Hon|].
        split; [exact Hown|].
        now rewrite (calculatePremoveValidMoves_pure _ board_8x8 _ _ _ Hrc).
      * exists st, true. split; [reflexivity|]. split; [exact Hinv | now left].
    + exists st, true. split; [reflexivity|]. split; [exact Hinv | now left].
Qed.

Lemma handleDrop_sound (row col : Z) (st : BoardState) :
  dragSound props (st_drag st) ->
  exists st' ev,
    handleDrop props row col st = Ok (st', ev)
    /\ dragSound props (st_drag st')
    /\ (forall e, ev = Some e -> legalEvent props e)
    /\ premoveSlotSound (bp_board props) (bp_playerColor props)
         (premove (st_premove st)) (premove (st_premove st')).
Proof.
  intros Hinv. unfold handleDrop. unfold dragSound in Hinv.
  destruct (draggedPiece (st_drag st)) as [sel|] eqn:Hd.
  2:{ exists st, None. split; [reflexivity|].
      split; [unfold dragSound; now rewrite Hd|].
      split; [discriminate | now left]. }
  destruct Hinv as [Hselon Hinv].
  destruct (bp_isMyTurn props) eqn:Hturn; cbn [negb andb].
  - destruct Hinv as [Hselp Hcalc].
    destruct (existsb _ (dragValidMoves (st_drag st))) eqn:Hvalid.
    + assert (Hselrc : inBoard (sq_row sel) (sq_col sel) = true)
        by (destruct sel; now apply inBoard_spec).
      rewrite (get_8x8 _ board_8x8 _ _ Hselrc). cbn [bind].
      eexists. eexists. split; [reflexivity|]. split; [exact I|].
      split; [|now left].
      intros e He. injection He as <-. apply some_square in Hvalid.
      exact (legalEvent_of_valid _ board_8x8 props sel row col _ eq_refl
               Hselon Hselp Hcalc Hvalid).
    + eexists. exists None. split; [reflexivity|]. split; [exact I|].
      split; [discriminate | now left].
  - destruct Hinv as [Hf Hcalc].
    destruct (PlayerColor_eqb (bp_playerColor props) Spectator) eqn:Hspec.
    { exfalso. destruct (bp_playerColor props); try discriminate.
      exact (not_friendly_spectator _ Hf). }
    cbn [negb]. eexists. exists None. split; [reflexivity|].
    split; [exact I|]. split; [discriminate|].
    destruct (existsb _ (dragValidMoves (st_drag st))) eqn:Hvalid.
    + right; right. eexists. split; [reflexivity|].
      apply some_square in Hvalid. unfold stagedPremove. cbn.
      split; [destruct sel; exact Hselon|]. split; [exact Hf|].
      destruct sel as [sr sc]. cbn [sq_row sq_col] in *.
      exact (calculatePremoveValidMoves_staged _ board_8x8 sr sc _ _ _ Hselon
               (friendly_nonempty _ _ Hf) Hcalc Hvalid).
    + now left.
Qed.

End DragHandlers.

(** X8: on a decoded board, picking a piece up and dropping it never
    throw and keep the drag state sound; a drop on the player's turn calls
    [onMove] only with a legal move under the mandatory-capture rule, and a
    drop off turn changes the premove slot only to a premove computed for
    a piece of the player. *)
Theorem drag_and_drop_sound
    (props : BoardProps) (row col : Z) (st : BoardState) :
  is8x8 (bp_board props) = true ->
  onBoard (mkSquare row col) ->
  dragSound props (st_drag st) ->
  (exists st' refused,
      handleDragStart props row col st = Ok (st', refused)
      /\ dragSound props (st_drag st')
      /\ premoveSlotSound (bp_board props) (bp_playerColor props)
           (premove (st_premove st)) (premove (st_premove st')))
  /\ (exists st' ev,
        handleDrop props row col st = Ok (st', ev)
        /\ dragSound props (st_drag st')
        /\ (forall e, ev = Some e -> legalEvent props e)
        /\ premoveSlotSound (bp_board props) (bp_playerColor props)
             (premove (st_premove st)) (premove (st_premove st'))).
Proof.
  intros H8 Hon Hinv. split.
  - now apply handleDragStart_sound.
  - now apply handleDrop_sound.
Qed.

Lemma drag_and_drop_sound_witness :
  (exists st' refused,
      handleDragStart redToMoveProps 4 1 draggingState = Ok (st', refused)
      /\ dragSound redToMoveProps (st_drag st')
      /\ premoveSlotSound (bp_board redToMoveProps)
           (bp_playerColor redToMoveProps)
           (premove (st_premove draggingState)) (premove (st_premove st')))
  /\ (exists st' ev,
        handleDrop redToMoveProps 4 1 draggingState = Ok (st', ev)
        /\ dragSound redToMoveProps (st_drag st')
        /\ (forall e, ev = Some e -> legalEvent redToMoveProps e)
        /\ premoveSlotSound (bp_board redToMoveProps)
             (bp_playerColor redToMoveProps)
             (premove (st_premove draggingState)) (premove (st_premove st'))).
Proof.
  apply (drag_and_drop_sound redToMoveProps 4 1 draggingState).
  - reflexivity.
  - cbv; repeat split; discriminate.
  - split; [cbv; repeat split; discriminate|]. split; reflexivity.
Defined.

Example drag_then_drop :
  (r <- handleDragStart (props1 captureBoard TurnRed PRed true) 2 3
          (mkBoardState (mkBoardUi None []) (mkPremoveUi None [] None)
                        (mkDragUi None [])) ;;
   handleDrop (props1 captureBoard TurnRed PRed true) 4 1 (fst r))
  = Ok (mkBoardState (mkBoardUi None []) (mkPremoveUi None [] None)
                     (mkDragUi None []),
        Some (mkMoveEvent (mkMove 2 3 4 1) true)).
Proof. reflexivity. Qed.

(* ------------------------------------------------------------------ *)
(** *** Forced-capture highlighting *)

Section Highlight.

Variable board : Board.
Hypothesis board_8x8 : is8x8 board = true.

Lemma foldM_pure {A S} (f : S -> A -> Exc S) (g : S -> A -> S) (l : list A) :
  (forall acc x, In x l -> f acc x = Ok (g acc x)) ->
  forall acc, foldM f l acc = Ok (fold_left g l acc).
Proof.
  induction l as [|x rest IH]; intros H acc; [reflexivity|].
  cbn [foldM fold_left]. rewrite (H acc x (or_introl eq_refl)). cbn [bind].
  apply IH. intros acc' y Hy. apply H. now right.
Qed.

Lemma addPieceWithCapture_pure (playerColor : PlayerColor) (row col : Z)
    (acc : list string) :
  inBoard row col = true ->
  addPieceWithCapture board playerColor row acc col
  = Ok (if squareCaptureOk board playerColor row col
        then setAdd (squareKey row col) acc else acc).
Proof.
  intros Hrc. unfold addPieceWithCapture, squareCaptureOk.
  rewrite (get_8x8 board board_8x8 _ _ Hrc). cbn [bind strictEq].
  destruct (Piece_eqb (pieceAt board row col) Empty); [reflexivity|].
  cbn [negb andb].
  destruct (Bool.eqb (isPlayerRed playerColor)
                     (isRed (Some (pieceAt board row col)))); [|reflexivity].
  cbn [negb andb].
  rewrite (anyM_pure _ (captureOk board (isRed (Some (pieceAt board row col)))
                                  row col)).
  - reflexivity.
  - intros d Hd. apply (captureTest_pure board board_8x8); [exact Hrc|].
    pose proof (directions_unit (isKing (Some (pieceAt board row col)))
                                (isRed (Some (pieceAt board row col)))) as HF.
    rewrite Forall_forall in HF. now apply HF.
Qed.

Lemma getPiecesWithCaptures_pure (turn : Turn) (playerColor : PlayerColor) :
  getPiecesWithCaptures (mkBoardProps board turn playerColor true false)
  = Ok (captureKeys board playerColor).
Proof.
  unfold getPiecesWithCaptures, captureKeys. cbn [bp_isMyTurn bp_disabled
    bp_board bp_playerColor negb orb].
  apply foldM_pure. intros acc row Hrow.
  apply foldM_pure. intros acc' col Hcol.
  apply addPieceWithCapture_pure. apply inBoard_spec.
  apply range8_spec in Hrow, Hcol. lia.
Qed.

Lemma In_setAdd (k key : string) (set : list string) :
  In k (setAdd key set) <-> In k set \/ k = key.
Proof.
  unfold setAdd. destruct (existsb (String.eqb key) set) eqn:Hex.
  - apply existsb_exists in Hex as [x [Hx Heq]]. apply String.eqb_eq in Heq.
    subst x. split; [auto | intros [H | ->]; auto].
  - rewrite in_app_iff. cbn. intuition.
Qed.

Lemma In_fold_cols (playerColor : PlayerColor) (row : Z) (cols : list Z)
    (k : string) :
  forall acc,
  In k (fold_left
          (fun acc' col =>
             if squareCaptureOk board playerColor row col
             then setAdd (squareKey row col) acc' else acc') cols acc)
  <-> In k acc
      \/ exists col, In col cols
           /\ squareCaptureOk board playerColor row col = true
           /\ k = squareKey row col.
Proof.
  induction cols as [|c rest IH]; intros acc; cbn [fold_left].
  - split; [auto | intros [H|[col [Hnil _]]]; [exact H | destruct Hnil]].
  - rewrite IH. split.
    + intros [H|[col [Hc [Hok Hk]]]].
      * destruct (squareCaptureOk board playerColor row c) eqn:Hok; [|auto].
        apply In_setAdd in H as [H|H]; [auto|].
        right. exists c. cbn. auto.
      * right. exists col. cbn. auto.
    + intros [H|[col [[<-|Hc] [Hok Hk]]]].
      * left. destruct (squareCaptureOk board playerColor row c); [|exact H].
        apply In_setAdd. auto.
      * left. rewrite Hok. apply In_setAdd. auto.
      * right. exists col. auto.
Qed.

Lemma In_captureKeys (playerColor : PlayerColor) (k : string) :
  In k (captureKeys board playerColor)
  <-> exists row col, In row range8 /\ In col range8
        /\ squareCaptureOk board playerColor row col = true
        /\ k = squareKey row col.
Proof.
  unfold captureKeys.
  assert (Hgen : forall rows acc,
    In k (fold_left
            (fun acc row =>
               fold_left
                 (fun acc' col =>
                    if squareCaptureOk board playerColor row col
                    then setAdd (squareKey row col) acc' else acc')
                 range8 acc) rows acc)
    <-> In k acc
        \/ exists row col, In row rows /\ In col range8
             /\ squareCaptureOk board playerColor row col = true
             /\ k = squareKey row col).
  { induction rows as [|r rest IH]; intros acc; cbn [fold_left].
    - split; [auto | intros [H|[row [col [Hnil _]]]]; [exact H | destruct Hnil]].
    - rewrite IH, In_fold_cols. split.
      + intros [[H|[col [Hc [Hok Hk]]]]|[row [col [Hr H]]]]; auto.
        * right. exists r, col. cbn. auto.
        * right. exists row, col. cbn. auto.
      + intros [H|[row [col [[<-|Hr] [Hc [Hok Hk]]]]]]; auto.
        * left. right. exists col. auto.
        * right. exists row, col. auto. }
  rewrite Hgen. split; [intros [Hnil|H]; [destruct Hnil | exact H] | auto].
Qed.

End Highlight.

(** Two squares of the board never share a key. *)
Lemma squareKey_injective (r c r' c' : Z) :
  In r range8 -> In c range8 -> In r' range8 -> In c' range8 ->
  squareKey r c = squareKey r' c' -> r = r' /\ c = c'.
Proof.
  assert (Hall :
    forallb (fun r => forallb (fun c => forallb (fun r' => forallb (fun c' =>
      implb (String.eqb (squareKey r c) (squareKey r' c'))
            ((r =? r') && (c =? c'))) range8) range8) range8) range8 = true)
    by (vm_compute; reflexivity).
  intros Hr Hc Hr' Hc' Heq.
  rewrite forallb_forall in Hall. specialize (Hall r Hr).
  rewrite forallb_forall in Hall. specialize (Hall c Hc).
  rewrite forallb_forall in Hall. specialize (Hall r' Hr').
  rewrite forallb_forall in Hall. specialize (Hall c' Hc').
  apply String.eqb_eq in Heq. rewrite Heq in Hall. cbn in Hall.
  apply andb_prop in Hall as [H1 H2]. apply Z.eqb_eq in H1, H2. now split.
Qed.

(** X9: on the player's turn, with the board enabled, the set built by
    [getPiecesWithCaptures] on a decoded board holds the key of a square
    exactly when that square carries a piece of the player that can
    capture; the set is empty exactly when no friendly capture exists.
    Off turn or with the board disabled the set is empty. *)
Theorem getPiecesWithCaptures_spec
    (board : Board) (turn : Turn) (playerColor : PlayerColor)
    (myTurn disabled : bool) :
  is8x8 board = true ->
  playerColor <> Spectator ->
  exists set,
    getPiecesWithCaptures (mkBoardProps board turn playerColor myTurn disabled)
    = Ok set
    /\ if negb myTurn || disabled then set = []
       else
         (forall row col, onBoard (mkSquare row col) ->
            (setHas (squareKey row col) set = true
             <-> friendly playerColor (pieceAt board row col)
                 /\ exists sq,
                      captureMove board (pieceAt board row col) row col sq))
         /\ (set = [] <-> ~ friendlyCaptureExists board playerColor).
Proof.
  intros H8 Hpc.
  destruct myTurn, disabled; cbn [negb orb];
    try (exists []; split; reflexivity).
  exists (captureKeys board playerColor).
  split; [apply (getPiecesWithCaptures_pure board H8)|].
  assert (Hsq : forall row col,
    squareCaptureOk board playerColor row col = true
    <-> friendly playerColor (pieceAt board row col)
        /\ exists sq, captureMove board (pieceAt board row col) row col sq).
  { intros row col. unfold squareCaptureOk. cbv zeta.
    rewrite andb_true_iff, (friendly_spec _ _ Hpc). split.
    - intros [Hf Hex]. split; [exact Hf|].
      now apply (existsb_captureOk_spec board _ _ _ (friendly_nonempty _ _ Hf)).
    - intros [Hf Hex]. split; [exact Hf|].
      now apply (existsb_captureOk_spec board _ _ _ (friendly_nonempty _ _ Hf)). }
  split.
  - intros row col [Hr Hc]. cbn [sq_row sq_col] in Hr, Hc.
    rewrite <- Hsq. unfold setHas. rewrite existsb_exists. split.
    + intros [x [Hx Heq]]. apply String.eqb_eq in Heq. subst x.
      apply (In_captureKeys board) in Hx
        as [row' [col' [Hr' [Hc' [Hok Hk]]]]].
      apply squareKey_injective in Hk as [-> ->];
        auto; now apply range8_spec.
    + intros Hok. exists (squareKey row col). split; [|apply String.eqb_refl].
      apply (In_captureKeys board). exists row, col.
      repeat split; auto; now apply range8_spec.
  - split.
    + intros Hempty [r [c [sq [[Hr Hc] [Hf Hcap]]]]]. cbn [sq_row sq_col] in *.
      assert (Hin : In (squareKey r c) (captureKeys board playerColor)).
      { apply (In_captureKeys board). exists r, c.
        repeat split; try (now apply range8_spec).
        apply Hsq. split; [exact Hf | now exists sq]. }
      rewrite Hempty in Hin. contradiction.
    + intros Hno. destruct (captureKeys board playerColor) as [|k rest] eqn:Hk;
        [reflexivity|].
      exfalso. apply Hno.
      assert (Hin : In k (captureKeys board playerColor))
        by (rewrite Hk; now left).
      apply (In_captureKeys board) in Hin
        as [row [col [Hr [Hc [Hok _]]]]].
      apply Hsq in Hok as [Hf [sq Hcap]]. exists row, col, sq.
      apply range8_spec in Hr, Hc. unfold onBoard. cbn [sq_row sq_col]. auto.
Qed.

Lemma getPiecesWithCaptures_spec_witness :
  exists set,
    getPiecesWithCaptures (mkBoardProps captureBoard TurnRed PRed true false)
    = Ok set
    /\ if negb true || false then set = []
       else
         (forall row col, onBoard (mkSquare row col) ->
            (setHas (squareKey row col) set = true
             <-> friendly PRed (pieceAt captureBoard row col)
                 /\ exists sq,
                      captureMove captureBoard (pieceAt captureBoard row col)
                                  row col sq))
         /\ (set = [] <-> ~ friendlyCaptureExists captureBoard PRed).
Proof.
  apply (getPiecesWithCaptures_spec captureBoard TurnRed PRed true false).
  - reflexivity.
  - discriminate.
Defined.

Example getPiecesWithCaptures_captureBoard :
  getPiecesWithCaptures (mkBoardProps captureBoard TurnRed PRed true false)
  = Ok ["2-1"; "2-3"]%string.
Proof. reflexivity. Qed.

(* ================================================================== *)
(** ** store/game.ts: lists, selection, timers, queue *)

Section StoreProofs.

Lemma truthy_some (o : option string) (x : string) :
  truthy o = Some x -> o = Some x.
Proof. destruct o as [[|a r]|]; cbn; congruence. Qed.

Lemma selection_step (s : GameStore) (op : StoreOp) :
  wellAddressed op -> selectionConsistent s ->
  selectionConsistent (storeStep s op).
Proof.
  unfold selectionConsistent. intros Hop Hs.
  destruct op as [resp|gid resp|resp|resp|gid| |from]; cbn [storeStep].
  - unfold fetchGames_resolve, fetchGames_start.
    destruct resp as [gs| |message]; cbn; try exact Hs.
    + destruct (truthy (selectedGameId s)) as [sid|] eqn:Hsid; [|exact Hs].
      apply truthy_some in Hsid.
      destruct (find _ gs) as [updated|] eqn:Hfind; [|exact Hs].
      apply find_some in Hfind as [_ Hid]. apply String.eqb_eq in Hid.
      destruct (selectedGame s) as [cur|] eqn:Hcur; cbn.
      * destruct (moveCount cur <=? moveCount updated); cbn;
          [congruence | rewrite Hcur; exact Hs].
      * congruence.
    + destruct (truthy (selectedGameId s)); exact Hs.
  - unfold fetchGame, fetchGame_resolve, fetchGame_start.
    destruct resp as [game| |message]; cbn; try exact Hs.
    cbn in Hop. now rewrite Hop.
  - unfold fetchPendingGames_resolve. destruct resp; exact Hs.
  - unfold fetchActiveGames_resolve. destruct resp; exact Hs.
  - unfold selectGame. cbn.
    destruct (find _ (games s)) as [g|] eqn:Hfind; [|exact I].
    apply find_some in Hfind as [_ Hid]. apply String.eqb_eq in Hid.
    now rewrite Hid.
  - exact I.
  - unfold localMakeMove.
    destruct (selectedGame s) as [game|] eqn:Hsel; cbn.
    + destruct (applyMove _ from); cbn; [exact Hs | now rewrite Hsel].
    + now rewrite Hsel.
Qed.

Lemma filter_filter {A} (f : A -> bool) (l : list A) :
  filter f (filter f l) = filter f l.
Proof.
  induction l as [|x rest IH]; [reflexivity|].
  cbn. destruct (f x) eqn:Hx; cbn; rewrite ?Hx, IH; reflexivity.
Qed.

Lemma filter_none {A} (f : A -> bool) (l : list A) :
  Forall (fun x => f x = false) l -> filter f l = [].
Proof.
  induction 1 as [|x rest Hx _ IH]; [reflexivity|]. cbn. now rewrite Hx.
Qed.

Lemma filter_all {A} (f : A -> bool) (l : list A) :
  Forall (fun x => f x = true) l -> filter f l = l.
Proof.
  induction 1 as [|x rest Hx _ IH]; [reflexivity|]. cbn. now rewrite Hx, IH.
Qed.

(** Replacing the games for which [refreshed] holds by a list of such
    games. *)
Lemma merge_refreshed (refreshed : CheckersGame -> bool)
    (old fresh : list CheckersGame) :
  Forall (fun g => refreshed g = true) fresh ->
  let merged := filter (fun g => negb (refreshed g)) old ++ fresh in
  filter refreshed merged = fresh
  /\ filter (fun g => negb (refreshed g)) merged
     = filter (fun g => negb (refreshed g)) old.
Proof.
  intros Hfresh. cbv zeta. rewrite !filter_app, filter_filter. split.
  - rewrite (filter_all _ _ Hfresh).
    rewrite (filter_none refreshed (filter _ old)); [reflexivity|].
    apply Forall_forall. intros g Hg. apply filter_In in Hg as [_ Hg].
    now apply negb_true_iff in Hg.
  - rewrite (filter_none (fun g => negb (refreshed g)) fresh).
    + now rewrite app_nil_r.
    + revert Hfresh. apply Forall_impl. intros g Hg. now rewrite Hg.
Qed.

Lemma timerStep_single (t : TimerState) (op : TimerOp) :
  singleInterval t -> singleInterval (timerStep t op).
Proof.
  unfold singleInterval.
  assert (Hstop : forall t0,
    (running t0 = [] \/ exists h, running t0 = [h] /\ timerIntervalId t0 = Some h) ->
    running (stopLocalTimer t0) = []
    \/ exists h, running (stopLocalTimer t0) = [h]
                 /\ timerIntervalId (stopLocalTimer t0) = Some h).
  { intros t0 [Hr|[h [Hr Hid]]]; unfold stopLocalTimer.
    - destruct (timerIntervalId t0); cbn; rewrite Hr; now left.
    - rewrite Hid. cbn. rewrite Hr. cbn. rewrite Nat.eqb_refl. now left. }
  intros Ht. destruct op as [selected| |currentGame]; cbn [timerStep].
  - unfold startLocalTimer.
    assert (Hcleared :
      match timerIntervalId t with
      | Some h => clearInterval h (running t)
      | None => running t
      end = []).
    { destruct Ht as [Hr|[h [Hr Hid]]].
      - rewrite Hr. now destruct (timerIntervalId t).
      - rewrite Hid, Hr. cbn. now rewrite Nat.eqb_refl. }
    rewrite Hcleared.
    destruct (match selected with
              | Some game => negb (GameStatus_eqb (status game) Active)
              | None => true
              end); cbn; [now left|].
    right. now exists (nextHandle t).
  - now apply Hstop.
  - unfold timerTick. destruct currentGame as [game|]; [|now apply Hstop].
    destruct (negb (GameStatus_eqb (status game) Active)); [now apply Hstop|].
    destruct (currentTurn game); cbn; exact Ht.
Qed.

Lemma queueStep_consistent (q : QueueState) (op : QueueOp) :
  queueConsistent q -> queueConsistent (queueStep q op).
Proof.
  unfold queueConsistent. intros Hq.
  destruct op as [playerId timeControl resp now|playerId failed];
    cbn [queueStep].
  - unfold joinQueue_resolve. destruct (truthy playerId); [|exact Hq].
    destruct resp as [matched| |message]; [| |exact Hq].
    + destruct (truthy matched); cbn; split; split;
        intros; try discriminate; try congruence; auto.
    + cbn; split; split; intros; try discriminate; auto.
  - unfold leaveQueue_resolve. destruct (truthy playerId); [|exact Hq].
    destruct failed; [exact Hq|].
    cbn; split; split; intros; try discriminate; congruence.
Qed.

End StoreProofs.

(** X10: whatever the store fetches, selects or moves optimistically, as
    long as the service answers a query for a game with that game, the
    selected game is the one [selectedGameId] names. *)
Theorem selection_stays_consistent (ops : list StoreOp) (s : GameStore) :
  selectionConsistent s ->
  Forall wellAddressed ops ->
  selectionConsistent (fold_left storeStep ops s).
Proof.
  intros Hs Hops. revert s Hs.
  induction Hops as [|op rest Hop _ IH]; intros s Hs; [exact Hs|].
  cbn [fold_left]. apply IH. now apply selection_step.
Qed.

Lemma selection_stays_consistent_witness :
  selectionConsistent
    (fold_left storeStep
       [OpFetchGames (Data [snapshot 1]); OpSelect "g1"%string;
        OpLocalMove (mkMove 2 0 3 1); OpFetchGame "g1" (Data (snapshot 2));
        OpDeselect; OpSelect "g2"%string]
       initialStore).
Proof.
  apply selection_stays_consistent.
  - exact I.
  - repeat constructor.
Defined.

(** [rollbackMove] is the exception: it reinstates a selected game and
    leaves [selectedGameId] alone. *)
Example rollbackMove_breaks_selection :
  selectedGame (rollbackMove deselectedAfterMove) = Some (snapshot 0)
  /\ selectedGameId (rollbackMove deselectedAfterMove) = None.
Proof. split; reflexivity. Qed.

(** X11: [fetchPendingGames] and [fetchActiveGames] leave the selection
    alone and keep, in order, every game of another status; when the
    answer holds only games of the refreshed status, those are afterwards
    exactly the games of that status, so that applying the same answer
    again changes nothing. *)
Theorem fetch_by_status_merges
    (pending active : list CheckersGame) (s : GameStore) :
  Forall (fun g => isPending g = true) pending ->
  Forall (fun g => isActive g = true) active ->
  let sp := fetchPendingGames_resolve (Data pending) s in
  let sa := fetchActiveGames_resolve (Data active) s in
  (selectedGame sp = selectedGame s /\ selectedGameId sp = selectedGameId s
   /\ filter isPending (games sp) = pending
   /\ filter (fun g => negb (isPending g)) (games sp)
      = filter (fun g => negb (isPending g)) (games s)
   /\ fetchPendingGames_resolve (Data pending) sp = sp)
  /\ (selectedGame sa = selectedGame s /\ selectedGameId sa = selectedGameId s
      /\ filter isActive (games sa) = active
      /\ filter (fun g => negb (isActive g)) (games sa)
         = filter (fun g => negb (isActive g)) (games s)
      /\ fetchActiveGames_resolve (Data active) sa = sa).
Proof.
  intros Hp Ha. cbv zeta.
  destruct (merge_refreshed isPending (games s) pending Hp) as [Hp1 Hp2].
  destruct (merge_refreshed isActive (games s) active Ha) as [Ha1 Ha2].
  unfold fetchPendingGames_resolve, fetchActiveGames_resolve.
  cbn [games selectedGame selectedGameId setGames].
  split; (split; [reflexivity|]); (split; [reflexivity|]).
  - split; [exact Hp1|]. split; [exact Hp2|].
    unfold setGames. cbn. f_equal.
    fold isPending. unfold isPending in Hp2. now rewrite Hp2.
  - split; [exact Ha1|]. split; [exact Ha2|].
    unfold setGames. cbn. f_equal.
    fold isActive. unfold isActive in Ha2. now rewrite Ha2.
Qed.

Lemma fetch_by_status_merges_witness :
  let s := storeAt 4 in
  let pending := [mkGame "g9" (Some "carol"%string) None initialDotted
                         TurnRed 0 Pending] in
  let active := [snapshot 5] in
  let sp := fetchPendingGames_resolve (Data pending) s in
  let sa := fetchActiveGames_resolve (Data active) s in
  (selectedGame sp = selectedGame s /\ selectedGameId sp = selectedGameId s
   /\ filter isPending (games sp) = pending
   /\ filter (fun g => negb (isPending g)) (games sp)
      = filter (fun g => negb (isPending g)) (games s)
   /\ fetchPendingGames_resolve (Data pending) sp = sp)
  /\ (selectedGame sa = selectedGame s /\ selectedGameId sa = selectedGameId s
      /\ filter isActive (games sa) = active
      /\ filter (fun g => negb (isActive g)) (games sa)
         = filter (fun g => negb (isActive g)) (games s)
      /\ fetchActiveGames_resolve (Data active) sa = sa).
Proof.
  apply (fetch_by_status_merges
           [mkGame "g9" (Some "carol"%string) None initialDotted TurnRed 0 Pending]
           [snapshot 5] (storeAt 4)); repeat constructor.
Defined.

(** The active list is refreshed without a look at the selected game:
    the selected snapshot and its copy in the list may then differ. *)
Example fetchActiveGames_leaves_selected_behind :
  let s := fetchActiveGames_resolve (Data [snapshot 5]) (storeAt 4) in
  selectedMoveCount s = Some 4 /\ map moveCount (games s) = [5].
Proof. split; reflexivity. Qed.

(** X12: the store's [isMyTurn] (through [getPlayerColor]) and the page's
    own [isMyTurn] agree, and hold exactly when a game is selected and the
    player's colour is the colour to move. *)
Theorem isMyTurn_agrees (playerId : option string) (s : GameStore) :
  isMyTurn playerId s = pageIsMyTurn playerId s
  /\ (isMyTurn playerId s = true
      <-> exists game, selectedGame s = Some game
            /\ getPlayerColor playerId s = turnColor (currentTurn game)).
Proof.
  unfold isMyTurn, pageIsMyTurn, getPlayerColor.
  destruct (selectedGame s) as [game|].
  2:{ split; [reflexivity|]. split; [discriminate|].
      intros [g [H _]]. discriminate. }
  destruct (truthy playerId) as [pid|].
  2:{ split; [reflexivity|]. split; [discriminate|].
      intros [g [H Hc]]. destruct (currentTurn g); discriminate. }
  destruct (optString_eqb (redPlayer game) pid);
    [|destruct (optString_eqb (blackPlayer game) pid)];
    destruct (currentTurn game) eqn:Ht; cbn; (split; [reflexivity|]);
    (split; [intros H; try discriminate; exists game; now rewrite Ht
            |intros [g [Hg Hc]]; injection Hg as <-; rewrite Ht in Hc;
             try discriminate; reflexivity]).
Qed.

(** X13: while [requestAiMove] awaits its mutation the move guard is up,
    so a [makeMove] made then is rejected and sends nothing; when
    [requestAiMove] completes the guard is down, whether or not it was up
    when the call began. *)
Theorem requestAiMove_holds_guard
    (s s1 : GameStore) (playerId : option string) (env : MoveEnv)
    (from : MoveInfo) (send : option string) (resp : Response CheckersGame)
    (duringSend duringFetch : GameStore -> GameStore) :
  requestAiMove_start s = Some s1 ->
  isMoving s1 = true
  /\ res_success (makeMove playerId env from s1) = false
  /\ res_sent (makeMove playerId env from s1) = []
  /\ isMoving (snd (requestAiMove send resp duringSend duringFetch s)) = false.
Proof.
  unfold requestAiMove_start, requestAiMove. intros Hstart.
  destruct (truthy (selectedGameId s)) as [gid|] eqn:Hgid; [|discriminate].
  injection Hstart as <-. split; [reflexivity|].
  assert (Hrej : res_success (makeMove playerId env from
                    (setError None (setIsMoving true s))) = false
                 /\ res_sent (makeMove playerId env from
                    (setError None (setIsMoving true s))) = []).
  { unfold makeMove. cbn.
    destruct (selectedGame s); [|now split].
    destruct (truthy (selectedGameId s)); [|now split].
    destruct (truthy playerId); now split. }
  destruct Hrej as [H1 H2]. split; [exact H1|]. split; [exact H2|].
  destruct send; reflexivity.
Qed.

Lemma requestAiMove_holds_guard_witness :
  isMoving (setError None (setIsMoving true (storeAt 2))) = true
  /\ res_success (makeMove (Some "alice"%string) acceptingEnv (mkMove 2 0 3 1)
                   (setError None (setIsMoving true (storeAt 2)))) = false
  /\ res_sent (makeMove (Some "alice"%string) acceptingEnv (mkMove 2 0 3 1)
                (setError None (setIsMoving true (storeAt 2)))) = []
  /\ isMoving (snd (requestAiMove None (Data (snapshot 3)) (fun x => x)
                      (fun x => x) (storeAt 2))) = false.
Proof.
  apply (requestAiMove_holds_guard (storeAt 2) _ (Some "alice"%string)
           acceptingEnv (mkMove 2 0 3 1) None (Data (snapshot 3))
           (fun x => x) (fun x => x)).
  reflexivity.
Defined.

(** X14: however the local timer is started, stopped and ticked, at most
    one countdown interval is running, and it is the one whose handle the
    store holds. *)
Theorem timer_never_doubles (ops : list TimerOp) :
  singleInterval (fold_left timerStep ops initialTimer).
Proof.
  assert (Hgen : forall t, singleInterval t ->
                 singleInterval (fold_left timerStep ops t)).
  { induction ops as [|op rest IH]; intros t Ht; [exact Ht|].
    cbn [fold_left]. apply IH. now apply timerStep_single. }
  apply Hgen. now left.
Qed.

(** X15: the three queue fields of the store change together: the store
    is in the queue exactly when a time control and a joining time are
    recorded, whatever joins and leaves succeed or fail. *)
Theorem queue_fields_agree (ops : list QueueOp) :
  queueConsistent (fold_left queueStep ops initialQueue).
Proof.
  assert (Hgen : forall q, queueConsistent q ->
                 queueConsistent (fold_left queueStep ops q)).
  { induction ops as [|op rest IH]; intros q Hq; [exact Hq|].
    cbn [fold_left]. apply IH. now apply queueStep_consistent. }
  apply Hgen. unfold queueConsistent. cbn.
  split; split; intros; try discriminate; congruence.
Qed.

(* ================================================================== *)
(** ** app/page.tsx: clocks, arbiter, guard, premove *)

(** X16: the timeout auto-handler resigns only when it is armed, the
    local clock is out and the opponent's is not; it claims the win
    exactly when it is armed and the opponent's clock is out -- also when
    both clocks are out; it issues nothing else. *)
Theorem timeoutEffect_arms (t : Tick) (a : Arbiter) :
  (forall gid pid, In (ResignMutation gid pid) (snd (timeoutEffect t a)) ->
     exists game, arbiterArmed t a game
       /\ myClock t <= 0 /\ 0 < opponentClock t
       /\ snd (timeoutEffect t a) = [ResignMutation gid pid])
  /\ (forall gid, In (ClaimTimeWinMutation gid) (snd (timeoutEffect t a)) <->
        exists game, arbiterArmed t a game
          /\ opponentClock t <= 0 /\ gid = id game)
  /\ (forall gid fr fc tr tc pid,
        ~ In (MakeMoveMutation gid fr fc tr tc pid) (snd (timeoutEffect t a))).
Proof.
  unfold timeoutEffect, arbiterArmed, myClock, opponentClock.
  destruct (selectedGame (tick_store t)) as [game|] eqn:Hsel.
  2:{ cbn. split; [intros ? ? []|]. split; [|intros; tauto].
      intros gid. split; [intros []|]. intros [g [[H _] _]]. discriminate. }
  destruct (status game) eqn:Hst; cbn [GameStatus_eqb negb];
    try (cbn; split; [intros ? ? []|]; split; [|intros; tauto];
         intros gid; split; [intros []|];
         intros [g [[H [H2 _]] _]]; injection H as <-; congruence).
  destruct (tick_timeControl t) eqn:Htc; cbn [negb].
  2:{ cbn. split; [intros ? ? []|]. split; [|intros; tauto].
      intros gid. split; [intros []|].
      intros [g [[_ [_ [H _]]] _]]. discriminate. }
  destruct (pagePlayerColor (tick_playerId t) (tick_store t)) eqn:Hpc;
    cbn [PlayerColor_eqb].
  3:{ cbn. split; [intros ? ? []|]. split; [|intros; tauto].
      intros gid. split; [intros []|].
      intros [g [[_ [_ [_ [H _]]]] _]]. congruence. }
  all: destruct (timeWinClaimInProgress a) eqn:Hflag; cbn [negb].
  all: rewrite ?andb_false_r.
  all: try (cbn; split; [intros ? ? []|]; split; [|intros; tauto];
            intros gid; split; [intros []|];
            intros [g [[_ [_ [_ [_ H]]]] _]]; discriminate).
  all: rewrite ?andb_true_r.
  - destruct (tick_redTimeMs t <=? 0) eqn:Hmy;
      destruct (tick_blackTimeMs t <=? 0) eqn:Hopp; cbn [negb andb snd];
      try apply Z.leb_le in Hmy; try apply Z.leb_gt in Hmy;
      try apply Z.leb_le in Hopp; try apply Z.leb_gt in Hopp.
    + split; [intros ? ? [H|[]]; discriminate|]. split.
      * intros gid. split.
        -- intros [H|[]]. injection H as <-. exists game.
           repeat split; auto; discriminate.
        -- intros [g [[Hg _] [_ ->]]]. injection Hg as <-. now left.
      * intros ? ? ? ? ? ? [H|[]]. discriminate.
    + split.
      * unfold resign_sends. intros gid pid Hin.
        destruct (truthy (selectedGameId (tick_store t))); [|destruct Hin].
        destruct (truthy (tick_playerId t)); [|destruct Hin].
        destruct Hin as [H|[]]. injection H as -> ->. exists game.
        repeat split; auto; try discriminate; lia.
      * split.
        -- intros gid. split.
           ++ unfold resign_sends. intros Hin.
              destruct (truthy (selectedGameId (tick_store t)));
                [|destruct Hin].
              destruct (truthy (tick_playerId t)); [|destruct Hin].
              destruct Hin as [H|[]]. discriminate.
           ++ intros [g [_ [H _]]]. lia.
        -- unfold resign_sends. intros ? ? ? ? ? ? Hin.
           destruct (truthy (selectedGameId (tick_store t)));
             [|destruct Hin].
           destruct (truthy (tick_playerId t)); [|destruct Hin].
           destruct Hin as [H|[]]. discriminate.
    + split; [intros ? ? [H|[]]; discriminate|]. split.
      * intros gid. split.
        -- intros [H|[]]. injection H as <-. exists game.
           repeat split; auto; discriminate.
        -- intros [g [[Hg _] [_ ->]]]. injection Hg as <-. now left.
      * intros ? ? ? ? ? ? [H|[]]. discriminate.
    + split; [intros ? ? []|]. split; [|intros; tauto].
      intros gid. split; [intros []|]. intros [g [_ [H _]]]. lia.
  - destruct (tick_blackTimeMs t <=? 0) eqn:Hmy;
      destruct (tick_redTimeMs t <=? 0) eqn:Hopp; cbn [negb andb snd];
      try apply Z.leb_le in Hmy; try apply Z.leb_gt in Hmy;
      try apply Z.leb_le in Hopp; try apply Z.leb_gt in Hopp.
    + split; [intros ? ? [H|[]]; discriminate|]. split.
      * intros gid. split.
        -- intros [H|[]]. injection H as <-. exists game.
           repeat split; auto; discriminate.
        -- intros [g [[Hg _] [_ ->]]]. injection Hg as <-. now left.
      * intros ? ? ? ? ? ? [H|[]]. discriminate.
    + split.
      * unfold resign_sends. intros gid pid Hin.
        destruct (truthy (selectedGameId (tick_store t))); [|destruct Hin].
        destruct (truthy (tick_playerId t)); [|destruct Hin].
        destruct Hin as [H|[]]. injection H as -> ->. exists game.
        repeat split; auto; try discriminate; lia.
      * split.
        -- intros gid. split.
           ++ unfold resign_sends. intros Hin.
              destruct (truthy (selectedGameId (tick_store t)));
                [|destruct Hin].
              destruct (truthy (tick_playerId t)); [|destruct Hin].
              destruct Hin as [H|[]]. discriminate.
           ++ intros [g [_ [H _]]]. lia.
        -- unfold resign_sends. intros ? ? ? ? ? ? Hin.
           destruct (truthy (selectedGameId (tick_store t)));
             [|destruct Hin].
           destruct (truthy (tick_playerId t)); [|destruct Hin].
           destruct Hin as [H|[]]. discriminate.
    + split; [intros ? ? [H|[]]; discriminate|]. split.
      * intros gid. split.
        -- intros [H|[]]. injection H as <-. exists game.
           repeat split; auto; discriminate.
        -- intros [g [[Hg _] [_ ->]]]. injection Hg as <-. now left.
      * intros ? ? ? ? ? ? [H|[]]. discriminate.
    + split; [intros ? ? []|]. split; [|intros; tauto].
      intros gid. split; [intros []|]. intros [g [_ [H _]]]. lia.
Qed.


(** With both clocks out the client claims the win. *)
Example timeoutEffect_both_clocks_out :
  snd (timeoutEffect (mkTick (Some "alice"%string) (storeAt 12) true 0 0)
                     (idleArbiter 0))
  = [ClaimTimeWinMutation "g1"].
Proof. reflexivity. Qed.

(** X17: on the local player's turn the safety-reset effect takes the
    move guard down while the player's own mutation is still awaited: on
    the store [makeMove] leaves while it awaits the send, a second
    [makeMove] is rejected, but once the effect has run on that store the
    guard is down and a second [makeMove] sends its mutation. *)
Theorem safetyResetEffect_reopens_guard
    (playerId : option string) (env : MoveEnv) (from : MoveInfo)
    (s : GameStore) (game : CheckersGame) (gid pid : string) :
  selectedGame s = Some game ->
  truthy (selectedGameId s) = Some gid ->
  truthy playerId = Some pid ->
  pageIsMyTurn playerId s = true ->
  let awaiting := setError None (setIsMoving true s) in
  res_sent (makeMove playerId env from awaiting) = []
  /\ isMoving (safetyResetEffect playerId awaiting) = false
  /\ res_sent (makeMove playerId env from (safetyResetEffect playerId awaiting))
     = [mkSent (MakeMoveMutation gid (fromRow from) (fromCol from)
                                 (toRow from) (toCol from) pid) true].
Proof.
  intros Hsel Hgid Hpid Hturn. cbv zeta.
  assert (Hturn' : pageIsMyTurn playerId (setError None (setIsMoving true s))
                   = true) by exact Hturn.
  unfold safetyResetEffect. rewrite Hturn'. cbn [isMoving setError setIsMoving
    andb].
  split; [|split; [reflexivity|]].
  - unfold makeMove. cbn. rewrite Hsel, Hgid, Hpid. reflexivity.
  - unfold makeMove. cbn [selectedGame selectedGameId isMoving setIsMoving
      setError]. rewrite Hsel, Hgid, Hpid.
    destruct (env_send env); [reflexivity|].
    destruct (confirmLoop _ _ _ _ _ _ _). reflexivity.
Qed.

Lemma safetyResetEffect_reopens_guard_witness :
  let awaiting := setError None (setIsMoving true (storeAt 6)) in
  res_sent (makeMove (Some "alice"%string) acceptingEnv (mkMove 2 2 3 3)
                     awaiting) = []
  /\ isMoving (safetyResetEffect (Some "alice"%string) awaiting) = false
  /\ res_sent (makeMove (Some "alice"%string) acceptingEnv (mkMove 2 2 3 3)
                 (safetyResetEffect (Some "alice"%string) awaiting))
     = [mkSent (MakeMoveMutation "g1" (fromRow (mkMove 2 2 3 3))
                  (fromCol (mkMove 2 2 3 3)) (toRow (mkMove 2 2 3 3))
                  (toCol (mkMove 2 2 3 3)) "alice") true].
Proof.
  apply (safetyResetEffect_reopens_guard (Some "alice"%string) acceptingEnv
           (mkMove 2 2 3 3) (storeAt 6) (snapshot 6) "g1" "alice");
    reflexivity.
Defined.

(** Two moves in flight: the effect runs while the first mutation is
    awaited, and the next call made on that store sends too. *)
Example makeMove_twice_in_flight :
  let env := mkMoveEnv None (safetyResetEffect (Some "alice"%string))
                       (fun s => s) (fun _ => quietAttempt NoData) in
  let awaiting := env_duringSend env
                    (setError None (setIsMoving true (storeAt 6))) in
  List.length (res_sent (makeMove (Some "alice"%string) env (mkMove 2 0 3 1)
                                  (storeAt 6))) = 1%nat
  /\ List.length (res_sent (makeMove (Some "alice"%string) env
                                     (mkMove 2 2 3 3) awaiting)) = 1%nat.
Proof. split; reflexivity. Qed.

Section ClockProofs.

Lemma clockStep_nonneg (c : PageClock) (op : ClockOp) :
  0 <= redTimeMs c /\ 0 <= blackTimeMs c ->
  0 <= redTimeMs (clockStep c op) /\ 0 <= blackTimeMs (clockStep c op).
Proof.
  intros [Hr Hb]. destruct op as [selected tc|selected clock|turn];
    cbn [clockStep].
  - unfold initTimerEffect. destruct selected; [|auto].
    destruct tc as [[| | | |]|]; cbn; auto; lia.
  - unfold syncTimerEffect. destruct selected; [|auto].
    destruct clock as [[r b]|]; [|auto]. cbn.
    split.
    + destruct r as [v|]; [|exact Hr].
      destruct (0 <=? v) eqn:E; [now apply Z.leb_le | exact Hr].
    + destruct b as [v|]; [|exact Hb].
      destruct (0 <=? v) eqn:E; [now apply Z.leb_le | exact Hb].
  - destruct turn; cbn; lia.
Qed.

Lemma countdown_red (n : nat) (c : PageClock) :
  0 <= redTimeMs c ->
  redTimeMs (countdown TurnRed n c) = Z.max 0 (redTimeMs c - 100 * Z.of_nat n)
  /\ blackTimeMs (countdown TurnRed n c) = blackTimeMs c.
Proof.
  intros H. unfold countdown. induction n as [|n [IH1 IH2]].
  - cbn. lia.
  - rewrite Nat.iter_succ. cbn [countdownTick redTimeMs blackTimeMs].
    rewrite IH1, IH2. lia.
Qed.

Lemma countdown_black (n : nat) (c : PageClock) :
  0 <= blackTimeMs c ->
  blackTimeMs (countdown TurnBlack n c)
  = Z.max 0 (blackTimeMs c - 100 * Z.of_nat n)
  /\ redTimeMs (countdown TurnBlack n c) = redTimeMs c.
Proof.
  intros H. unfold countdown. induction n as [|n [IH1 IH2]].
  - cbn. lia.
  - rewrite Nat.iter_succ. cbn [countdownTick redTimeMs blackTimeMs].
    rewrite IH1, IH2. lia.
Qed.

End ClockProofs.

(** X18: whatever time control is chosen, whatever clock values arrive
    with snapshots and however long the countdown runs, the two page
    clocks never go below zero; so the UI counts the player's time as
    expired exactly when the player's clock reads zero. *)
Theorem pageClock_never_negative
    (ops : list ClockOp) (timed : bool) (playerColor : PlayerColor) :
  let c := fold_left clockStep ops initialPageClock in
  0 <= redTimeMs c /\ 0 <= blackTimeMs c
  /\ (myTimeExpired timed playerColor c = true
      <-> timed = true
          /\ ((playerColor = PRed /\ redTimeMs c = 0)
              \/ (playerColor = PBlack /\ blackTimeMs c = 0))).
Proof.
  cbv zeta.
  assert (Hgen : forall c, 0 <= redTimeMs c /\ 0 <= blackTimeMs c ->
            0 <= redTimeMs (fold_left clockStep ops c)
            /\ 0 <= blackTimeMs (fold_left clockStep ops c)).
  { induction ops as [|op rest IH]; intros c Hc; [exact Hc|].
    cbn [fold_left]. apply IH. now apply clockStep_nonneg. }
  destruct (Hgen initialPageClock) as [Hr Hb]; [cbn; lia|].
  split; [exact Hr|]. split; [exact Hb|].
  unfold myTimeExpired. destruct timed; cbn [negb].
  2:{ split; [discriminate | intros [H _]; discriminate]. }
  destruct playerColor; cbn [PlayerColor_eqb]; rewrite ?Z.leb_le; split.
  - intros H. split; [reflexivity|]. left. split; [reflexivity | lia].
  - intros [_ [[_ H]|[H _]]]; [lia | discriminate].
  - intros H. split; [reflexivity|]. right. split; [reflexivity | lia].
  - intros [_ [[H _]|[_ H]]]; [discriminate | lia].
  - discriminate.
  - intros [_ [[H _]|[H _]]]; discriminate.
Qed.

(** X19: [n] ticks of the countdown take [100 n] milliseconds off the
    clock of the side to move, stopping at zero, and leave the other clock
    alone. *)
Theorem countdown_closed_form (turn : Turn) (n : nat) (c : PageClock) :
  0 <= redTimeMs c -> 0 <= blackTimeMs c ->
  match turn with
  | TurnRed =>
      redTimeMs (countdown turn n c)
      = Z.max 0 (redTimeMs c - 100 * Z.of_nat n)
      /\ blackTimeMs (countdown turn n c) = blackTimeMs c
  | TurnBlack =>
      blackTimeMs (countdown turn n c)
      = Z.max 0 (blackTimeMs c - 100 * Z.of_nat n)
      /\ redTimeMs (countdown turn n c) = redTimeMs c
  end.
Proof.
  intros Hr Hb. destruct turn;
    [now apply countdown_red | now apply countdown_black].
Qed.

Lemma countdown_closed_form_witness :
  redTimeMs (countdown TurnRed 601 (mkPageClock 60000 60000))
  = Z.max 0 (redTimeMs (mkPageClock 60000 60000) - 100 * Z.of_nat 601)
  /\ blackTimeMs (countdown TurnRed 601 (mkPageClock 60000 60000))
     = blackTimeMs (mkPageClock 60000 60000).
Proof.
  apply (countdown_closed_form TurnRed 601 (mkPageClock 60000 60000));
    discriminate.
Defined.

Section PremoveProofs.


End PremoveProofs.


(** Two turn flips in quick succession schedule two callbacks; the second
    finds the slot empty. *)
Example premove_two_callbacks :
  let away := setSelectedGame
                (Some (mkGame "g1" (Some "alice"%string) (Some "bob"%string)
                              initialDotted TurnBlack 8 Active)) premoveStore in
  premoveRun [PmEffect (Some "alice"%string) premoveStore;
              PmEffect (Some "alice"%string) away;
              PmEffect (Some "alice"%string) premoveStore;
              PmTimeout (Some "alice"%string) acceptingEnv premoveStore;
              PmTimeout (Some "alice"%string) acceptingEnv premoveStore]
             (mkPremovePage (Some (mkMove 2 1 4 3)) false 0)
  = (mkPremovePage None true 0, 1%nat).
Proof. reflexivity. Qed.

(** A resign is issued only in a timed game, for a player whose clock is
    out. *)
Lemma timeoutEffect_resign_expired (t : Tick) (a : Arbiter) (gid pid : string) :
  In (ResignMutation gid pid) (snd (timeoutEffect t a)) ->
  tick_timeControl t = true
  /\ pagePlayerColor (tick_playerId t) (tick_store t) <> Spectator
  /\ myClock t <= 0.
Proof.
  unfold timeoutEffect, myClock.
  destruct (selectedGame (tick_store t)) as [game|]; [|intros []].
  destruct (negb (GameStatus_eqb (status game) Active)); [intros []|].
  destruct (tick_timeControl t); cbn [negb]; [|intros []].
  destruct (pagePlayerColor (tick_playerId t) (tick_store t));
    cbn [PlayerColor_eqb]; [| |intros []].
  - destruct (tick_redTimeMs t <=? 0) eqn:Hmy; cbn [andb].
    + intros _. repeat split; [discriminate | now apply Z.leb_le].
    + destruct ((tick_blackTimeMs t <=? 0) && negb (timeWinClaimInProgress a));
        cbn; [intros [H|[]]; discriminate | intros []].
  - destruct (tick_blackTimeMs t <=? 0) eqn:Hmy; cbn [andb].
    + intros _. repeat split; [discriminate | now apply Z.leb_le].
    + destruct ((tick_redTimeMs t <=? 0) && negb (timeWinClaimInProgress a));
        cbn; [intros [H|[]]; discriminate | intros []].
Qed.

(** X21: whenever the arbiter resigns, the page counts the player's time
    as expired, which disables the board: no click then selects a piece,
    stages a premove or calls [onMove]. *)
Theorem resign_disables_board
    (t : Tick) (a : Arbiter) (gid pid : string) (game : CheckersGame)
    (board : Board) (turn : Turn) (myTurn moving : bool) (row col : Z)
    (ui : BoardUi) (pui : PremoveUi) :
  In (ResignMutation gid pid) (snd (timeoutEffect t a)) ->
  let playerColor := pagePlayerColor (tick_playerId t) (tick_store t) in
  let expired :=
    myTimeExpired (tick_timeControl t) playerColor
                  (mkPageClock (tick_redTimeMs t) (tick_blackTimeMs t)) in
  expired = true
  /\ handleSquareClick
       (mkBoardProps board turn playerColor myTurn
                     (boardDisabled game moving expired))
       row col ui pui
     = Ok (ui, pui, None).
Proof.
  intros Hin. cbv zeta.
  destruct (timeoutEffect_resign_expired t a gid pid Hin) as [Htimed [Hpc Hmy]].
  assert (Hexp : myTimeExpired (tick_timeControl t)
                   (pagePlayerColor (tick_playerId t) (tick_store t))
                   (mkPageClock (tick_redTimeMs t) (tick_blackTimeMs t))
                 = true).
  { unfold myTimeExpired, myClock in *. rewrite Htimed. cbn [negb].
    destruct (pagePlayerColor (tick_playerId t) (tick_store t));
      cbn [PlayerColor_eqb redTimeMs blackTimeMs] in *;
      [now apply Z.leb_le | now apply Z.leb_le | congruence]. }
  split; [exact Hexp|]. rewrite Hexp.
  unfold handleSquareClick, boardDisabled. cbn [bp_disabled].
  now rewrite orb_true_r.
Qed.

Lemma resign_disables_board_witness :
  let playerColor :=
    pagePlayerColor (tick_playerId redFlagged) (tick_store redFlagged) in
  let expired :=
    myTimeExpired (tick_timeControl redFlagged) playerColor
      (mkPageClock (tick_redTimeMs redFlagged) (tick_blackTimeMs redFlagged)) in
  expired = true
  /\ handleSquareClick
       (mkBoardProps captureBoard TurnRed playerColor true
                     (boardDisabled (snapshot 12) false expired))
       2 1 (mkBoardUi None []) (mkPremoveUi None [] None)
     = Ok (mkBoardUi None [], mkPremoveUi None [] None, None).
Proof.
  apply (resign_disables_board redFlagged (idleArbiter 0) "g1" "alice"
           (snapshot 12) captureBoard TurnRed true false 2 1
           (mkBoardUi None []) (mkPremoveUi None [] None)).
  left. reflexivity.
Defined.

(* ================================================================== *)
(** ** store/game.ts: the confirmation loop of makeMove *)

Section Confirmation.

Variable answers : nat -> CheckersGame.
Variable gid : string.
Hypothesis answers_addressed : forall i, id (answers i) = gid.

Lemma confirmLoop_quiet (remaining i : nat) (old : Z) (s : GameStore)
    (n : nat) :
  selectedGameId s = Some gid ->
  confirmLoop (S remaining) i (quietEnv answers) gid old s n
  = if old <? moveCount (answers i) then (installed answers gid i s, S n)
    else confirmLoop remaining (S i) (quietEnv answers) gid old
                     (installed answers gid i s) (S n).
Proof.
  intros Hsel. cbn [confirmLoop]. rewrite Hsel. cbn [optString_eqb].
  rewrite String.eqb_refl. cbn [negb quietEnv env_attempt quietAttempt
    att_response att_duringFetch att_duringBackoff].
  fold (installed answers gid i s).
  cbn [installed fetchGame fetchGame_resolve selectedGame].
  rewrite answers_addressed, String.eqb_refl. cbn [negb]. reflexivity.
Qed.

End Confirmation.

(** X22: when the mutation is accepted and nothing else touches the
    store, [makeMove] fetches until the first snapshot whose [moveCount]
    exceeds the count before the move, installs it and stops; if none of
    three fetches confirms, it stops after the third, keeps that snapshot
    and still returns true with the guard down. *)
Theorem makeMove_stops_at_first_confirmation
    (answers : nat -> CheckersGame) (k : nat)
    (playerId : option string) (from : MoveInfo) (s : GameStore)
    (game : CheckersGame) (gid pid : string) :
  selectedGame s = Some game ->
  truthy (selectedGameId s) = Some gid ->
  truthy playerId = Some pid ->
  isMoving s = false ->
  (forall i, id (answers i) = gid) ->
  (forall i, (i < k)%nat -> moveCount (answers i) <= moveCount game) ->
  k = 3%nat \/ ((k < 3)%nat /\ moveCount game < moveCount (answers k)) ->
  let r := makeMove playerId (quietEnv answers) from s in
  res_success r = true
  /\ res_fetches r = Nat.min (S k) 3
  /\ selectedGame (res_store r) = Some (answers (Nat.min k 2))
  /\ isMoving (res_store r) = false.
Proof.
  intros Hsel Hgid Hpid Hmov Haddr Hbefore Hk. cbv zeta.
  pose proof (truthy_some _ _ Hgid) as Hid.
  unfold makeMove. rewrite Hsel, Hgid, Hpid, Hmov.
  cbn [quietEnv env_send env_duringSend env_duringSettle].
  set (s1 := setError None (setIsMoving true s)).
  assert (Hs1 : selectedGameId s1 = Some gid) by exact Hid.
  assert (Hnot : forall i, (i < k)%nat ->
            (moveCount game <? moveCount (answers i)) = false).
  { intros i Hi. apply Z.ltb_ge. now apply Hbefore. }
  assert (Hinst : forall i st, selectedGameId (installed answers gid i st)
                               = Some gid) by reflexivity.
  rewrite (confirmLoop_quiet answers gid Haddr 2 0 _ s1 0 Hs1).
  destruct Hk as [->|[Hlt Hconf]].
  - rewrite (Hnot 0%nat) by lia.
    rewrite (confirmLoop_quiet answers gid Haddr 1 1 _ _ 1 (Hinst _ _)).
    rewrite (Hnot 1%nat) by lia.
    rewrite (confirmLoop_quiet answers gid Haddr 0 2 _ _ 2 (Hinst _ _)).
    rewrite (Hnot 2%nat) by lia.
    cbn. repeat split.
  - apply Z.ltb_lt in Hconf.
    destruct k as [|[|[|k]]]; [| | |lia].
    + rewrite Hconf. cbn. repeat split.
    + rewrite (Hnot 0%nat) by lia.
      rewrite (confirmLoop_quiet answers gid Haddr 1 1 _ _ 1 (Hinst _ _)).
      rewrite Hconf. cbn. repeat split.
    + rewrite (Hnot 0%nat) by lia.
      rewrite (confirmLoop_quiet answers gid Haddr 1 1 _ _ 1 (Hinst _ _)).
      rewrite (Hnot 1%nat) by lia.
      rewrite (confirmLoop_quiet answers gid Haddr 0 2 _ _ 2 (Hinst _ _)).
      rewrite Hconf. cbn. repeat split.
Qed.

Lemma makeMove_stops_at_first_confirmation_witness :
  let answers := fun i : nat => snapshot (Z.of_nat i + 2) in
  let r := makeMove (Some "alice"%string) (quietEnv answers) (mkMove 2 0 3 1)
                    (storeAt 3) in
  res_success r = true
  /\ res_fetches r = Nat.min (S 2) 3
  /\ selectedGame (res_store r) = Some (answers (Nat.min 2 2))
  /\ isMoving (res_store r) = false.
Proof.
  apply (makeMove_stops_at_first_confirmation
           (fun i : nat => snapshot (Z.of_nat i + 2)) 2
           (Some "alice"%string) (mkMove 2 0 3 1) (storeAt 3) (snapshot 3)
           "g1" "alice"); try reflexivity.
  - intros i Hi. cbn [snapshot moveCount]. lia.
  - right. split; [lia | reflexivity].
Defined.

(* ================================================================== *)
(** ** store/game.ts: fetchGames, the board transform, the codec *)

(** X23: through [fetchGames] the newest snapshot wins: whatever the
    order in which snapshots of the selected game arrive, the selected
    game ends with the largest [moveCount] among the cached one and the
    arrivals. *)
Theorem fetchGames_newest_wins
    (arrivals : list (list CheckersGame * CheckersGame)) (s : GameStore)
    (cur : CheckersGame) (gid : string) :
  selectedGame s = Some cur ->
  truthy (selectedGameId s) = Some gid ->
  Forall (arrivesIn gid) arrivals ->
  selectedMoveCount (deliverByFetchGames arrivals s)
  = Some (fold_left Z.max (map (fun a => moveCount (snd a)) arrivals)
                    (moveCount cur)).
Proof.
  intros Hsel Hgid Harr. revert s cur Hsel Hgid.
  unfold deliverByFetchGames.
  induction Harr as [|[l g] rest Ha _ IH]; intros s cur Hsel Hgid.
  - cbn. unfold selectedMoveCount. now rewrite Hsel.
  - cbn [fold_left map fst snd]. unfold arrivesIn in Ha. cbn [fst snd] in Ha.
    set (s' := fetchGames_resolve (Data l) (fetchGames_start s)).
    assert (Hs' : exists cur',
              selectedGame s' = Some cur'
              /\ truthy (selectedGameId s') = Some gid
              /\ moveCount cur' = Z.max (moveCount cur) (moveCount g)).
    { unfold s', fetchGames_resolve, fetchGames_start. cbn.
      rewrite Hgid, Ha, Hsel.
      destruct (moveCount cur <=? moveCount g) eqn:Hle.
      - apply Z.leb_le in Hle. exists g. cbn. rewrite Hgid.
        repeat split. lia.
      - apply Z.leb_gt in Hle. exists cur. cbn. rewrite Hgid, Hsel.
        repeat split. lia. }
    destruct Hs' as [cur' [Hsel' [Hgid' Hmax]]].
    rewrite (IH s' cur' Hsel' Hgid'). now rewrite Hmax.
Qed.

Lemma fetchGames_newest_wins_witness :
  selectedMoveCount
    (deliverByFetchGames
       [([snapshot 3], snapshot 3); ([snapshot 2], snapshot 2);
        ([snapshot 5], snapshot 5); ([snapshot 4], snapshot 4)] (storeAt 0))
  = Some (fold_left Z.max
            (map (fun a => moveCount (snd a))
               [([snapshot 3], snapshot 3); ([snapshot 2], snapshot 2);
                ([snapshot 5], snapshot 5); ([snapshot 4], snapshot 4)])
            (moveCount (snapshot 0))).
Proof.
  apply (fetchGames_newest_wins _ (storeAt 0) (snapshot 0) "g1");
    [reflexivity | reflexivity | repeat constructor].
Defined.

Section Frame.

Lemma nth_replaceNth_other {A} (n m : nat) (x d : A) (l : list A) :
  n <> m -> nth m (replaceNth n x l) d = nth m l d.
Proof.
  revert n m. induction l as [|h t IH]; intros [|n] [|m] H; cbn; auto;
    try congruence.
Qed.

(** Writing a piece on a square of a decoded board changes that square
    and no other. *)
Lemma set_8x8_frame (b : Board) (r c : Z) (p : Piece) :
  is8x8 b = true -> inBoard r c = true ->
  exists b', set b r c (Some p) = Ok b'
    /\ is8x8 b' = true
    /\ forall r' c', inBoard r' c' = true ->
         pieceAt b' r' c'
         = if (r' =? r) && (c' =? c) then p else pieceAt b r' c'.
Proof.
  intros H8 Hin.
  destruct (set_8x8 b r c p H8 Hin) as [b' [Hset [H8' Hat]]].
  exists b'. split; [exact Hset|]. split; [exact H8'|].
  intros r' c' Hin'.
  destruct ((r' =? r) && (c' =? c)) eqn:Hsame.
  { apply andb_prop in Hsame as [H1 H2]. apply Z.eqb_eq in H1, H2.
    now subst. }
  pose proof (get_8x8 b' H8' r' c' Hin') as Hg'.
  pose proof (get_8x8 b H8 r' c' Hin') as Hg.
  apply inBoard_spec in Hin as Hrc. apply inBoard_spec in Hin' as Hrc'.
  apply is8x8_spec in H8 as [Hlen Hrows].
  unfold set, zlen in Hset. rewrite Hlen in Hset.
  replace ((r <? 0) || (Z.of_nat 8 <=? r)) with false in Hset
    by (symmetry; apply orb_false_iff; split;
          [apply Z.ltb_ge | apply Z.leb_gt]; lia).
  injection Hset as <-.
  assert (Hrow : In (nth (Z.to_nat r) b []) b) by (apply nth_In; lia).
  destruct (Hrows _ Hrow) as [Hrl _].
  assert (Hrs : rowSet (nth (Z.to_nat r) b []) c (Some p)
                = replaceNth (Z.to_nat c) (SPiece p) (nth (Z.to_nat r) b [])).
  { unfold rowSet, zlen. rewrite Hrl.
    replace (c <? 0) with false by (symmetry; apply Z.ltb_ge; lia).
    replace (c <? Z.of_nat 8) with true by (symmetry; apply Z.ltb_lt; lia).
    reflexivity. }
  assert (Hr_in : (r' <? 0) || (Z.of_nat 8 <=? r') = false)
    by (apply orb_false_iff; split; [apply Z.ltb_ge | apply Z.leb_gt]; lia).
  assert (Hc_in : (c' <? 0) || (Z.of_nat 8 <=? c') = false)
    by (apply orb_false_iff; split; [apply Z.ltb_ge | apply Z.leb_gt]; lia).
  assert (Hrlt : (Z.to_nat r < List.length b)%nat) by lia.
  assert (Hrow' : In (nth (Z.to_nat r') b []) b) by (apply nth_In; lia).
  destruct (Hrows _ Hrow') as [Hrl' _].
  assert (Hcases : r' <> r \/ (r' = r /\ c' <> c)).
  { apply andb_false_iff in Hsame as [H|H]; apply Z.eqb_neq in H;
      [now left|]. destruct (Z.eq_dec r' r); [right; now split | now left]. }
  assert (Hsamecell :
    get (replaceNth (Z.to_nat r) (rowSet (nth (Z.to_nat r) b []) c (Some p)) b)
        r' c' = get b r' c').
  { unfold get, zlen. rewrite replaceNth_length, Hlen, Hr_in. cbv zeta.
    destruct Hcases as [Hne|[-> Hne]].
    - rewrite nth_replaceNth_other by lia. reflexivity.
    - rewrite (nth_replaceNth _ _ [] b Hrlt), Hrs, replaceNth_length, Hrl, Hc_in.
      rewrite nth_replaceNth_other by lia. reflexivity. }
  rewrite Hsamecell in Hg'. rewrite Hg in Hg'. now injection Hg' as <-.
Qed.

End Frame.

(** X24: on a decoded board, for a move between squares of the board,
    the board transform of [localMakeMove] goes through and changes the
    board square by square as [movedBoard] says: the destination holds the
    moved piece (promoted on its back rank), the source and, for a
    two-row move, the square in between are empty, and every other square
    is untouched. *)
Theorem applyMove_changes_three_squares (b : Board) (m : MoveInfo) :
  is8x8 b = true ->
  onBoard (mkSquare (fromRow m) (fromCol m)) ->
  onBoard (mkSquare (toRow m) (toCol m)) ->
  exists b',
    applyMove b m = Ok b'
    /\ is8x8 b' = true
    /\ forall r c, onBoard (mkSquare r c) ->
         pieceAt b' r c = movedBoard b m r c.
Proof.
  intros H8 Hfrom Hto.
  apply inBoard_spec in Hfrom as Hfi. apply inBoard_spec in Hto as Hti.
  unfold onBoard in Hfrom, Hto. cbn [sq_row sq_col] in *. unfold applyMove.
  rewrite (get_8x8 b H8 _ _ Hfi). cbn [bind].
  destruct (set_8x8_frame b _ _ Empty H8 Hfi) as [b1 [Hs1 [H81 Hf1]]].
  rewrite Hs1. cbn [bind].
  assert (Hq : exists q,
    promoted (Some (pieceAt b (fromRow m) (fromCol m))) (toRow m) = Some q).
  { unfold promoted.
    destruct (strictEq _ Red && (toRow m =? 7)); [now eexists|].
    destruct (strictEq _ Black && (toRow m =? 0)); now eexists. }
  destruct Hq as [q Hq].
  destruct (Z.abs (toRow m - fromRow m) =? 2) eqn:Hjump.
  - assert (Hc : inBoard ((fromRow m + toRow m) / 2)
                         ((fromCol m + toCol m) / 2) = true).
    { apply inBoard_spec.
      pose proof (Z.div_mod (fromRow m + toRow m) 2 ltac:(lia)).
      pose proof (Z.mod_pos_bound (fromRow m + toRow m) 2 ltac:(lia)).
      pose proof (Z.div_mod (fromCol m + toCol m) 2 ltac:(lia)).
      pose proof (Z.mod_pos_bound (fromCol m + toCol m) 2 ltac:(lia)).
      lia. }
    destruct (set_8x8_frame b1 _ _ Empty H81 Hc) as [b2 [Hs2 [H82 Hf2]]].
    rewrite Hs2. cbn [bind]. rewrite Hq.
    destruct (set_8x8_frame b2 _ _ q H82 Hti) as [b3 [Hs3 [H83 Hf3]]].
    exists b3. split; [exact Hs3|]. split; [exact H83|].
    intros r c Hon. apply inBoard_spec in Hon.
    rewrite (Hf3 r c Hon), (Hf2 r c Hon), (Hf1 r c Hon).
    unfold movedBoard. rewrite Hq, Hjump. cbn [andb].
    destruct ((r =? toRow m) && (c =? toCol m)); [reflexivity|].
    destruct ((r =? (fromRow m + toRow m) / 2)
              && (c =? (fromCol m + toCol m) / 2)); reflexivity.
  - cbn [bind]. rewrite Hq.
    destruct (set_8x8_frame b1 _ _ q H81 Hti) as [b3 [Hs3 [H83 Hf3]]].
    exists b3. split; [exact Hs3|]. split; [exact H83|].
    intros r c Hon. apply inBoard_spec in Hon.
    rewrite (Hf3 r c Hon), (Hf1 r c Hon).
    unfold movedBoard. rewrite Hq, Hjump. cbn [andb].
    destruct ((r =? toRow m) && (c =? toCol m)); reflexivity.
Qed.

Lemma applyMove_changes_three_squares_witness :
  exists b',
    applyMove captureBoard (mkMove 2 1 4 3) = Ok b'
    /\ is8x8 b' = true
    /\ forall r c, onBoard (mkSquare r c) ->
         pieceAt b' r c = movedBoard captureBoard (mkMove 2 1 4 3) r c.
Proof.
  apply (applyMove_changes_three_squares captureBoard (mkMove 2 1 4 3)).
  - reflexivity.
  - cbv; repeat split; discriminate.
  - cbv; repeat split; discriminate.
Defined.

(** X25: encoding a decoded board (pieces only, at least one row, of
    whatever size) and decoding it again gives the board back. *)
Theorem parseBoardState_boardToString_roundtrip (b : Board) :
  decodedBoard b -> parseBoardState (boardToString b) = b.
Proof.
  intros [Hne Hrows]. rewrite Forall_forall in Hrows.
  unfold parseBoardState, boardToString. rewrite split_join.
  - rewrite map_map. rewrite <- (map_id b) at 2. apply map_ext_in.
    intros row Hin. now apply rowToString_pieceRow, Hrows.
  - destruct b; [congruence | discriminate].
  - apply Forall_forall. intros r Hr. apply in_map_iff in Hr as [row [<- Hin]].
    now apply rowToString_pieceRow, Hrows.
Qed.

Lemma parseBoardState_boardToString_roundtrip_witness :
  parseBoardState (boardToString [[SPiece Red; SPiece Empty]; []; [SPiece BlackKing]])
  = [[SPiece Red; SPiece Empty]; []; [SPiece BlackKing]].
Proof.
  apply parseBoardState_boardToString_roundtrip.
  split; [discriminate | repeat constructor].
Defined.

(** The board with no row is the one exception: it comes back with one
    empty row. *)
Example parseBoardState_boardToString_no_row :
  parseBoardState (boardToString []) = [[]].
Proof. reflexivity. Qed.
